(** * resfetch: a shallow embedding of the request pipeline

    The development follows the layout of the sources:
    - [utils]            : isPlainObject, isSerializable, replacePathParams,
                           mergeHeaders, withTimeout, abortableDelay, omit,
                           resolveUrl, validate
    - [errors]           : ValidationError, ResponseError and their guards
    - [result]           : ok, err, matchResfetch
    - [fallback-options] : fallbackOptions
    - [enhance]          : the attempt / retry loop
    - [create]           : createResfetch and the error-to-result boundary

    JavaScript values are first-order data; promises are computations in a
    state-and-exception monad over a world carrying the environment state,
    a millisecond clock and a trace of the calls made to injected functions. *)

From Stdlib Require Import ZArith Ascii String List Bool Lia.
From stdpp Require Import base option gmap strings list fin_maps pretty.

Local Open Scope string_scope.
Local Open Scope Z_scope.

Set Warnings "-register-all".

(* ===================================================================== *)
(** ** JavaScript values *)
(* ===================================================================== *)

(** Data values.  Numbers are integers: every property that looks at a number
    (status codes, attempt counts, delays in milliseconds) is about an
    integral one, and a safe one (at most [2^53 - 1] in absolute value),
    which [String] prints in full.  [VObj] is an object created by an object
    literal (its prototype is [Object.prototype]); its own properties are
    listed in the order [Object.entries] enumerates them.  [VInstance] is
    an instance of a class: it records the class name, whether a [toJSON]
    method is reachable and what [String(v)] returns; it has no own
    enumerable properties. *)
Inductive Value : Type :=
| VUndefined
| VNull
| VBool (b : bool)
| VNum (n : Z)
| VStr (s : string)
| VArr (items : list Value)
| VObj (props : list (string * Value))
| VFormData (entries : list (string * string))
| VDate (toISOString : string) (toString : string)
| VInstance (className : string) (hasToJSON : bool) (toString : string).

(** [value === undefined || value === null] *)
Definition isNullish (v : Value) : bool :=
  match v with VUndefined | VNull => true | _ => false end.

(** ToBoolean *)
Definition truthy (v : Value) : bool :=
  match v with
  | VUndefined | VNull => false
  | VBool b => b
  | VNum n => negb (n =? 0)
  | VStr s => negb (String.eqb s "")
  | _ => true
  end.

(** [Array.prototype.join(",")] over already converted elements. *)
Fixpoint joinComma (l : list string) : string :=
  match l with
  | [] => ""
  | [x] => x
  | x :: rest => x ++ "," ++ joinComma rest
  end.

(** The integers that are JavaScript numbers whatever their size in
    memory: [Number.isSafeInteger]. *)
Definition isSafeInteger (n : Z) : bool := Z.abs n <=? 9007199254740991.

(** The values [String] turns into the text one reads: strings, booleans
    and safe integers. *)
Definition isPrintable (v : Value) : bool :=
  match v with
  | VStr _ | VBool _ => true
  | VNum n => isSafeInteger n
  | _ => false
  end.

(** [String(value)], for numbers that are safe integers and objects that
    keep the [toString] they inherit. *)
Fixpoint String_ (v : Value) : string :=
  match v with
  | VUndefined => "undefined"
  | VNull => "null"
  | VBool true => "true"
  | VBool false => "false"
  | VNum n => pretty n
  | VStr s => s
  | VArr items =>
      joinComma
        ((fix elems (l : list Value) : list string :=
            match l with
            | [] => []
            | x :: l' => (if isNullish x then "" else String_ x) :: elems l'
            end) items)
  | VObj _ => "[object Object]"
  | VFormData _ => "[object FormData]"
  | VDate _ s => s
  | VInstance _ _ s => s
  end.

(* ===================================================================== *)
(** ** utils: object predicates *)
(* ===================================================================== *)

(** The own property [key] of an object, if it has one. *)
Definition ownProp (key : string) (props : list (string * Value)) : option Value :=
  snd <$> List.find (fun kv => String.eqb key (fst kv)) props.

(** [value.constructor?.name === 'Object'] for an object [value].  A
    [VObj] finds [constructor] on [Object.prototype] unless it has an own
    property of that name, and then [name] is read on the value of that
    property, where a nullish value ends the chain and only an object can
    hold the string; the other objects have constructors of their own. *)
Definition constructorIsObject (v : Value) : bool :=
  match v with
  | VObj props =>
      match ownProp "constructor" props with
      | None => true
      | Some (VObj props') =>
          match ownProp "name" props' with
          | Some (VStr n) => String.eqb n "Object"
          | _ => false
          end
      | Some _ => false
      end
  | VInstance className _ _ => String.eqb className "Object"
  | _ => false
  end.

(** [value !== null && typeof value === 'object' &&
     value.constructor?.name === 'Object'] *)
Definition isPlainObject (v : Value) : bool :=
  match v with
  | VObj _ | VArr _ | VFormData _ | VDate _ _ | VInstance _ _ _ => constructorIsObject v
  | _ => false
  end.

(** [value instanceof FormData] *)
Definition isFormData (v : Value) : bool :=
  match v with VFormData _ => true | _ => false end.

(** [isPlainObject(value) || Array.isArray(value) ||
     (typeof value === 'object' && value !== null && 'toJSON' in value &&
      typeof value.toJSON === 'function')] *)
Definition isSerializable (v : Value) : bool :=
  isPlainObject v ||
  match v with
  | VArr _ => true
  | VDate _ _ => true
  | VInstance _ hasToJSON _ => hasToJSON
  | _ => false
  end.

(** Modelled from the spec: [isNil] is imported by fallback-options from
    utils but its definition is not among the sources; the spec says that
    [null]/[undefined] values are the ones skipped during serialization. *)
Definition isNil (v : Value) : bool := isNullish v.

(* ===================================================================== *)
(** ** Strings and the pattern [new RegExp(`:${key}\\b`, 'g')] *)
(* ===================================================================== *)

Definition ascii_in (lo hi c : ascii) : bool :=
  (nat_of_ascii lo <=? nat_of_ascii c)%nat && (nat_of_ascii c <=? nat_of_ascii hi)%nat.

(** The class [\w] of a regular expression without the [u] and [i] flags. *)
Definition isWordChar (c : ascii) : bool :=
  ascii_in "a" "z" c || ascii_in "A" "Z" c || ascii_in "0" "9" c || Ascii.eqb c "_".

(** Characters with a meaning of their own in a pattern: a key free of them
    is matched literally once interpolated into the pattern source. *)
Definition isSyntaxCharacter (c : ascii) : bool :=
  existsb (Ascii.eqb c)
    ["^"; "$"; "\"; "."; "*"; "+"; "?"; "("; ")"; "["; "]"; "{"; "}"; "|"]%char.

Fixpoint string_forallb (p : ascii -> bool) (s : string) : bool :=
  match s with
  | EmptyString => true
  | String c s' => p c && string_forallb p s'
  end.

Definition isLiteralKey (key : string) : bool :=
  string_forallb (fun c => negb (isSyntaxCharacter c)) key.

Fixpoint string_drop (n : nat) (s : string) : string :=
  match n, s with
  | O, _ => s
  | S n', String _ s' => string_drop n' s'
  | S _, EmptyString => EmptyString
  end.

Fixpoint string_last (d : ascii) (s : string) : ascii :=
  match s with
  | EmptyString => d
  | String c s' => string_last c s'
  end.

Definition string_head (s : string) : option ascii :=
  match s with
  | EmptyString => None
  | String c _ => Some c
  end.

Fixpoint string_includes (c : ascii) (s : string) : bool :=
  match s with
  | EmptyString => false
  | String d s' => Ascii.eqb c d || string_includes c s'
  end.

(** The assertion [\b] between the last character of the match and the
    character that follows it (none at the end of the input). *)
Definition wordBoundary (prev : ascii) (next : option ascii) : bool :=
  xorb (isWordChar prev)
       (match next with Some c => isWordChar c | None => false end).

(** Does the literal [lit] followed by [\b] match at the start of [s]?
    Returns what follows the match. *)
Definition matchAt (lit s : string) : option string :=
  if String.prefix lit s then
    let after := string_drop (String.length lit) s in
    if wordBoundary (string_last " " lit) (string_head after)
    then Some after else None
  else None.

(** GetSubstitution for a pattern without capture groups: [$$], [$&],
    [$`] and [$'] are expanded, every other [$] is literal. *)
Fixpoint getSubstitution (matched before after replacement : string) : string :=
  match replacement with
  | EmptyString => EmptyString
  | String c rest =>
      if Ascii.eqb c "$" then
        match rest with
        | String d rest' =>
            if Ascii.eqb d "$" then
              String "$" (getSubstitution matched before after rest')
            else if Ascii.eqb d "&" then
              matched ++ getSubstitution matched before after rest'
            else if Ascii.eqb d "`" then
              before ++ getSubstitution matched before after rest'
            else if Ascii.eqb d "'" then
              after ++ getSubstitution matched before after rest'
            else String c (getSubstitution matched before after rest)
        | EmptyString => String c EmptyString
        end
      else String c (getSubstitution matched before after rest)
  end.

(** [subject.replace(/lit\b/g, replacement)]: the matches are found from
    left to right in the subject and do not overlap; [skip] counts the
    characters of the current match still to be consumed, [before] is the
    part of the subject already scanned. *)
Fixpoint replaceFrom (lit replacement : string) (skip : nat)
         (before s : string) : string :=
  match s with
  | EmptyString => EmptyString
  | String c s' =>
      let before' := before ++ String c EmptyString in
      match skip with
      | S k => replaceFrom lit replacement k before' s'
      | O =>
          match matchAt lit s with
          | Some after =>
              getSubstitution lit before after replacement
              ++ replaceFrom lit replacement (String.length lit - 1) before' s'
          | None => String c (replaceFrom lit replacement O before' s')
          end
      end
  end.

Definition replaceLiteralAll (lit replacement subject : string) : string :=
  replaceFrom lit replacement O EmptyString subject.

(* ===================================================================== *)
(** ** Platform objects: AbortSignal, Request, Response *)
(* ===================================================================== *)

(** A thrown value that is not an instance of the two error classes of the
    library: an [Error] (or [DOMException]) with its name and message, or
    any other value. *)
Inductive Exn : Type :=
| ExnError (name message : string)
| ExnValue (v : Value).

(** An abort signal is described by the instant (in milliseconds on the
    clock of the world) at which it fires, if ever, and by its reason.
    Which object a signal is does not show: a signal and the new signal
    that [AbortSignal.any] or [new Request] derives from it alone are the
    same value here. *)
Record AbortSignal : Type := {
  sig_fires : option nat;
  sig_reason : Exn;
}.

Record Request : Type := {
  rq_url : string;
  rq_method : string;
  rq_headers : gmap string string;
  rq_body : Value;
  rq_signal : option AbortSignal;
}.

(** [rs_text] is what [response.text()] settles to. *)
Record Response : Type := {
  rs_status : Z;
  rs_statusText : string;
  rs_text : Exn + string;
}.

(** [response.ok] *)
Definition rs_ok (r : Response) : bool :=
  (200 <=? rs_status r) && (rs_status r <=? 299).

(* ===================================================================== *)
(** ** errors *)
(* ===================================================================== *)

(** A Standard Schema issue: an object with at least a [message]. *)
Definition Issue : Type := Value.

(** Everything a [throw] can raise.  The two classes of the library carry
    the fields their constructors assign ([name] is fixed by the class and
    [stack] is not looked at by any property below). *)
Inductive Thrown : Type :=
| TExn (x : Exn)
| TValidationError (message : string) (issues : list Issue) (data : Value)
| TResponseError (message : string) (response : option Response)
                 (request : option Request) (data : Value)
                 (status : option Z) (originalError : Thrown).

Definition undefinedThrown : Thrown := TExn (ExnValue VUndefined).

(** [e instanceof Error] *)
Definition instanceofError (e : Thrown) : bool :=
  match e with
  | TExn (ExnError _ _) => true
  | TExn (ExnValue _) => false
  | TValidationError _ _ _ => true
  | TResponseError _ _ _ _ _ _ => true
  end.

(** [e.message], read on an [Error] *)
Definition messageOf (e : Thrown) : string :=
  match e with
  | TExn (ExnError _ m) => m
  | TExn (ExnValue _) => ""
  | TValidationError m _ _ => m
  | TResponseError m _ _ _ _ _ => m
  end.

(** ToBoolean of a thrown value: objects are truthy. *)
Definition truthyThrown (e : Thrown) : bool :=
  match e with
  | TExn (ExnValue v) => truthy v
  | _ => true
  end.

(** The argument of [new ResponseError(props)]. *)
Record ResponseErrorProps : Type := {
  p_message : option string;
  p_response : option Response;
  p_data : Value;
  p_request : option Request;
  p_originalError : Thrown;
}.

(** [new ResponseError(props)] *)
Definition ResponseError (props : ResponseErrorProps) : Thrown :=
  let given := match p_message props with Some m => m | None => "" end in
  TResponseError
    (if negb (String.eqb given "") then given
     else if instanceofError (p_originalError props)
          then messageOf (p_originalError props) else "")
    (p_response props)
    (p_request props)
    (p_data props)
    (option_map rs_status (p_response props))
    (p_originalError props).

Definition isValidationError (e : Thrown) : bool :=
  match e with TValidationError _ _ _ => true | _ => false end.

Definition isResponseError (e : Thrown) : bool :=
  match e with TResponseError _ _ _ _ _ _ => true | _ => false end.

(* ===================================================================== *)
(** ** result *)
(* ===================================================================== *)

(** A result object: [None] is a key the object does not have. *)
Record ResfetchResult : Type := {
  r_ok : bool;
  r_data : option Value;
  r_error : option Thrown;
}.

Definition ok (data : Value) : ResfetchResult :=
  {| r_ok := true; r_data := Some data; r_error := None |}.

Definition err (error : Thrown) : ResfetchResult :=
  {| r_ok := false; r_data := None; r_error := Some error |}.

(** Property reads [result.data] and [result.error]: a missing key reads
    as [undefined]. *)
Definition get_data (r : ResfetchResult) : Value :=
  match r_data r with Some v => v | None => VUndefined end.

Definition get_error (r : ResfetchResult) : Thrown :=
  match r_error r with Some e => e | None => undefinedThrown end.

Record MatchHandlers (R : Type) : Type := {
  h_ok : Value -> R;
  h_validationError : Thrown -> R;
  h_responseError : Thrown -> R;
}.
Arguments h_ok {R}.
Arguments h_validationError {R}.
Arguments h_responseError {R}.

Definition matchResfetch {R : Type} (result : ResfetchResult)
           (handlers : MatchHandlers R) : R :=
  if r_ok result then h_ok handlers (get_data result)
  else if isValidationError (get_error result)
       then h_validationError handlers (get_error result)
       else h_responseError handlers (get_error result).

(* ===================================================================== *)
(** ** Promises: a state-and-exception monad with a clock *)
(* ===================================================================== *)

(** How a piece of code completes: normally, or by a [throw]. *)
Inductive Completion (A : Type) : Type :=
| Normal (a : A)
| Throw (e : Thrown).
Arguments Normal {A}.
Arguments Throw {A}.

(** One key of an options object: the key may be missing, be present with
    the value [undefined], or hold a value. *)
Inductive Slot (A : Type) : Type :=
| Absent
| Undefined
| Present (a : A).
Arguments Absent {A}.
Arguments Undefined {A}.
Arguments Present {A}.

(** One key of [{...a, ...b}]: a key of [b] wins whenever it is present,
    even with the value [undefined]. *)
Definition spread {A : Type} (a b : Slot A) : Slot A :=
  match b with Absent => a | _ => b end.

(** Reading [o.key] when a function or a structured value is expected. *)
Definition read {A : Type} (s : Slot A) : option A :=
  match s with Present a => Some a | _ => None end.

(** Reading [o.key] as a value. *)
Definition readValue (s : Slot Value) : Value :=
  match s with Present v => v | _ => VUndefined end.

(** The slot written by [key: v] in an object literal. *)
Definition slotOf {A : Type} (o : option A) : Slot A :=
  match o with Some a => Present a | None => Undefined end.

Inductive HookName : Type := OnRequest | OnRetry | OnResponse | OnSuccess | OnError.

(** The options object a hook was registered in. *)
Inductive Origin : Type := DefaultOpts | FetcherOpts.

(** The calls made to the outside, in the order they happen. *)
Inductive Event : Type :=
| EvFetch (request : Request)
| EvHook (hook : HookName) (origin : Origin)
| EvSleep (ms : nat) (signal : option AbortSignal).

Definition isFetch (ev : Event) : bool :=
  match ev with EvFetch _ => true | _ => false end.

Definition isHook (h : HookName) (o : Origin) (ev : Event) : bool :=
  match ev, h, o with
  | EvHook OnRequest DefaultOpts, OnRequest, DefaultOpts
  | EvHook OnRequest FetcherOpts, OnRequest, FetcherOpts
  | EvHook OnRetry DefaultOpts, OnRetry, DefaultOpts
  | EvHook OnRetry FetcherOpts, OnRetry, FetcherOpts
  | EvHook OnResponse DefaultOpts, OnResponse, DefaultOpts
  | EvHook OnResponse FetcherOpts, OnResponse, FetcherOpts
  | EvHook OnSuccess DefaultOpts, OnSuccess, DefaultOpts
  | EvHook OnSuccess FetcherOpts, OnSuccess, FetcherOpts
  | EvHook OnError DefaultOpts, OnError, DefaultOpts
  | EvHook OnError FetcherOpts, OnError, FetcherOpts => true
  | _, _, _ => false
  end.

Fixpoint count (p : Event -> bool) (tr : list Event) : nat :=
  match tr with
  | [] => O
  | ev :: tr' => ((if p ev then 1 else 0) + count p tr')%nat
  end.

Section Model.

Context {St : Type}.

(** An injected function (transport, hook, serializer, schema, ...): it
    sees the state of the environment and the current time, settles
    normally or by throwing, may change the environment, and takes some
    time to settle. *)
Definition Ext (A : Type) : Type := St -> nat -> Completion A * St * nat.

Record World : Type := {
  env : St;
  now : nat;
  trace : list Event;
}.

(** A promise under construction; [None] means that the fuel given to the
    retry loop ran out before the promise settled. *)
Definition M (A : Type) : Type := World -> option (Completion A * World).

Definition ret {A : Type} (a : A) : M A := fun w => Some (Normal a, w).

Definition throw {A : Type} (e : Thrown) : M A := fun w => Some (Throw e, w).

Definition bind {A B : Type} (m : M A) (f : A -> M B) : M B :=
  fun w =>
    match m w with
    | Some (Normal a, w') => f a w'
    | Some (Throw e, w') => Some (Throw e, w')
    | None => None
    end.

(** [try { m } catch (e) { h e }] *)
Definition try_catch {A : Type} (m : M A) (h : Thrown -> M A) : M A :=
  fun w =>
    match m w with
    | Some (Throw e, w') => h e w'
    | r => r
    end.

Definition liftC {A : Type} (c : Completion A) : M A := fun w => Some (c, w).

Definition emit (ev : Event) : M unit :=
  fun w => Some (Normal tt, {| env := env w; now := now w; trace := trace w ++ [ev] |}).

Definition clock : M nat := fun w => Some (Normal (now w), w).

(** Settle at instant [t] (never earlier than now). *)
Definition waitUntil (t : nat) : M unit :=
  fun w => Some (Normal tt, {| env := env w; now := Nat.max (now w) t; trace := trace w |}).

(** [await f(...)] for an injected function. *)
Definition call {A : Type} (f : Ext A) : M A :=
  fun w =>
    let '(c, s, d) := f (env w) (now w) in
    Some (c, {| env := s; now := (now w + d)%nat; trace := trace w |}).

End Model.

Arguments World : clear implicits.
Arguments M : clear implicits.
Arguments Ext : clear implicits.

Declare Scope promise_scope.
Delimit Scope promise_scope with promise.
Notation "x <- m ;; k" := (bind m (fun x => k))
  (at level 100, m at next level, right associativity) : promise_scope.
Notation "m ;; k" := (bind m (fun _ => k))
  (at level 100, right associativity) : promise_scope.
Local Open Scope promise_scope.

(** The [TypeError] raised by calling something that is not a function. *)
Definition notAFunction (what : string) : Thrown :=
  TExn (ExnError "TypeError" (what ++ " is not a function")).

(** [await f(...)] where [f] was read from an options object. *)
Definition callRead {St A : Type} (what : string) (f : option (Ext St A)) : M St A :=
  match f with
  | Some g => call g
  | None => throw (notAFunction what)
  end.

(** [await o.hook?.(...)]: nothing happens when the hook is not set. *)
Definition callHook {St : Type} (h : HookName) (o : Origin)
           (f : option (Ext St unit)) : M St unit :=
  match f with
  | Some g => emit (EvHook h o) ;; call g
  | None => ret tt
  end.

(* ===================================================================== *)
(** ** types: options objects *)
(* ===================================================================== *)

(** What a Standard Schema returns from [validate]: [vr_issues] is the
    [issues] key ([None] when it is missing or undefined). *)
Record ValidateResult : Type := {
  vr_issues : option (list Issue);
  vr_value : Value;
}.

Inductive HeadersInit : Type :=
| HeadersList (entries : list (string * Value))
| HeadersRecord (res : gmap string string).

Inductive Input : Type :=
| InputString (s : string)
| InputURL (href : string)
| InputRequest (r : Request).

Record WhenContext : Type := {
  wc_request : Request;
  wc_response : option Response;
  wc_error : Thrown;
}.

Record RetryContext : Type := {
  rc_attempt : Z;
  rc_request : Request;
  rc_response : option Response;
  rc_error : Thrown;
}.

Section Options.

Context {St : Type}.

(** A Standard Schema, seen through [schema['~standard'].validate]. *)
Definition StandardSchema : Type := Value -> Ext St ValidateResult.

Inductive RetryAttempts : Type :=
| AttemptsNumber (n : Z)
| AttemptsFn (f : Request -> Ext St Z).

Inductive RetryDelay : Type :=
| DelayNumber (n : Z)
| DelayFn (f : RetryContext -> Ext St Z).

Record RetryOptions : Type := {
  attempts : Slot RetryAttempts;
  delay : Slot RetryDelay;
  when : Slot (WhenContext -> Ext St bool);
}.

(** [FetcherOptions] (and [DefaultOptions], which has the same keys but
    for [body] and [schema], never read on it). *)
Record FetcherOptions : Type := {
  baseUrl : Slot string;
  body : Slot Value;
  headers : Slot HeadersInit;
  method : Slot string;
  onError : Slot (Thrown -> Request -> Ext St unit);
  onRequest : Slot (Request -> Ext St unit);
  onResponse : Slot (option Response -> Request -> Ext St unit);
  onRetry : Slot (RetryContext -> Ext St unit);
  onSuccess : Slot (Value -> Request -> Ext St unit);
  params : Slot Value;
  parseRejected : Slot (option Response -> Request -> Ext St Thrown);
  parseResponse : Slot (option Response -> Request -> Ext St Value);
  reject : Slot (option Response -> Ext St bool);
  retry : Slot RetryOptions;
  schema : Slot StandardSchema;
  serializeBody : Slot (Value -> Ext St Value);
  serializeParams : Slot (Value -> Ext St string);
  signal : Slot AbortSignal;
  timeout : Slot Z;
}.

(** The transport: [fetch(request, init)]. *)
Definition FetchFn : Type := Request -> FetcherOptions -> Ext St Response.

(** [FetchSchema] / [RequestSchema]: the schema set of one route. *)
Record FetchSchema : Type := {
  fs_body : option StandardSchema;
  fs_response : option StandardSchema;
  fs_query : option StandardSchema;
  fs_params : option StandardSchema;
  fs_method : option string;
}.

(** [ResfetchOptions]: the per-call options of the public surface.  The
    keys the type does not list but the runtime forwards ([retry],
    serializers, ...) are kept as well. *)
Record ResfetchOptions : Type := {
  ro_baseUrl : Slot string;
  ro_body : Slot Value;
  ro_headers : Slot HeadersInit;
  ro_method : Slot string;
  ro_onError : Slot (Thrown -> Request -> Ext St unit);
  ro_onRequest : Slot (Request -> Ext St unit);
  ro_onResponse : Slot (option Response -> Request -> Ext St unit);
  ro_onRetry : Slot (RetryContext -> Ext St unit);
  ro_onSuccess : Slot (Value -> Request -> Ext St unit);
  ro_params : Slot Value;
  ro_query : Slot Value;
  ro_parseRejected : Slot (option Response -> Request -> Ext St Thrown);
  ro_parseResponse : Slot (option Response -> Request -> Ext St Value);
  ro_reject : Slot (option Response -> Ext St bool);
  ro_retry : Slot RetryOptions;
  ro_schema : Slot FetchSchema;
  ro_serializeBody : Slot (Value -> Ext St Value);
  ro_serializeParams : Slot (Value -> Ext St string);
  ro_signal : Slot AbortSignal;
  ro_timeout : Slot Z;
}.

(** [Schema]: the global route table and its configuration (the
    configuration is never read at run time). *)
Record Schema : Type := {
  sc_schema : option (gmap string FetchSchema);
}.

(** [CreateResfetchOption], already destructured as
    [{ schema, fetch, ...defaultOpts }]. *)
Record CreateResfetchOption : Type := {
  cro_schema : option Schema;
  cro_fetch : option FetchFn;
  cro_defaultOpts : FetcherOptions;
}.

(** What the host provides. *)
Record Platform : Type := {
  (** ['any' in AbortSignal] *)
  AbortSignal_has_any : bool;
  JSON_parse : string -> option Value;
  JSON_stringify : Value -> Completion Value;
  (** [[...new URL(input, 'http://a').searchParams.keys()]] *)
  URL_searchParams_keys : string -> Completion (list string);
  URLSearchParams_toString : list (string * string) -> string;
  (** [subject.replace(new RegExp(source, 'g'), replacement)] for a source
      that is not a literal followed by [\b] *)
  RegExp_replace : string -> string -> string -> Completion string;
  (** [new Request(input).url]: the input string parsed as a URL and
      serialized (so [https://a.com] becomes [https://a.com/]) *)
  Request_url : string -> string;
  (** the [TypeError] of [new Request(...)], if it raises one *)
  Request_check : Request -> option Exn;
  (** the MIME type the Request constructor extracts from a body *)
  body_mime_type : Value -> option string;
  (** [globalThis.fetch] *)
  global_fetch : FetchFn;
}.

End Options.

Arguments StandardSchema : clear implicits.
Arguments RetryAttempts : clear implicits.
Arguments RetryDelay : clear implicits.
Arguments RetryOptions : clear implicits.
Arguments FetcherOptions : clear implicits.
Arguments FetchFn : clear implicits.
Arguments FetchSchema : clear implicits.
Arguments ResfetchOptions : clear implicits.
Arguments Schema : clear implicits.
Arguments CreateResfetchOption : clear implicits.
Arguments Platform : clear implicits.

(* ===================================================================== *)
(** ** utils *)
(* ===================================================================== *)

Definition bindC {A B : Type} (c : Completion A) (f : A -> Completion B) : Completion B :=
  match c with
  | Normal a => f a
  | Throw e => Throw e
  end.

Definition typeError (message : string) : Thrown :=
  TExn (ExnError "TypeError" message).

(** *** The [Headers] class *)

Definition asciiLower (c : ascii) : ascii :=
  if ascii_in "A" "Z" c then ascii_of_nat (nat_of_ascii c + 32) else c.

Fixpoint string_map (f : ascii -> ascii) (s : string) : string :=
  match s with
  | EmptyString => EmptyString
  | String c s' => String (f c) (string_map f s')
  end.

Definition isTokenChar (c : ascii) : bool :=
  ascii_in "a" "z" c || ascii_in "A" "Z" c || ascii_in "0" "9" c ||
  existsb (Ascii.eqb c)
    ["!"; "#"; "$"; "%"; "&"; "'"; "*"; "+"; "-"; "."; "^"; "_"; "`"; "|"; "~"]%char.

Definition isHttpWhitespace (c : ascii) : bool :=
  existsb (Ascii.eqb c) ["009"; "010"; "013"; " "]%char.

Fixpoint trimStart (s : string) : string :=
  match s with
  | EmptyString => EmptyString
  | String c s' => if isHttpWhitespace c then trimStart s' else s
  end.

Fixpoint trimEnd (s : string) : string :=
  match s with
  | EmptyString => EmptyString
  | String c s' =>
      let t := trimEnd s' in
      if String.eqb t "" && isHttpWhitespace c then EmptyString else String c t
  end.

Definition normalizeHeaderValue (v : string) : string := trimEnd (trimStart v).

Definition validHeaderName (n : string) : bool :=
  negb (String.eqb n "") && string_forallb isTokenChar n.

Definition validHeaderValue (v : string) : bool :=
  string_forallb
    (fun c => negb (existsb (Ascii.eqb c) ["000"; "010"; "013"]%char)) v.

(** [headers.append(name, value)].  A repeated name combines its values,
    as iteration over the object reports them; [set-cookie] is reported
    value by value, of which the last one wins downstream. *)
Definition Headers_append (h : gmap string string) (name value : string)
  : Completion (gmap string string) :=
  let v := normalizeHeaderValue value in
  if validHeaderName name && validHeaderValue v then
    let k := string_map asciiLower name in
    match h !! k with
    | Some old =>
        if String.eqb k "set-cookie" then Normal (<[k := v]> h)
        else Normal (<[k := old ++ ", " ++ v]> h)
    | None => Normal (<[k := v]> h)
    end
  else Throw (typeError "Invalid header").

(** [new Headers(init)] as the map from each name to the value iteration
    reports for it. *)
Definition Headers_ (init : option HeadersInit) : Completion (gmap string string) :=
  match init with
  | None => Normal ∅
  | Some (HeadersList entries) =>
      fold_left
        (fun acc nv => bindC acc (fun h => Headers_append h (fst nv) (String_ (snd nv))))
        entries (Normal ∅)
  | Some (HeadersRecord res) =>
      map_fold
        (fun name value acc => bindC acc (fun h => Headers_append h name value))
        (Normal ∅) res
  end.

(** The callback of [forEach] in [mergeHeaders]. *)
Definition mergeEntry (key value : string) (res : gmap string string)
  : gmap string string :=
  if String.eqb value "null" || String.eqb value "undefined"
  then delete key res
  else <[key := value]> res.

Definition mergeHeaders (headerInits : list (option HeadersInit))
  : Completion (gmap string string) :=
  fold_left
    (fun acc init =>
       bindC acc (fun res =>
       bindC (Headers_ init) (fun h =>
       Normal (map_fold mergeEntry res h))))
    headerInits (Normal ∅).

(** *** Requests *)

Definition asciiUpper (c : ascii) : ascii :=
  if ascii_in "a" "z" c then ascii_of_nat (nat_of_ascii c - 32) else c.

(** The methods the Request constructor normalizes: a method that is one
    of them up to case is put in upper case, any other is left as it is. *)
Definition normalizedMethods : list string :=
  ["DELETE"; "GET"; "HEAD"; "OPTIONS"; "POST"; "PUT"].

Definition normalizeMethod (m : string) : string :=
  let upper := string_map asciiUpper m in
  if existsb (String.eqb upper) normalizedMethods then upper else m.

(** *** Abort signals *)

Definition aborted (t0 : nat) (s : AbortSignal) : bool :=
  match sig_fires s with
  | Some t => (t <=? t0)%nat
  | None => false
  end.

(** [AbortSignal.timeout(ms)], created at instant [t0] *)
Definition AbortSignal_timeout (t0 : nat) (ms : Z) : AbortSignal :=
  {| sig_fires := Some (t0 + Z.to_nat ms)%nat;
     sig_reason := ExnError "TimeoutError" "The operation was aborted due to timeout" |}.

Definition neverSignal : AbortSignal :=
  {| sig_fires := None; sig_reason := ExnValue VUndefined |}.

(** The first of two signals to fire (the first argument on a tie). *)
Definition earlier (a b : AbortSignal) : AbortSignal :=
  match sig_fires a, sig_fires b with
  | Some ta, Some tb => if (tb <? ta)%nat then b else a
  | Some _, None => a
  | None, _ => b
  end.

(** [AbortSignal.any(signals)], created at instant [t0]: it is aborted at
    once with the reason of the first source already aborted, and follows
    the first source to fire otherwise. *)
Definition AbortSignal_any (t0 : nat) (signals : list AbortSignal) : AbortSignal :=
  match find (aborted t0) signals with
  | Some s => s
  | None => fold_left earlier signals neverSignal
  end.

Definition filterSignals (l : list (option AbortSignal)) : list AbortSignal :=
  omap id l.

(** *** Objects used as dictionaries of query parameters *)

Definition isDigit (c : ascii) : bool := ascii_in "0" "9" c.

Fixpoint digitsValue (acc : N) (s : string) : N :=
  match s with
  | EmptyString => acc
  | String c s' => digitsValue (acc * 10 + (N_of_ascii c - 48))%N s'
  end.

(** The array index a property key denotes, if it is one: a canonical
    numeric string below [2^32 - 1]. *)
Definition arrayIndex (k : string) : option N :=
  match k with
  | EmptyString => None
  | String c rest =>
      if string_forallb isDigit k && (negb (Ascii.eqb c "0") || String.eqb rest "")
      then let n := digitsValue 0 k in
           if (n <=? 4294967294)%N then Some n else None
      else None
  end.

(** Own property keys are listed with the array indices first, in
    ascending order, and then the other keys in the order in which they
    were created: does a new key [k] go before the existing key [k']? *)
Definition keyBefore (k k' : string) : bool :=
  match arrayIndex k, arrayIndex k' with
  | Some i, Some j => (i <? j)%N
  | Some _, None => true
  | None, _ => false
  end.

Fixpoint addProp (k : string) (v : Value) (props : list (string * Value))
  : list (string * Value) :=
  match props with
  | [] => [(k, v)]
  | (k', v') :: rest =>
      if keyBefore k k' then (k, v) :: props else (k', v') :: addProp k v rest
  end.

Fixpoint replaceProp (k : string) (v : Value) (props : list (string * Value))
  : list (string * Value) :=
  match props with
  | [] => []
  | (k', v') :: rest =>
      if String.eqb k k' then (k, v) :: rest else (k', v') :: replaceProp k v rest
  end.

(** [obj[k] = v] (CreateDataProperty): an existing key keeps its place. *)
Definition setProp (k : string) (v : Value) (props : list (string * Value))
  : list (string * Value) :=
  if existsb (fun kv => String.eqb k (fst kv)) props
  then replaceProp k v props
  else addProp k v props.

(** The own enumerable properties of [v], as [{...v}] copies them and
    [Object.entries(v)] lists them. *)
Definition spreadProps (v : Value) : list (string * Value) :=
  match v with
  | VObj props => props
  | VArr items => imap (fun i x => (pretty i, x)) items
  | VStr s =>
      imap (fun i c => (pretty i, VStr (String c EmptyString)))
           (list_ascii_of_string s)
  | _ => []
  end.

(** [{...a, ...b}] *)
Definition objectSpread (a b : list (string * Value)) : list (string * Value) :=
  fold_left (fun acc kv => setProp (fst kv) (snd kv) acc) b a.

(** [omit(obj, keys)] on a dictionary *)
Definition omit (obj : Value) (keys : list string) : list (string * Value) :=
  filter (fun kv => existsb (String.eqb (fst kv)) keys = false) (spreadProps obj).

Definition stripTrailingSlash (s : string) : string :=
  match string_last " " s with
  | "/"%char => String.substring 0 (String.length s - 1) s
  | _ => s
  end.

Definition stripLeading (c : ascii) (s : string) : string :=
  match s with
  | String d s' => if Ascii.eqb c d then s' else s
  | EmptyString => EmptyString
  end.

Section Pipeline.

Context {St : Type}.
Variable pf : Platform St.

(** An injected function that settles at once without touching the
    environment. *)
Definition pureExt {A : Type} (c : Completion A) : Ext St A :=
  fun s _ => (c, s, O).

(** [withTimeout(signal, timeout)] *)
Definition withTimeout (signal : option AbortSignal) (timeout : option Z)
  : M St (option AbortSignal) :=
  if AbortSignal_has_any pf then
    t0 <- clock ;;
    tsig <- match timeout with
            | Some ms =>
                if ms =? 0 then ret None
                else if ms <? 0 then
                  throw (typeError "Value is outside the 'unsigned long long' value range")
                else ret (Some (AbortSignal_timeout t0 ms))
            | None => ret None
            end ;;
    ret (Some (AbortSignal_any t0 (filterSignals [signal; tsig])))
  else ret signal.

(** [abortableDelay(delay, signal)].  The listener is called if the signal
    fires while the timer is pending, that is strictly after the call and
    strictly before the timer; a signal already aborted when the listener
    is added never calls it. *)
Definition abortableDelay (delay : nat) (signal : option AbortSignal) : M St unit :=
  emit (EvSleep delay signal) ;;
  t0 <- clock ;;
  match signal with
  | Some s =>
      match sig_fires s with
      | Some t =>
          if (t0 <? t)%nat && (t <? t0 + delay)%nat
          then waitUntil t ;; throw (TExn (sig_reason s))
          else waitUntil (t0 + delay)%nat
      | None => waitUntil (t0 + delay)%nat
      end
  | None => waitUntil (t0 + delay)%nat
  end.

(** [new ValidationError(result, data)] *)
Definition ValidationError (issues : list Issue) (data : Value) : Completion Thrown :=
  bindC (JSON_stringify pf (VArr issues)) (fun json =>
  Normal (TValidationError
            (match json with VStr m => m | _ => "" end) issues data)).

(** [validate(schema, data)] *)
Definition validate (schema : StandardSchema St) (data : Value) : M St Value :=
  result <- call (schema data) ;;
  match vr_issues result with
  | Some issues => e <- liftC (ValidationError issues data) ;; throw e
  | None => ret (vr_value result)
  end.

(** [newPath.replace(new RegExp(`:${key}\\b`, 'g'), replacement)] *)
Definition replaceKey (newPath key replacement : string) : Completion string :=
  if isLiteralKey key
  then Normal (replaceLiteralAll (":" ++ key) replacement newPath)
  else RegExp_replace pf (":" ++ key ++ "\b") newPath replacement.

(** [replacePathParams(path, params)] *)
Definition replacePathParams (path : string) (params : Value) : Completion string :=
  if negb (isPlainObject params) then Normal path
  else
    fold_left
      (fun acc kv =>
         bindC acc (fun newPath =>
         if isNullish (snd kv) then Normal newPath
         else replaceKey newPath (fst kv) (String_ (snd kv))))
      (spreadProps params) (Normal path).

(** [resolveUrl(base, input, defaultOptsParams, fetcherOptsParams,
     serializeParams)] *)
Definition resolveUrl (base : option string) (inputStr : string)
           (defaultOptsParams fetcherOptsParams : Value)
           (serializeParams : option (Value -> Ext St string)) : M St string :=
  let base := default "" base in
  keys <- liftC (URL_searchParams_keys pf inputStr) ;;
  qs <- callRead "serializeParams"
          (option_map
             (fun f => f (VObj (objectSpread (omit defaultOptsParams keys)
                                             (spreadProps fetcherOptsParams))))
             serializeParams) ;;
  let url :=
    if String.prefix "http://" inputStr || String.prefix "https://" inputStr
    then inputStr
    else if String.eqb base "" || String.eqb inputStr ""
         then base ++ inputStr
         else stripTrailingSlash base ++ "/" ++ stripLeading "/" inputStr in
  ret (if String.eqb qs "" then url
       else url ++ (if string_includes "?" url then "&" else "?")
                ++ stripLeading "?" qs).

(** [new Request(input, init)].  The keys of [init] the constructor looks
    at are [method], [headers], [body] and [signal]; a key holding
    [undefined] counts as missing.  The URL of the request is the input
    string as the host parses and serializes it, and a method given in
    [init] is normalized. *)
Definition newRequest (input : string + Request) (init : FetcherOptions St)
  : Completion Request :=
  bindC (match read (headers init) with
         | Some hi => Headers_ (Some hi)
         | None => Normal (match input with inr r => rq_headers r | inl _ => ∅ end)
         end) (fun hs =>
  let initBody := readValue (body init) in
  let hs' :=
    if isNullish initBody then hs
    else match body_mime_type pf initBody, hs !! "content-type" with
         | Some type, None => <["content-type" := type]> hs
         | _, _ => hs
         end in
  let request :=
    {| rq_url := match input with inl s => Request_url pf s | inr r => rq_url r end;
       rq_method := match read (method init), input with
                    | Some m, _ => normalizeMethod m
                    | None, inr r => rq_method r
                    | None, inl _ => "GET"
                    end;
       rq_headers := hs';
       rq_body := match input with
                  | inr r => if isNullish initBody then rq_body r else initBody
                  | inl _ => initBody
                  end;
       rq_signal := match read (signal init), input with
                    | Some s, _ => Some s
                    | None, inr r => rq_signal r
                    | None, inl _ => None
                    end |} in
  match Request_check pf request with
  | Some x => Throw (TExn x)
  | None => Normal request
  end).

(* ===================================================================== *)
(** ** fallback-options *)
(* ===================================================================== *)

Definition parseResponseText (res : option Response) : Completion Value :=
  match res with
  | None => Normal VNull
  | Some r =>
      match rs_text r with
      | inl x => Throw (TExn x)
      | inr text =>
          match JSON_parse pf text with
          | Some v => Normal v
          | None => Normal (if String.eqb text "" then VNull else VStr text)
          end
      end
  end.

Definition appendParam (key : string) (value : Value) : list (string * string) :=
  if isNil value then []
  else match value with
       | VDate iso _ => [(key, iso)]
       | _ => [(key, String_ value)]
       end.

Definition emptyRetry : RetryOptions St :=
  {| attempts := Absent; delay := Absent; when := Absent |}.

Definition emptyOptions : FetcherOptions St :=
  {| baseUrl := Absent; body := Absent; headers := Absent; method := Absent;
     onError := Absent; onRequest := Absent; onResponse := Absent;
     onRetry := Absent; onSuccess := Absent; params := Absent;
     parseRejected := Absent; parseResponse := Absent; reject := Absent;
     retry := Absent; schema := Absent; serializeBody := Absent;
     serializeParams := Absent; signal := Absent; timeout := Absent |}.

Definition fallbackRetry : RetryOptions St :=
  {| when := Present (fun ctx =>
               pureExt (Normal (match wc_response ctx with
                                | Some r => negb (rs_ok r)
                                | None => false
                                end)));
     attempts := Present (AttemptsNumber 0);
     delay := Present (DelayNumber 0) |}.

Definition fallbackOptions : FetcherOptions St :=
  {| parseResponse := Present (fun res _ => pureExt (parseResponseText res));
     parseRejected := Present (fun response request =>
       pureExt (
         bindC (parseResponseText response) (fun data =>
         Normal (ResponseError
           {| p_message := Some (match response with
                                 | Some r => "[" ++ pretty (rs_status r) ++ "] "
                                                 ++ rs_statusText r
                                 | None => ""
                                 end);
              p_data := data;
              p_response := response;
              p_request := Some request;
              p_originalError := undefinedThrown |}))));
     serializeParams := Present (fun params =>
       pureExt (Normal (URLSearchParams_toString pf
         (flat_map (fun kv =>
            match snd kv with
            | VArr items => flat_map (appendParam (fst kv)) items
            | value => appendParam (fst kv) value
            end) (spreadProps params)))));
     serializeBody := Present (fun body =>
       pureExt (if isFormData body then Normal body
                else if isSerializable body then JSON_stringify pf body
                else Normal body));
     reject := Present (fun response =>
       pureExt (Normal (match response with
                        | Some r => negb (rs_ok r)
                        | None => true
                        end)));
     retry := Present fallbackRetry;
     baseUrl := Absent; body := Absent; headers := Absent; method := Absent;
     onError := Absent; onRequest := Absent; onResponse := Absent;
     onRetry := Absent; onSuccess := Absent; params := Absent;
     schema := Absent; signal := Absent; timeout := Absent |}.

(* ===================================================================== *)
(** ** enhance *)
(* ===================================================================== *)

(** [fetcherOpts?.key] *)
Definition opt {A : Type} (o : option (FetcherOptions St))
           (key : FetcherOptions St -> Slot A) : Slot A :=
  match o with Some x => key x | None => Absent end.

(** [o.retry] when it is spread: nothing is copied from [undefined]. *)
Definition retryOf (s : Slot (RetryOptions St)) : RetryOptions St :=
  default emptyRetry (read s).

(** The object literal that starts [enhance]:
    [{ ...fallbackOptions, ...defaultOpts, ...fetcherOpts, body: undefined,
       retry: { ...fallbackOptions.retry, ...defaultOpts.retry,
                ...fetcherOpts?.retry } }] *)
Definition mergeOptions (defaultOpts : FetcherOptions St)
           (fetcherOpts : option (FetcherOptions St)) : FetcherOptions St :=
  let s3 {A} (key : FetcherOptions St -> Slot A) :=
    spread (spread (key fallbackOptions) (key defaultOpts)) (opt fetcherOpts key) in
  let r3 {A} (key : RetryOptions St -> Slot A) :=
    spread (spread (key (retryOf (retry fallbackOptions)))
                   (key (retryOf (retry defaultOpts))))
           (key (retryOf (opt fetcherOpts retry))) in
  {| baseUrl := s3 baseUrl;
     body := Undefined;
     headers := s3 headers;
     method := s3 method;
     onError := s3 onError;
     onRequest := s3 onRequest;
     onResponse := s3 onResponse;
     onRetry := s3 onRetry;
     onSuccess := s3 onSuccess;
     params := s3 params;
     parseRejected := s3 parseRejected;
     parseResponse := s3 parseResponse;
     reject := s3 reject;
     retry := Present {| attempts := r3 attempts; delay := r3 delay; when := r3 when |};
     schema := s3 schema;
     serializeBody := s3 serializeBody;
     serializeParams := s3 serializeParams;
     signal := s3 signal;
     timeout := s3 timeout |}.

(** Assignments to keys of the local [options] object. *)
Definition set_body (o : FetcherOptions St) (v : Slot Value) : FetcherOptions St :=
  {| body := v;
     baseUrl := baseUrl o; headers := headers o; method := method o;
     onError := onError o; onRequest := onRequest o; onResponse := onResponse o;
     onRetry := onRetry o; onSuccess := onSuccess o; params := params o;
     parseRejected := parseRejected o; parseResponse := parseResponse o;
     reject := reject o; retry := retry o; schema := schema o;
     serializeBody := serializeBody o; serializeParams := serializeParams o;
     signal := signal o; timeout := timeout o |}.

Definition set_headers (o : FetcherOptions St) (v : Slot HeadersInit) : FetcherOptions St :=
  {| headers := v;
     baseUrl := baseUrl o; body := body o; method := method o;
     onError := onError o; onRequest := onRequest o; onResponse := onResponse o;
     onRetry := onRetry o; onSuccess := onSuccess o; params := params o;
     parseRejected := parseRejected o; parseResponse := parseResponse o;
     reject := reject o; retry := retry o; schema := schema o;
     serializeBody := serializeBody o; serializeParams := serializeParams o;
     signal := signal o; timeout := timeout o |}.

Definition set_signal (o : FetcherOptions St) (v : Slot AbortSignal) : FetcherOptions St :=
  {| signal := v;
     baseUrl := baseUrl o; body := body o; headers := headers o; method := method o;
     onError := onError o; onRequest := onRequest o; onResponse := onResponse o;
     onRetry := onRetry o; onSuccess := onSuccess o; params := params o;
     parseRejected := parseRejected o; parseResponse := parseResponse o;
     reject := reject o; retry := retry o; schema := schema o;
     serializeBody := serializeBody o; serializeParams := serializeParams o;
     timeout := timeout o |}.

(** The first element handed to [mergeHeaders]. *)
Definition inferredContentType (originalBody serialized : Value) : HeadersInit :=
  if isNullish serialized || isFormData originalBody then HeadersList []
  else if isSerializable originalBody &&
          match serialized with VStr _ => true | _ => false end
       then HeadersList [("content-type", VStr "application/json")]
       else HeadersList [].

(** The variables of the retry loop that survive it. *)
Record LoopState : Type := {
  ls_request : Request;
  ls_response : option Response;
  ls_error : Thrown;
}.

Inductive RetryDecision : Type :=
| Break
| BreakWith (e : Thrown)
| Continue (attempt : Z).

Section Enhance.

Variable fetchFn : FetchFn St.
Variable getDefaultOptions :
  Input -> option (FetcherOptions St) -> Ext St (FetcherOptions St).

Section Call.

Variable input : Input.
Variable fetcherOpts : option (FetcherOptions St).
Variable defaultOpts : FetcherOptions St.
(** [options] once [body] and [headers] have been assigned *)
Variable options : FetcherOptions St.

(** The first [try] of an attempt: the request hooks, then the transport. *)
Definition sendAttempt (perTry : FetcherOptions St) (request : Request)
           (response : option Response)
  : M St (option Response * Thrown) :=
  try_catch
    (callHook OnRequest DefaultOpts
       (option_map (fun f => f request) (read (onRequest defaultOpts))) ;;
     callHook OnRequest FetcherOpts
       (option_map (fun f => f request) (read (opt fetcherOpts onRequest))) ;;
     emit (EvFetch request) ;;
     r <- call (fetchFn request
                  (set_headers (set_body perTry Absent)
                               (Present (HeadersRecord (rq_headers request))))) ;;
     ret (Some r, undefinedThrown))
    (fun e => ret (response, e)).

(** The second [try] of an attempt: whether and when to try again. *)
Definition decideRetry (perTry : FetcherOptions St) (attempt : Z)
           (request : Request) (response : option Response) (error : Thrown)
  : M St RetryDecision :=
  let r := retryOf (retry perTry) in
  try_catch
    (again <- callRead "options.retry.when"
                (option_map
                   (fun f => f {| wc_request := request; wc_response := response;
                                  wc_error := error |})
                   (read (when r))) ;;
     if negb again then ret Break
     else
       let attempt' := attempt + 1 in
       limit <- match read (attempts r) with
                | Some (AttemptsFn f) => n <- call (f request) ;; ret (Some n)
                | Some (AttemptsNumber n) => ret (Some n)
                | None => ret None
                end ;;
       if match limit with Some n => n <? attempt' | None => false end
       then ret Break
       else
         let retryCtx := {| rc_attempt := attempt'; rc_request := request;
                            rc_response := response; rc_error := error |} in
         ms <- match read (delay r) with
               | Some (DelayFn f) => n <- call (f retryCtx) ;; ret n
               | Some (DelayNumber n) => ret n
               | None => ret 0
               end ;;
         abortableDelay (Z.to_nat ms) (read (signal perTry)) ;;
         callHook OnRetry DefaultOpts
           (option_map (fun f => f retryCtx) (read (onRetry defaultOpts))) ;;
         callHook OnRetry FetcherOpts
           (option_map (fun f => f retryCtx) (read (opt fetcherOpts onRetry))) ;;
         ret (Continue attempt'))
    (fun e => ret (BreakWith e)).

(** The start of an attempt: the per-try signal is stored in [options],
    the URL is resolved and the request is built. *)
Definition openAttempt : M St (FetcherOptions St * Request) :=
  sig <- withTimeout (read (opt fetcherOpts signal)) (read (timeout options)) ;;
  let perTry := set_signal options (slotOf sig) in
  requestUrl <- match input with
                | InputRequest r => ret (inr r)
                | InputString s =>
                    u <- resolveUrl (read (baseUrl perTry)) s
                           (readValue (params defaultOpts))
                           (readValue (opt fetcherOpts params))
                           (read (serializeParams perTry)) ;;
                    ret (inl u)
                | InputURL href =>
                    u <- resolveUrl (read (baseUrl perTry)) href
                           (readValue (params defaultOpts))
                           (readValue (opt fetcherOpts params))
                           (read (serializeParams perTry)) ;;
                    ret (inl u)
                end ;;
  request <- liftC (newRequest requestUrl perTry) ;;
  ret (perTry, request).

(** [do { ... } while (true)] *)
Fixpoint retryLoop (fuel : nat) (attempt : Z) (response : option Response)
         (error : Thrown) : M St LoopState :=
  match fuel with
  | O => fun _ => None
  | S fuel' =>
      opened <- openAttempt ;;
      let perTry := fst opened in
      let request := snd opened in
      sent <- sendAttempt perTry request response ;;
      let response := fst sent in
      let error := snd sent in
      decision <- decideRetry perTry attempt request response error ;;
      match decision with
      | Continue attempt' => retryLoop fuel' attempt' response error
      | Break =>
          ret {| ls_request := request; ls_response := response; ls_error := error |}
      | BreakWith e =>
          ret {| ls_request := request; ls_response := response; ls_error := e |}
      end
  end.

(** What follows the loop. *)
Definition settle (st : LoopState) : M St Value :=
  let request := ls_request st in
  let response := ls_response st in
  try_catch
    (if truthyThrown (ls_error st) then throw (ls_error st)
     else
       rejected <- callRead "options.reject"
                     (option_map (fun f => f response) (read (reject options))) ;;
       if (rejected : bool) then
         e <- callRead "options.parseRejected"
                (option_map (fun f => f response request)
                            (read (parseRejected options))) ;;
         throw e
       else
         callHook OnResponse DefaultOpts
           (option_map (fun f => f response request) (read (onResponse defaultOpts))) ;;
         callHook OnResponse FetcherOpts
           (option_map (fun f => f response request)
                       (read (opt fetcherOpts onResponse))) ;;
         parsed <- callRead "options.parseResponse"
                     (option_map (fun f => f response request)
                                 (read (parseResponse options))) ;;
         data <- match read (opt fetcherOpts schema) with
                 | Some sch => validate sch parsed
                 | None => ret parsed
                 end ;;
         callHook OnSuccess DefaultOpts
           (option_map (fun f => f data request) (read (onSuccess defaultOpts))) ;;
         callHook OnSuccess FetcherOpts
           (option_map (fun f => f data request) (read (opt fetcherOpts onSuccess))) ;;
         ret data)
    (fun err =>
       callHook OnError DefaultOpts
         (option_map (fun f => f err request) (read (onError defaultOpts))) ;;
       callHook OnError FetcherOpts
         (option_map (fun f => f err request) (read (opt fetcherOpts onError))) ;;
       throw err).

End Call.

(** The options object after [options.body] and [options.headers] have
    been assigned. *)
Definition prepareOptions (defaultOpts : FetcherOptions St)
           (fetcherOpts : option (FetcherOptions St)) : M St (FetcherOptions St) :=
  let options := mergeOptions defaultOpts fetcherOpts in
  let originalBody := readValue (opt fetcherOpts body) in
  serialized <- (if isNullish originalBody then ret originalBody
                 else callRead "options.serializeBody"
                        (option_map (fun f => f originalBody)
                                    (read (serializeBody options)))) ;;
  let options := set_body options (Present serialized) in
  hs <- liftC (mergeHeaders
                 [Some (inferredContentType originalBody serialized);
                  read (headers defaultOpts);
                  read (opt fetcherOpts headers)]) ;;
  ret (set_headers options (Present (HeadersRecord hs))).

(** The function returned by [enhance(fetchFn, getDefaultOptions)]. *)
Definition enhance (fuel : nat) (input : Input)
           (fetcherOpts : option (FetcherOptions St)) : M St Value :=
  defaultOpts <- call (getDefaultOptions input fetcherOpts) ;;
  options <- prepareOptions defaultOpts fetcherOpts ;;
  st <- retryLoop input fetcherOpts defaultOpts options fuel 0 None undefinedThrown ;;
  settle fetcherOpts defaultOpts options st.

End Enhance.
End Pipeline.

(* ===================================================================== *)
(** ** create *)
(* ===================================================================== *)

Section Create.

Context {St : Type}.
Variable pf : Platform St.

Definition emptySchema : FetchSchema St :=
  {| fs_body := None; fs_response := None; fs_query := None;
     fs_params := None; fs_method := None |}.

(** [{ ...fetcherOptions }] when [fetcherOptions] is [undefined] *)
Definition emptyResfetchOptions : ResfetchOptions St :=
  {| ro_baseUrl := Absent; ro_body := Absent; ro_headers := Absent;
     ro_method := Absent; ro_onError := Absent; ro_onRequest := Absent;
     ro_onResponse := Absent; ro_onRetry := Absent; ro_onSuccess := Absent;
     ro_params := Absent; ro_query := Absent; ro_parseRejected := Absent;
     ro_parseResponse := Absent; ro_reject := Absent; ro_retry := Absent;
     ro_schema := Absent; ro_serializeBody := Absent;
     ro_serializeParams := Absent; ro_signal := Absent; ro_timeout := Absent |}.

(** The names every object literal inherits from [Object.prototype]. *)
Definition objectPrototypeKeys : list string :=
  ["constructor"; "hasOwnProperty"; "isPrototypeOf"; "propertyIsEnumerable";
   "toLocaleString"; "toString"; "valueOf"; "__proto__";
   "__defineGetter__"; "__defineSetter__"; "__lookupGetter__"; "__lookupSetter__"].

(** [schema?.schema?.[url]].  The route table is an object literal: a
    name that is not one of its own keys is looked up on
    [Object.prototype], and what is found there (a method, or the
    prototype itself under [__proto__]) is an object that has none of the
    keys [body], [query], [params], [response] and [method]. *)
Definition globalSchemaDef (schema : option (Schema St)) (url : string)
  : option (FetchSchema St) :=
  table ← (schema ≫= sc_schema);
  match table !! url with
  | Some def => Some def
  | None => if bool_decide (url ∈ objectPrototypeKeys) then Some emptySchema else None
  end.

(** [globalSchemaDef ?? fetcherOptions?.schema ?? {}] *)
Definition schemaDef (schema : option (Schema St)) (url : string)
           (fetcherOptions : option (ResfetchOptions St)) : FetchSchema St :=
  match globalSchemaDef schema url with
  | Some def => def
  | None =>
      match fetcherOptions ≫= (fun o => read (ro_schema o)) with
      | Some def => def
      | None => emptySchema
      end
  end.

(** [if (schema && currentOptions.key)
       currentOptions.key = await validate(schema, currentOptions.key)] *)
Definition validateKey (schema : option (StandardSchema St)) (key : Slot Value)
  : M St (Slot Value) :=
  match schema with
  | Some sch =>
      if truthy (readValue key)
      then v <- validate pf sch (readValue key) ;; ret (Present v)
      else ret key
  | None => ret key
  end.

(** The options handed to the enhanced fetch:
    [{ ...currentOptions, params: currentOptions.query,
       schema: schemaDef.response ? schemaDef.response : undefined,
       method: currentOptions.method || schemaDef.method }] *)
Definition toFetchOptions (def : FetchSchema St) (currentOptions : ResfetchOptions St)
           (body' query' : Slot Value) : FetcherOptions St :=
  {| baseUrl := ro_baseUrl currentOptions;
     body := body';
     headers := ro_headers currentOptions;
     method := match read (ro_method currentOptions) with
               | Some m => if String.eqb m "" then slotOf (fs_method def) else Present m
               | None => slotOf (fs_method def)
               end;
     onError := ro_onError currentOptions;
     onRequest := ro_onRequest currentOptions;
     onResponse := ro_onResponse currentOptions;
     onRetry := ro_onRetry currentOptions;
     onSuccess := ro_onSuccess currentOptions;
     params := Present (readValue query');
     parseRejected := ro_parseRejected currentOptions;
     parseResponse := ro_parseResponse currentOptions;
     reject := ro_reject currentOptions;
     retry := ro_retry currentOptions;
     schema := slotOf (fs_response def);
     serializeBody := ro_serializeBody currentOptions;
     serializeParams := ro_serializeParams currentOptions;
     signal := ro_signal currentOptions;
     timeout := ro_timeout currentOptions |}.

(** The error handed to [err] by the [catch] clause of the fetcher. *)
Definition toResfetchError (e : Thrown) : Thrown :=
  if isValidationError e then e
  else if isResponseError e then e
  else ResponseError
         {| p_originalError := e;
            p_message := Some (if instanceofError e then messageOf e else "");
            p_response := None; p_data := VUndefined; p_request := None |}.

Section Fetcher.

(** [createResfetch(options)] has split [options] into [schema], [fetch]
    and [defaultOpts]. *)
Variable schema : option (Schema St).
Variable customFetch : option (FetchFn St).
Variable defaultOpts : FetcherOptions St.

Definition enhancedFetch : nat -> Input -> option (FetcherOptions St) -> M St Value :=
  enhance pf (default (global_fetch pf) customFetch)
          (fun _ _ => pureExt (Normal defaultOpts)).

(** The body of the [try] block of the fetcher. *)
Definition fetcherTry (fuel : nat) (url : string)
           (fetcherOptions : option (ResfetchOptions St)) : M St ResfetchResult :=
  let def := schemaDef schema url fetcherOptions in
  let currentOptions := default emptyResfetchOptions fetcherOptions in
  body' <- validateKey (fs_body def) (ro_body currentOptions) ;;
  query' <- validateKey (fs_query def) (ro_query currentOptions) ;;
  params' <- validateKey (fs_params def) (ro_params currentOptions) ;;
  actualUrl <- liftC (replacePathParams pf url (readValue params')) ;;
  data <- enhancedFetch fuel (InputString actualUrl)
            (Some (toFetchOptions def currentOptions body' query')) ;;
  ret (ok data).

(** The function returned by [createResfetch]. *)
Definition fetcher (fuel : nat) (url : string)
           (fetcherOptions : option (ResfetchOptions St)) : M St ResfetchResult :=
  try_catch (fetcherTry fuel url fetcherOptions)
            (fun e => ret (err (toResfetchError e))).

End Fetcher.

(** [createResfetch(options)] *)
Definition createResfetch (options : option (CreateResfetchOption St))
  : nat -> string -> option (ResfetchOptions St) -> M St ResfetchResult :=
  match options with
  | Some o => fetcher (cro_schema o) (cro_fetch o) (cro_defaultOpts o)
  | None => fetcher None None (emptyOptions)
  end.

(** [export const resfetch = createResfetch()] *)
Definition resfetch : nat -> string -> option (ResfetchOptions St) -> M St ResfetchResult :=
  createResfetch None.

End Create.

(* ===================================================================== *)
(** ** The object graph of a call *)
(* ===================================================================== *)

(** The records above hold the contents of the options objects.  To follow
    which object each assignment of the sources writes to, the same code is
    read once more over a heap of JavaScript objects: [{...x}] allocates,
    [x.k = v] and [delete x[k]] update the object [x] refers to, nested
    objects are shared by reference.  Values other than references are
    opaque, and every computation on them is left to the host. *)
Module Frame.

Definition loc : Type := positive.

Inductive JsVal : Type :=
| JUndefined
| JNull
| JStr (s : string)
| JOpaque (tag : nat)
| JRef (l : loc).

Abbreviation Obj := (gmap string JsVal).
Abbreviation Heap := (gmap loc (gmap string JsVal)).

Inductive Outcome (A : Type) : Type :=
| Ret (a : A)
| Exc (v : JsVal).
Arguments Ret {A}.
Arguments Exc {A}.

(** [None]: the retry loop ran out of fuel. *)
Definition SM (A : Type) : Type := Heap -> option (Outcome A * Heap).

Definition sret {A : Type} (a : A) : SM A := fun h => Some (Ret a, h).

Definition sthrow {A : Type} (v : JsVal) : SM A := fun h => Some (Exc v, h).

Definition sbind {A B : Type} (m : SM A) (f : A -> SM B) : SM B :=
  fun h =>
    match m h with
    | Some (Ret a, h') => f a h'
    | Some (Exc v, h') => Some (Exc v, h')
    | None => None
    end.

Definition stry {A : Type} (m : SM A) (handler : JsVal -> SM A) : SM A :=
  fun h =>
    match m h with
    | Some (Exc v, h') => handler v h'
    | r => r
    end.

Declare Scope store_scope.
Delimit Scope store_scope with store.
Notation "x <- m ;; k" := (sbind m (fun x => k))
  (at level 100, m at next level, right associativity) : store_scope.
Notation "m ;; k" := (sbind m (fun _ => k))
  (at level 100, right associativity) : store_scope.
Local Open Scope store_scope.

Fixpoint forEach {A : Type} (l : list A) (f : A -> SM unit) : SM unit :=
  match l with
  | [] => sret tt
  | x :: l' => f x ;; forEach l' f
  end.

(** A new object with the given properties. *)
Definition alloc (o : gmap string JsVal) : SM loc :=
  fun h => let l := fresh (dom h) in Some (Ret l, <[l := o]> h).

(** The own properties [{...v}] copies. *)
Definition ownProps (v : JsVal) : SM (gmap string JsVal) :=
  fun h =>
    Some (Ret (match v with
               | JRef l => default ∅ (h !! l)
               | _ => ∅
               end), h).

(** [v.k] *)
Definition getField (v : JsVal) (k : string) : SM JsVal :=
  fun h =>
    match v with
    | JRef l => Some (Ret (default JUndefined (h !! l ≫= (.!! k))), h)
    | JUndefined | JNull => Some (Exc (JStr "TypeError"), h)
    | _ => Some (Ret JUndefined, h)
    end.

(** [v?.k] *)
Definition getFieldOpt (v : JsVal) (k : string) : SM JsVal :=
  match v with
  | JUndefined | JNull => sret JUndefined
  | _ => getField v k
  end.

(** [l.k = v] *)
Definition setField (l : loc) (k : string) (v : JsVal) : SM unit :=
  fun h => Some (Ret tt, alter (insert k v) l h).

(** [delete l[k]] *)
Definition deleteField (l : loc) (k : string) : SM unit :=
  fun h => Some (Ret tt, alter (delete k) l h).

(** [{ ...s1, ...s2, k1: v1, k2: v2 }] *)
Definition newObject (sources : list JsVal) (own : list (string * JsVal)) : SM loc :=
  copied <- (fix go (l : list JsVal) (acc : gmap string JsVal) : SM (gmap string JsVal) :=
               match l with
               | [] => sret acc
               | s :: l' => o <- ownProps s ;; go l' (o ∪ acc)
               end) sources ∅ ;;
  alloc (fold_left (fun o kv => <[fst kv := snd kv]> o) own copied).

Section Program.

(** Calls that leave the library: injected functions and constructors of
    the platform, named by the value called. *)
Variable ext : JsVal -> list JsVal -> Heap -> Outcome JsVal * Heap.
(** Values and tests the library computes without touching any object. *)
Variable pure : string -> list JsVal -> JsVal.
Variable test : string -> list JsVal -> bool.
(** What iterating [new Headers(init)] reports, and the search-parameter
    names of an input URL. *)
Variable entriesOf : JsVal -> Heap -> list (string * string).
Variable keysOf : JsVal -> list string.

(** The objects that exist before any call: the fallback options, the
    options captured by [createResfetch], the route table, the transport. *)
Variable fallbackOptions : loc.
Variable defaultOpts : loc.
Variable table : JsVal.
Variable fetchFn : JsVal.

Definition extern (f : JsVal) (args : list JsVal) : SM JsVal :=
  fun h => let '(r, h') := ext f args h in Some (r, h').

Definition truthy (v : JsVal) : bool := test "ToBoolean" [v].

Definition isNullish (v : JsVal) : bool :=
  match v with JUndefined | JNull => true | _ => false end.

(** [await f?.(...args)] *)
Definition callOpt (f : JsVal) (args : list JsVal) : SM unit :=
  if isNullish f then sret tt else extern f args ;; sret tt.

(** [mergeHeaders(headerInits)] *)
Definition mergeHeaders (headerInits : list JsVal) : SM loc :=
  res <- alloc ∅ ;;
  forEach headerInits (fun init =>
    entries <- (fun h => Some (Ret (entriesOf init h), h)) ;;
    forEach entries (fun kv =>
      if String.eqb (snd kv) "null" || String.eqb (snd kv) "undefined"
      then deleteField res (fst kv)
      else setField res (fst kv) (JStr (snd kv)))) ;;
  sret res.

(** [omit(obj, keys)] *)
Definition omit (obj : JsVal) (keys : list string) : SM loc :=
  copy <- newObject [obj] [] ;;
  forEach keys (deleteField copy) ;;
  sret copy.

(** [resolveUrl(options.baseUrl, input, defaultOpts.params,
     fetcherOpts?.params, options.serializeParams)] *)
Definition resolveUrl (options : loc) (fetcherOpts input : JsVal) : SM JsVal :=
  base <- getField (JRef options) "baseUrl" ;;
  defaultOptsParams <- getField (JRef defaultOpts) "params" ;;
  fetcherOptsParams <- getFieldOpt fetcherOpts "params" ;;
  serializeParams <- getField (JRef options) "serializeParams" ;;
  kept <- omit defaultOptsParams (keysOf input) ;;
  merged <- newObject [JRef kept; fetcherOptsParams] [] ;;
  qs <- extern serializeParams [JRef merged] ;;
  sret (pure "resolveUrl" [base; input; qs]).

(** [validate(schema, data)] *)
Definition validate (schema data : JsVal) : SM JsVal :=
  result <- extern schema [data] ;;
  issues <- getField result "issues" ;;
  if truthy issues
  then sthrow (pure "new ValidationError" [result; data])
  else getField result "value".

(** One attempt up to the transport call. *)
Definition sendAttempt (options : loc) (fetcherOpts request response : JsVal)
  : SM (JsVal * JsVal) :=
  stry
    (onRequest <- getField (JRef defaultOpts) "onRequest" ;;
     callOpt onRequest [request] ;;
     onRequest' <- getFieldOpt fetcherOpts "onRequest" ;;
     callOpt onRequest' [request] ;;
     withoutBody <- omit (JRef options) ["body"] ;;
     requestHeaders <- getField request "headers" ;;
     init <- newObject [JRef withoutBody] [("headers", requestHeaders)] ;;
     response' <- extern fetchFn [request; JRef init] ;;
     sret (response', JUndefined))
    (fun e => sret (response, e)).

(** The retry decision of one attempt: [inr attempt] to go on, [inl] to
    leave the loop, with the error thrown while deciding if any. *)
Definition decideRetry (options : loc) (fetcherOpts attempt request response error : JsVal)
  : SM (option JsVal + JsVal) :=
  stry
    (retry <- getField (JRef options) "retry" ;;
     when <- getField retry "when" ;;
     ctx <- newObject [] [("request", request); ("response", response); ("error", error)] ;;
     again <- extern when [JRef ctx] ;;
     if negb (truthy again) then sret (inl None)
     else
       let attempt' := pure "++attempt" [attempt] in
       attempts <- getField retry "attempts" ;;
       limit <- (if test "typeof function" [attempts]
                 then c <- newObject [] [("request", request)] ;; extern attempts [JRef c]
                 else sret attempts) ;;
       if test ">" [attempt'; limit] then sret (inl None)
       else
         retryCtx <- newObject []
                       [("attempt", attempt'); ("request", request);
                        ("response", response); ("error", error)] ;;
         delay <- getField retry "delay" ;;
         ms <- (if test "typeof function" [delay]
                then extern delay [JRef retryCtx]
                else sret delay) ;;
         signal <- getField (JRef options) "signal" ;;
         extern (JStr "abortableDelay") [ms; signal] ;;
         onRetry <- getField (JRef defaultOpts) "onRetry" ;;
         callOpt onRetry [JRef retryCtx] ;;
         onRetry' <- getFieldOpt fetcherOpts "onRetry" ;;
         callOpt onRetry' [JRef retryCtx] ;;
         sret (inr attempt'))
    (fun e => sret (inl (Some e))).

(** [do { ... } while (true)] *)
Fixpoint retryLoop (fuel : nat) (options : loc)
         (fetcherOpts input attempt response error : JsVal)
  : SM (JsVal * JsVal * JsVal) :=
  match fuel with
  | O => fun _ => None
  | S fuel' =>
      signal <- getFieldOpt fetcherOpts "signal" ;;
      timeout <- getField (JRef options) "timeout" ;;
      perTry <- extern (JStr "withTimeout") [signal; timeout] ;;
      setField options "signal" perTry ;;
      requestUrl <- (if test "instanceof Request" [input] then sret input
                     else resolveUrl options fetcherOpts input) ;;
      request <- extern (JStr "new Request") [requestUrl; JRef options] ;;
      sent <- sendAttempt options fetcherOpts request response ;;
      decision <- decideRetry options fetcherOpts attempt request (fst sent) (snd sent) ;;
      match decision with
      | inr attempt' =>
          retryLoop fuel' options fetcherOpts input attempt' (fst sent) (snd sent)
      | inl None => sret (request, fst sent, snd sent)
      | inl (Some e) => sret (request, fst sent, e)
      end
  end.

(** What follows the loop. *)
Definition settle (options : loc) (fetcherOpts request response error : JsVal)
  : SM JsVal :=
  stry
    (if truthy error then sthrow error
     else
       reject <- getField (JRef options) "reject" ;;
       rejected <- extern reject [response] ;;
       if truthy rejected then
         parseRejected <- getField (JRef options) "parseRejected" ;;
         e <- extern parseRejected [response; request] ;;
         sthrow e
       else
         onResponse <- getField (JRef defaultOpts) "onResponse" ;;
         callOpt onResponse [response; request] ;;
         onResponse' <- getFieldOpt fetcherOpts "onResponse" ;;
         callOpt onResponse' [response; request] ;;
         parseResponse <- getField (JRef options) "parseResponse" ;;
         parsed <- extern parseResponse [response; request] ;;
         schema <- getFieldOpt fetcherOpts "schema" ;;
         data <- (if truthy schema then validate schema parsed else sret parsed) ;;
         onSuccess <- getField (JRef defaultOpts) "onSuccess" ;;
         callOpt onSuccess [data; request] ;;
         onSuccess' <- getFieldOpt fetcherOpts "onSuccess" ;;
         callOpt onSuccess' [data; request] ;;
         sret data)
    (fun err =>
       onError <- getField (JRef defaultOpts) "onError" ;;
       callOpt onError [err; request] ;;
       onError' <- getFieldOpt fetcherOpts "onError" ;;
       callOpt onError' [err; request] ;;
       sthrow err).

(** The enhanced fetch of [createResfetch]: [getDefaultOptions] returns the
    captured [defaultOpts] object itself. *)
Definition enhance (fuel : nat) (input fetcherOpts : JsVal) : SM JsVal :=
  fallbackRetry <- getField (JRef fallbackOptions) "retry" ;;
  defaultRetry <- getField (JRef defaultOpts) "retry" ;;
  fetcherRetry <- getFieldOpt fetcherOpts "retry" ;;
  retry <- newObject [fallbackRetry; defaultRetry; fetcherRetry] [] ;;
  options <- newObject [JRef fallbackOptions; JRef defaultOpts; fetcherOpts]
               [("body", JUndefined); ("retry", JRef retry)] ;;
  originalBody <- getFieldOpt fetcherOpts "body" ;;
  serialized <- (if isNullish originalBody then sret originalBody
                 else serializeBody <- getField (JRef options) "serializeBody" ;;
                      extern serializeBody [originalBody]) ;;
  setField options "body" serialized ;;
  inferred <- newObject []
                (if test "inferred content-type" [serialized; originalBody]
                 then [("content-type", JStr "application/json")] else []) ;;
  defaultHeaders <- getField (JRef defaultOpts) "headers" ;;
  fetcherHeaders <- getFieldOpt fetcherOpts "headers" ;;
  res <- mergeHeaders [JRef inferred; defaultHeaders; fetcherHeaders] ;;
  setField options "headers" (JRef res) ;;
  st <- retryLoop fuel options fetcherOpts input (pure "0" []) JUndefined JUndefined ;;
  settle options fetcherOpts (fst (fst st)) (snd (fst st)) (snd st).

(** [if (schemaDef.key && currentOptions.key)
       currentOptions.key = await validate(schemaDef.key, currentOptions.key)] *)
Definition validateKey (schemaDef : JsVal) (currentOptions : loc) (key : string)
  : SM unit :=
  schema <- getField schemaDef key ;;
  value <- getField (JRef currentOptions) key ;;
  if truthy schema && truthy value
  then validated <- validate schema value ;; setField currentOptions key validated
  else sret tt.

(** The fetcher returned by [createResfetch]. *)
Definition fetcher (fuel : nat) (url fetcherOptions : JsVal) : SM JsVal :=
  routes <- getFieldOpt table "schema" ;;
  globalSchemaDef <- getFieldOpt routes (match url with JStr s => s | _ => "" end) ;;
  requestSchema <- getFieldOpt fetcherOptions "schema" ;;
  schemaDef <- (if negb (isNullish globalSchemaDef) then sret globalSchemaDef
                else if negb (isNullish requestSchema) then sret requestSchema
                else l <- newObject [] [] ;; sret (JRef l)) ;;
  stry
    (currentOptions <- newObject [fetcherOptions] [] ;;
     validateKey schemaDef currentOptions "body" ;;
     validateKey schemaDef currentOptions "query" ;;
     validateKey schemaDef currentOptions "params" ;;
     params <- getField (JRef currentOptions) "params" ;;
     paramProps <- ownProps params ;;
     let actualUrl := pure "replacePathParams" (url :: map snd (map_to_list paramProps)) in
     query <- getField (JRef currentOptions) "query" ;;
     response <- getField schemaDef "response" ;;
     method <- getField (JRef currentOptions) "method" ;;
     method' <- getField schemaDef "method" ;;
     fetchOptions <- newObject [JRef currentOptions]
                       [("params", query);
                        ("schema", if truthy response then response else JUndefined);
                        ("method", if truthy method then method else method')] ;;
     data <- enhance fuel actualUrl (JRef fetchOptions) ;;
     result <- newObject [] [("ok", pure "true" []); ("data", data)] ;;
     sret (JRef result))
    (fun e =>
       result <- newObject [] [("ok", pure "false" []); ("error", pure "toResfetchError" [e])] ;;
       sret (JRef result)).

End Program.

End Frame.

(* ===================================================================== *)
(** ** Concrete hosts and calls *)
(* ===================================================================== *)

(** A small host on which calls can be run: the state of the environment
    is the number of transport invocations made so far, and the transport
    plays a script, one entry per invocation, each taking one millisecond. *)
Module Demo.

Definition response (status : Z) (text : string) : Response :=
  {| rs_status := status; rs_statusText := ""; rs_text := inr text |}.

Definition scripted (script : list (Completion Response)) : FetchFn nat :=
  fun _ _ s _ => (nth s script (Normal (response 200 "null")), S s, 1%nat).

(** The URL of a request on this host: an absolute URL without a path
    gets the path [/], any other input is taken as already serialized. *)
Definition href (s : string) : string :=
  if (String.prefix "https://" s && negb (string_includes "/" (string_drop 8 s)))
     || (String.prefix "http://" s && negb (string_includes "/" (string_drop 7 s)))
  then s ++ "/" else s.

Definition platform (script : list (Completion Response)) : Platform nat :=
  {| AbortSignal_has_any := true;
     JSON_parse := fun s => if String.eqb s "null" then Some VNull else None;
     JSON_stringify := fun v =>
       Normal (match v with VArr [] => VStr "[]" | VObj [] => VStr "{}" | _ => VStr "null" end);
     URL_searchParams_keys := fun _ => Normal [];
     URLSearchParams_toString := fun l =>
       joinComma (map (fun kv => fst kv ++ "=" ++ snd kv) l);
     RegExp_replace := fun _ subject _ => Normal subject;
     Request_url := href;
     Request_check := fun _ => None;
     body_mime_type := fun v =>
       match v with VStr _ => Some "text/plain;charset=UTF-8" | _ => None end;
     global_fetch := scripted script |}.

Definition start : World nat := {| env := O; now := O; trace := [] |}.

Definition networkError : Thrown := TExn (ExnError "TypeError" "fetch failed").

(** Per-call options that only configure [retry] and [timeout]. *)
Definition retrying (n ms : Z) (timeout : Slot Z) : ResfetchOptions nat :=
  {| ro_retry := Present {| attempts := Present (AttemptsNumber n);
                            delay := Present (DelayNumber ms);
                            when := Absent |};
     ro_timeout := timeout;
     ro_baseUrl := Absent; ro_body := Absent; ro_headers := Absent;
     ro_method := Absent; ro_onError := Absent; ro_onRequest := Absent;
     ro_onResponse := Absent; ro_onRetry := Absent; ro_onSuccess := Absent;
     ro_params := Absent; ro_query := Absent; ro_parseRejected := Absent;
     ro_parseResponse := Absent; ro_reject := Absent; ro_schema := Absent;
     ro_serializeBody := Absent; ro_serializeParams := Absent;
     ro_signal := Absent |}.

(** Per-call options that only replace the response parser, by one that
    returns [undefined]. *)
Definition parsingUndefined : ResfetchOptions nat :=
  {| ro_parseResponse := Present (fun _ _ => pureExt (Normal VUndefined));
     ro_retry := Absent; ro_timeout := Absent;
     ro_baseUrl := Absent; ro_body := Absent; ro_headers := Absent;
     ro_method := Absent; ro_onError := Absent; ro_onRequest := Absent;
     ro_onResponse := Absent; ro_onRetry := Absent; ro_onSuccess := Absent;
     ro_params := Absent; ro_query := Absent; ro_parseRejected := Absent;
     ro_reject := Absent; ro_schema := Absent;
     ro_serializeBody := Absent; ro_serializeParams := Absent;
     ro_signal := Absent |}.

(** A schema that reports one issue and a transformed output. *)
Definition rejecting : StandardSchema nat :=
  fun _ => pureExt (Normal {| vr_issues := Some [VObj [("message", VStr "Required")]];
                              vr_value := VStr "transformed" |}).

(** A schema that accepts its input and tags it. *)
Definition tagging (tag : string) : StandardSchema nat :=
  fun v => pureExt (Normal {| vr_issues := None; vr_value := VArr [VStr tag; v] |}).

Definition onlyResponse (s : StandardSchema nat) : FetchSchema nat :=
  {| fs_response := Some s; fs_body := None; fs_query := None;
     fs_params := None; fs_method := None |}.

(** The route table of a client with the single route [/test]. *)
Definition routes : gmap string (FetchSchema nat) :=
  {[ "/test" := onlyResponse (tagging "global") ]}.

(** Per-call options that only carry a schema. *)
Definition withSchema (s : Slot (FetchSchema nat)) : ResfetchOptions nat :=
  {| ro_schema := s;
     ro_parseResponse := Absent; ro_retry := Absent; ro_timeout := Absent;
     ro_baseUrl := Present "https://a.com"; ro_body := Absent; ro_headers := Absent;
     ro_method := Absent; ro_onError := Absent; ro_onRequest := Absent;
     ro_onResponse := Absent; ro_onRetry := Absent; ro_onSuccess := Absent;
     ro_params := Absent; ro_query := Absent; ro_parseRejected := Absent;
     ro_reject := Absent; ro_serializeBody := Absent; ro_serializeParams := Absent;
     ro_signal := Absent |}.

(** Options of the enhanced fetch that only configure [retry], [timeout]
    and [signal]. *)
Definition fetcherOptions (retry : Slot (RetryOptions nat)) (timeout : Slot Z)
           (signal : Slot AbortSignal) : FetcherOptions nat :=
  {| retry := retry; timeout := timeout; signal := signal;
     baseUrl := Absent; body := Absent; headers := Absent; method := Absent;
     onError := Absent; onRequest := Absent; onResponse := Absent;
     onRetry := Absent; onSuccess := Absent; params := Absent;
     parseRejected := Absent; parseResponse := Absent; reject := Absent;
     schema := Absent; serializeBody := Absent; serializeParams := Absent |}.

Definition timeoutError : Thrown :=
  TExn (ExnError "TimeoutError" "The operation was aborted due to timeout").

(** Per-call options that only carry a body, sent with [POST]. *)
Definition posting (body : Value) : ResfetchOptions nat :=
  {| ro_body := Present body; ro_method := Present "POST";
     ro_schema := Absent;
     ro_parseResponse := Absent; ro_retry := Absent; ro_timeout := Absent;
     ro_baseUrl := Absent; ro_headers := Absent;
     ro_onError := Absent; ro_onRequest := Absent;
     ro_onResponse := Absent; ro_onRetry := Absent; ro_onSuccess := Absent;
     ro_params := Absent; ro_query := Absent; ro_parseRejected := Absent;
     ro_reject := Absent; ro_serializeBody := Absent; ro_serializeParams := Absent;
     ro_signal := Absent |}.

(** A heap for the object-graph reading of a call: the caller's options
    (1) with nested [retry] (2) and [headers] (3) objects, the options
    captured by the client (4) with their [retry] (5), and the fallback
    options (6) with theirs (7). *)
Definition heap : gmap Frame.loc (gmap string Frame.JsVal) :=
  {[ 1%positive := {[ "retry" := Frame.JRef 2%positive; "headers" := Frame.JRef 3%positive;
                      "body" := Frame.JOpaque 10%nat; "timeout" := Frame.JOpaque 11%nat ]};
     2%positive := {[ "attempts" := Frame.JOpaque 12%nat ]};
     3%positive := {[ "x-trace" := Frame.JStr "on" ]};
     4%positive := {[ "retry" := Frame.JRef 5%positive; "baseUrl" := Frame.JStr "https://a.com" ]};
     5%positive := {[ "delay" := Frame.JOpaque 13%nat ]};
     6%positive := {[ "retry" := Frame.JRef 7%positive; "reject" := Frame.JOpaque 14%nat ]};
     7%positive := {[ "attempts" := Frame.JOpaque 15%nat; "when" := Frame.JOpaque 16%nat ]} ]}.

(** Injected functions that return an opaque value and touch nothing. *)
Definition inert (f : Frame.JsVal) (args : list Frame.JsVal)
           (h : gmap Frame.loc (gmap string Frame.JsVal))
  : Frame.Outcome Frame.JsVal * gmap Frame.loc (gmap string Frame.JsVal) :=
  (Frame.Ret (Frame.JOpaque 0%nat), h).

(** The object-graph reading of one call on that heap. *)
Definition graphCall : option (Frame.Outcome Frame.JsVal *
                               gmap Frame.loc (gmap string Frame.JsVal)) :=
  Frame.fetcher inert (fun _ _ => Frame.JOpaque 1%nat) (fun _ _ => false)
                (fun _ _ => [("x-a", "1"); ("x-b", "null")]) (fun _ => ["q"])
                6%positive 4%positive Frame.JUndefined (Frame.JOpaque 2%nat)
                2%nat (Frame.JStr "/u/:id") (Frame.JRef 1%positive) heap.

(** How that call completes, and the heap in which it ends. *)
Definition graphOutcome : Frame.Outcome Frame.JsVal :=
  Eval vm_compute in
    match graphCall with
    | Some (r, _) => r
    | None => Frame.Exc Frame.JUndefined
    end.

Definition finalHeap : gmap Frame.loc (gmap string Frame.JsVal) :=
  Eval vm_compute in
    match graphCall with
    | Some (_, h') => h'
    | None => ∅
    end.


(** A transport that throws, then answers 500, then answers 200. *)
Definition flaky : list (Completion Response) :=
  [Throw networkError; Normal (response 500 "null"); Normal (response 200 "null")].

(** How many more invocations of [scripted flaky] fail. *)
Definition remaining (s : nat) : nat := (2 - s)%nat.

(** [ctx => !!ctx.error || ctx.response?.ok === false] *)
Definition retryOnFailure : WhenContext -> Ext nat bool :=
  fun ctx =>
    pureExt (Normal (truthyThrown (wc_error ctx) ||
                     match wc_response ctx with
                     | Some r => negb (rs_ok r)
                     | None => false
                     end)).

(** Options that only register an [onRetry] hook and, for the per-call
    ones, configure [retry]. *)
Definition hooked (retry : Slot (RetryOptions nat)) : FetcherOptions nat :=
  {| retry := retry;
     onRetry := Present (fun _ => pureExt (Normal tt));
     timeout := Absent; signal := Absent;
     baseUrl := Absent; body := Absent; headers := Absent; method := Absent;
     onError := Absent; onRequest := Absent; onResponse := Absent;
     onSuccess := Absent; params := Absent;
     parseRejected := Absent; parseResponse := Absent; reject := Absent;
     schema := Absent; serializeBody := Absent; serializeParams := Absent |}.


(** A transport that is down: every invocation throws. *)
Definition down : FetchFn nat :=
  fun _ _ s _ => (Throw networkError, S s, 1%nat).

(** Options that only configure [retry.attempts]. *)
Definition attempting (n : Z) : FetcherOptions nat :=
  fetcherOptions (Present {| attempts := Present (AttemptsNumber n);
                             delay := Absent; when := Absent |})
                 Absent Absent.

(** Options that register every hook, each doing nothing. *)
Definition observing : FetcherOptions nat :=
  {| onRequest := Present (fun _ => pureExt (Normal tt));
     onRetry := Present (fun _ => pureExt (Normal tt));
     onResponse := Present (fun _ _ => pureExt (Normal tt));
     onSuccess := Present (fun _ _ => pureExt (Normal tt));
     onError := Present (fun _ _ => pureExt (Normal tt));
     retry := Absent; timeout := Absent; signal := Absent;
     baseUrl := Absent; body := Absent; headers := Absent; method := Absent;
     params := Absent;
     parseRejected := Absent; parseResponse := Absent; reject := Absent;
     schema := Absent; serializeBody := Absent; serializeParams := Absent |}.


(** The host of [platform], for input URLs whose query names [keys]. *)
Definition platformWithQuery (keys : list string) : Platform nat :=
  {| URL_searchParams_keys := fun _ => Normal keys;
     AbortSignal_has_any := AbortSignal_has_any (platform []);
     JSON_parse := JSON_parse (platform []);
     JSON_stringify := JSON_stringify (platform []);
     URLSearchParams_toString := URLSearchParams_toString (platform []);
     RegExp_replace := RegExp_replace (platform []);
     Request_url := Request_url (platform []);
     Request_check := Request_check (platform []);
     body_mime_type := body_mime_type (platform []);
     global_fetch := global_fetch (platform []) |}.

(** A transport that always answers 503. *)
Definition unavailable : FetchFn nat :=
  fun _ _ s _ => (Normal (response 503 "null"), S s, 1%nat).

End Demo.

(* ===================================================================== *)
(** ** Predicates used in the statements *)
(* ===================================================================== *)

(** [result.data] / [result.error] is defined: reading it does not give
    [undefined]. *)
Definition dataDefined (r : ResfetchResult) : Prop := get_data r <> VUndefined.
Definition errorDefined (r : ResfetchResult) : Prop := get_error r <> undefinedThrown.

Definition exactlyOneDefined (r : ResfetchResult) : Prop :=
  (dataDefined r /\ ~ errorDefined r) \/ (~ dataDefined r /\ errorDefined r).

(** The object has the key. *)
Definition hasData (r : ResfetchResult) : bool := bool_decide (is_Some (r_data r)).
Definition hasError (r : ResfetchResult) : bool := bool_decide (is_Some (r_error r)).

(** Exactly one of the keys [data] and [error] is present, and [ok] tells
    which. *)
Definition wellShaped (r : ResfetchResult) : bool :=
  if r_ok r then hasData r && negb (hasError r)
  else hasError r && negb (hasData r).

(** [{ ...o, schema: s }] on per-call options *)
Definition set_ro_schema {St : Type} (o : ResfetchOptions St)
           (s : Slot (FetchSchema St)) : ResfetchOptions St :=
  {| ro_schema := s;
     ro_baseUrl := ro_baseUrl o; ro_body := ro_body o; ro_headers := ro_headers o;
     ro_method := ro_method o; ro_onError := ro_onError o;
     ro_onRequest := ro_onRequest o; ro_onResponse := ro_onResponse o;
     ro_onRetry := ro_onRetry o; ro_onSuccess := ro_onSuccess o;
     ro_params := ro_params o; ro_query := ro_query o;
     ro_parseRejected := ro_parseRejected o; ro_parseResponse := ro_parseResponse o;
     ro_reject := ro_reject o; ro_retry := ro_retry o;
     ro_serializeBody := ro_serializeBody o;
     ro_serializeParams := ro_serializeParams o;
     ro_signal := ro_signal o; ro_timeout := ro_timeout o |}.


(** The instant at which the combination of the caller's signal and of a
    timeout expiring at [deadline] fires. *)
Definition firstToFire (caller : option AbortSignal) (deadline : nat) : nat :=
  match caller with
  | Some c =>
      match sig_fires c with
      | Some tc => Nat.min tc deadline
      | None => deadline
      end
  | None => deadline
  end.

(** The retry options of a call whose [when], [attempts] and [delay] are
    the given function and numbers. *)
Definition staticRetry {St : Type} (whenFn : WhenContext -> Ext St bool)
           (n ms : Z) : RetryOptions St :=
  {| when := Present whenFn;
     attempts := Present (AttemptsNumber n);
     delay := Present (DelayNumber ms) |}.

(** Header maps as the [Headers] class produces them: names are valid and
    in lower case, values are valid. *)
Definition wfHeaders (h : gmap string string) : Prop :=
  forall k v, h !! k = Some v ->
    validHeaderName k = true /\ string_map asciiLower k = k /\ validHeaderValue v = true.

(** A header value that [mergeHeaders] reads as a deletion. *)
Definition deletes (v : string) : bool :=
  String.eqb v "null" || String.eqb v "undefined".

(** [typeof v === 'string'] *)
Definition isString (v : Value) : bool :=
  match v with VStr _ => true | _ => false end.

(** The condition under which [enhance] puts the JSON content type first
    in the list handed to [mergeHeaders]. *)
Definition infersJson (originalBody serialized : Value) : bool :=
  negb (isNullish serialized) && negb (isFormData originalBody) &&
  isSerializable originalBody && isString serialized.

(** *** Frames over the object graph *)

Section FramePredicates.

(** The objects to follow, and the heap at the time of the call. *)
Variable P : gset Frame.loc.
Variable h0 : gmap Frame.loc (gmap string Frame.JsVal).

(** Every followed object is as it was. *)
Definition unchanged (h : gmap Frame.loc (gmap string Frame.JsVal)) : Prop :=
  forall l, l ∈ P -> h !! l = h0 !! l.

(** However [m] completes, the followed objects are as they were, and a
    normal result satisfies [Q]. *)
Definition keeps {A : Type} (m : Frame.SM A) (Q : A -> Prop) : Prop :=
  forall h, unchanged h ->
    match m h with
    | Some (Frame.Ret a, h') => unchanged h' /\ Q a
    | Some (Frame.Exc _, h') => unchanged h'
    | None => True
    end.

End FramePredicates.

(** *** Calls in a cooperative environment *)

(** An injected function that returns normally and leaves the environment
    as it is. *)
Definition benign {St A : Type} (f : Ext St A) : Prop :=
  forall s t, exists a d, f s t = (Normal a, s, d).

(** A transport invocation fails: it throws, or it answers with a response
    that is not ok. *)
Definition failing (o : Completion Response) : Prop :=
  match o with
  | Throw _ => True
  | Normal r => rs_ok r = false
  end.

(** The variables [response] and [error] of the loop after an attempt in
    which the transport completed as [o]. *)
Definition afterAttempt (response : option Response) (o : Completion Response)
  : option Response * Thrown :=
  match o with
  | Normal r => (Some r, undefinedThrown)
  | Throw e => (response, e)
  end.

(** [m] returns normally from every world, leaving the environment as it
    is; its result and the events it adds to the trace satisfy [Q]. *)
Definition runs {St A : Type} (m : M St A) (Q : A -> list Event -> Prop) : Prop :=
  forall w, exists a tr t',
    m w = Some (Normal a, {| env := env w; now := t'; trace := trace w ++ tr |}) /\
    Q a tr.

(** The same from the worlds whose environment is [s]. *)
Definition runsIn {St A : Type} (s : St) (m : M St A) (Q : A -> list Event -> Prop)
  : Prop :=
  forall w, env w = s ->
    exists a tr t',
      m w = Some (Normal a, {| env := s; now := t'; trace := trace w ++ tr |}) /\
      Q a tr.

(** What matters to the retry count in a trace: the invocations of the
    transport and the firings of the [onRetry] hook of either origin, in
    the order in which they happened. *)
Inductive Mark : Type :=
| MFetch
| MRetry (o : Origin).

Definition markOf (ev : Event) : list Mark :=
  match ev with
  | EvFetch _ => [MFetch]
  | EvHook OnRetry o => [MRetry o]
  | _ => []
  end.

Definition marks (tr : list Event) : list Mark := flat_map markOf tr.

(** The mark left by a hook, when it is registered. *)
Definition hookMark {A : Type} (hook : option A) (o : Origin) : list Mark :=
  match hook with Some _ => [MRetry o] | None => [] end.

(** The marks of a call that makes [n] retries: the first invocation of
    the transport, then [n] times the registered [onRetry] hooks followed
    by the next invocation. *)
Definition retried {A B : Type} (dflt : option A) (own : option B) (n : nat) : list Mark :=
  MFetch :: concat (repeat (hookMark dflt DefaultOpts ++ hookMark own FetcherOpts ++ [MFetch])%list n).

Definition fired {A : Type} (hook : option A) (n : nat) : nat :=
  match hook with Some _ => n | None => O end.

(** [r] is a response with which the transport answers some invocation. *)
Definition answered {St : Type} (fetchFn : FetchFn St) (r : Response) : Prop :=
  exists request init s t s' d, fetchFn request init s t = (Normal r, s', d).

(** A signal that never fires. *)
Definition quiet (sig : option AbortSignal) : Prop :=
  match sig with
  | Some s => sig_fires s = None
  | None => True
  end.

Section Cooperation.

Context {St : Type}.
Variable pf : Platform St.
Variable fetchFn : FetchFn St.
Variable getDefaultOptions :
  Input -> option (FetcherOptions St) -> Ext St (FetcherOptions St).
Variable url : string.
Variable fetcherOpts : option (FetcherOptions St).
Variable defaultOpts : FetcherOptions St.
(** the retry predicate, the number of retries *)
Variable whenFn : WhenContext -> Ext St bool.
Variable N : nat.
(** how many more invocations the transport will fail *)
Variable left : St -> nat.

(** A call configured with [retry.attempts = N], as a number or as a
    function that returns it, whose environment plays along: the transport
    fails while [left] is positive and then answers with an ok response;
    the retry predicate holds after an attempt the transport failed and
    does not throw after one it answered; the caller's signal, if there is
    one, never fires; no timeout is at work (none is set, or it is [0], or
    the host has no [AbortSignal.any]); the hooks and the other injected
    functions, a delay function among them, return normally without
    touching the environment; the host accepts the request; an ok response
    of the transport is not rejected and goes through parsing and
    validation. *)
Record Cooperative : Prop := {
  coop_defaults :
    forall s t, exists d,
      getDefaultOptions (InputString url) fetcherOpts s t = (Normal defaultOpts, s, d);
  coop_when :
    read (when (retryOf (retry (mergeOptions pf defaultOpts fetcherOpts)))) = Some whenFn;
  coop_attempts :
    match read (attempts (retryOf (retry (mergeOptions pf defaultOpts fetcherOpts)))) with
    | Some (AttemptsNumber n) => n = Z.of_nat N
    | Some (AttemptsFn f) =>
        forall request s t, exists d, f request s t = (Normal (Z.of_nat N), s, d)
    | None => False
    end;
  coop_delay :
    match read (delay (retryOf (retry (mergeOptions pf defaultOpts fetcherOpts)))) with
    | Some (DelayFn f) => forall ctx, benign (f ctx)
    | _ => True
    end;
  coop_no_timeout :
    AbortSignal_has_any pf = false \/
    read (timeout (mergeOptions pf defaultOpts fetcherOpts)) = None \/
    read (timeout (mergeOptions pf defaultOpts fetcherOpts)) = Some 0;
  coop_signal : quiet (read (opt fetcherOpts signal));
  coop_body :
    isNullish (readValue (opt fetcherOpts body)) = true \/
    exists f, read (serializeBody (mergeOptions pf defaultOpts fetcherOpts)) = Some f /\
              forall v, benign (f v);
  coop_headers :
    exists base own,
      Headers_ (read (headers defaultOpts)) = Normal base /\
      Headers_ (read (opt fetcherOpts headers)) = Normal own;
  coop_url : forall s, exists keys, URL_searchParams_keys pf s = Normal keys;
  coop_serializeParams :
    exists f, read (serializeParams (mergeOptions pf defaultOpts fetcherOpts)) = Some f /\
              forall v, benign (f v);
  coop_request : forall r, Request_check pf r = None;
  coop_onRequest :
    (forall f, read (onRequest defaultOpts) = Some f -> forall r, benign (f r)) /\
    (forall f, read (opt fetcherOpts onRequest) = Some f -> forall r, benign (f r));
  coop_onRetry :
    (forall f, read (onRetry defaultOpts) = Some f -> forall c, benign (f c)) /\
    (forall f, read (opt fetcherOpts onRetry) = Some f -> forall c, benign (f c));
  coop_onResponse :
    (forall f, read (onResponse defaultOpts) = Some f -> forall r q, benign (f r q)) /\
    (forall f, read (opt fetcherOpts onResponse) = Some f -> forall r q, benign (f r q));
  coop_onSuccess :
    (forall f, read (onSuccess defaultOpts) = Some f -> forall v q, benign (f v q)) /\
    (forall f, read (opt fetcherOpts onSuccess) = Some f -> forall v q, benign (f v q));
  coop_when_failed :
    forall request init response s t o s' d,
      fetchFn request init s t = (o, s', d) ->
      failing o ->
      forall t', exists d',
        whenFn {| wc_request := request;
                  wc_response := fst (afterAttempt response o);
                  wc_error := snd (afterAttempt response o) |} s' t'
        = (Normal true, s', d');
  coop_when_succeeded :
    forall request init response s t r s' d,
      fetchFn request init s t = (Normal r, s', d) ->
      rs_ok r = true ->
      forall t', exists b d',
        whenFn {| wc_request := request;
                  wc_response := fst (afterAttempt response (Normal r));
                  wc_error := snd (afterAttempt response (Normal r)) |} s' t'
        = (Normal b, s', d');
  coop_reject :
    exists f, read (reject (mergeOptions pf defaultOpts fetcherOpts)) = Some f /\
              forall r s t, rs_ok r = true ->
                            exists d, f (Some r) s t = (Normal false, s, d);
  coop_parse :
    exists f, read (parseResponse (mergeOptions pf defaultOpts fetcherOpts)) = Some f /\
              forall r q, answered fetchFn r -> rs_ok r = true -> benign (f (Some r) q);
  coop_schema :
    forall sch, read (opt fetcherOpts schema) = Some sch ->
                forall v s t, exists out d,
                    sch v s t = (Normal {| vr_issues := None; vr_value := out |}, s, d);
  coop_transport_fails :
    forall request init s t,
      left s <> O ->
      exists o s' d,
        fetchFn request init s t = (o, s', d) /\ failing o /\ S (left s') = left s;
  coop_transport_succeeds :
    forall request init s t,
      left s = O ->
      exists r s' d,
        fetchFn request init s t = (Normal r, s', d) /\ rs_ok r = true
}.

End Cooperation.

(** The value of [options] once [enhance] has assigned [body] and
    [headers]. *)
Definition prepared {St : Type} (pf : Platform St) (defaultOpts : FetcherOptions St)
           (fetcherOpts : option (FetcherOptions St)) (serialized : Value)
           (res : gmap string string) : FetcherOptions St :=
  set_headers (set_body (mergeOptions pf defaultOpts fetcherOpts) (Present serialized))
              (Present (HeadersRecord res)).

Definition sameMark (a b : Mark) : bool :=
  match a, b with
  | MFetch, MFetch
  | MRetry DefaultOpts, MRetry DefaultOpts
  | MRetry FetcherOpts, MRetry FetcherOpts => true
  | _, _ => false
  end.

Fixpoint occurrences (m : Mark) (l : list Mark) : nat :=
  match l with
  | [] => O
  | x :: l' => ((if sameMark m x then 1 else 0) + occurrences m l')%nat
  end.

(** *** Calls in any environment *)

(** [m] settles from every world, normally or by a throw; how it completes
    and the events it adds to the trace satisfy [Q]. *)
Definition settles {St A : Type} (m : M St A)
           (Q : Completion A -> list Event -> Prop) : Prop :=
  forall w, exists c w' tr,
    m w = Some (c, w') /\ trace w' = (trace w ++ tr)%list /\ Q c tr.

(** Whenever [m] settles, how it completes and the events it has added to
    the trace satisfy [Q]. *)
Definition extends {St A : Type} (m : M St A)
           (Q : Completion A -> list Event -> Prop) : Prop :=
  forall w c w', m w = Some (c, w') ->
    exists tr, trace w' = (trace w ++ tr)%list /\ Q c tr.

(** An event that may or may not have happened. *)
Definition whenb (b : bool) (ev : Event) : list Event :=
  if b then [ev] else [].

Definition isNormal {A : Type} (c : Completion A) : bool :=
  match c with Normal _ => true | Throw _ => false end.

(** The events of the retry loop: request hooks, invocations of the
    transport, delays and retry hooks. *)
Definition isLoopEvent (ev : Event) : bool :=
  match ev with
  | EvFetch _ | EvSleep _ _ | EvHook OnRequest _ | EvHook OnRetry _ => true
  | EvHook _ _ => false
  end.

(** Whether a hook is set. *)
Definition registered {A : Type} (hook : Slot A) : bool :=
  match hook with Present _ => true | _ => false end.

(** The options [d] with other values under the keys [method], [body] and
    [signal]. *)
Definition withRequestKeys {St : Type} (d : FetcherOptions St) (m : Slot string)
           (b : Slot Value) (s : Slot AbortSignal) : FetcherOptions St :=
  {| method := m; body := b; signal := s;
     baseUrl := baseUrl d; headers := headers d;
     onError := onError d; onRequest := onRequest d; onResponse := onResponse d;
     onRetry := onRetry d; onSuccess := onSuccess d; params := params d;
     parseRejected := parseRejected d; parseResponse := parseResponse d;
     reject := reject d; retry := retry d; schema := schema d;
     serializeBody := serializeBody d; serializeParams := serializeParams d;
     timeout := timeout d |}.

(** The signal of an attempt when neither a signal nor a timeout is set:
    the combination of no signal where the host has [AbortSignal.any],
    none otherwise. *)
Definition bareSignal {St : Type} (pf : Platform St) : option AbortSignal :=
  if AbortSignal_has_any pf then Some neverSignal else None.

(** The request built for a call that sets nothing: a [GET] to the URL
    as the host serializes it. *)
Definition plainRequest {St : Type} (pf : Platform St) (url : string) : Request :=
  {| rq_url := Request_url pf url; rq_method := "GET"; rq_headers := ∅;
     rq_body := VUndefined; rq_signal := bareSignal pf |}.

(** What the default parser makes of a body text. *)
Definition parsedText {St : Type} (pf : Platform St) (text : string) : Value :=
  match JSON_parse pf text with
  | Some v => v
  | None => if String.eqb text "" then VNull else VStr text
  end.

(** The instant at which a signal that may be missing fires, if ever. *)
Definition firesAt (sig : option AbortSignal) : option nat :=
  match sig with
  | Some s => sig_fires s
  | None => None
  end.

(** The per-call options [o] with another value under [body]. *)
Definition set_ro_body {St : Type} (o : ResfetchOptions St) (v : Slot Value)
  : ResfetchOptions St :=
  {| ro_body := v;
     ro_baseUrl := ro_baseUrl o; ro_headers := ro_headers o;
     ro_method := ro_method o; ro_onError := ro_onError o;
     ro_onRequest := ro_onRequest o; ro_onResponse := ro_onResponse o;
     ro_onRetry := ro_onRetry o; ro_onSuccess := ro_onSuccess o;
     ro_params := ro_params o; ro_query := ro_query o;
     ro_parseRejected := ro_parseRejected o;
     ro_parseResponse := ro_parseResponse o;
     ro_reject := ro_reject o; ro_retry := ro_retry o; ro_schema := ro_schema o;
     ro_serializeBody := ro_serializeBody o;
     ro_serializeParams := ro_serializeParams o;
     ro_signal := ro_signal o; ro_timeout := ro_timeout o |}.

(** The schema set [def] with another body schema. *)
Definition set_fs_body {St : Type} (def : FetchSchema St)
           (s : option (StandardSchema St)) : FetchSchema St :=
  {| fs_body := s; fs_response := fs_response def; fs_query := fs_query def;
     fs_params := fs_params def; fs_method := fs_method def |}.

(** The per-call options [o] with another value under [retry]. *)
Definition set_ro_retry {St : Type} (o : ResfetchOptions St)
           (v : Slot (RetryOptions St)) : ResfetchOptions St :=
  {| ro_retry := v;
     ro_baseUrl := ro_baseUrl o; ro_body := ro_body o; ro_headers := ro_headers o;
     ro_method := ro_method o; ro_onError := ro_onError o;
     ro_onRequest := ro_onRequest o; ro_onResponse := ro_onResponse o;
     ro_onRetry := ro_onRetry o; ro_onSuccess := ro_onSuccess o;
     ro_params := ro_params o; ro_query := ro_query o;
     ro_parseRejected := ro_parseRejected o;
     ro_parseResponse := ro_parseResponse o;
     ro_reject := ro_reject o; ro_schema := ro_schema o;
     ro_serializeBody := ro_serializeBody o;
     ro_serializeParams := ro_serializeParams o;
     ro_signal := ro_signal o; ro_timeout := ro_timeout o |}.

(** [{ attempts: undefined }] *)
Definition attemptsUndefined {St : Type} : RetryOptions St :=
  {| attempts := Undefined; delay := Absent; when := Absent |}.

(* ===================================================================== *)
(** * Properties *)
(* ===================================================================== *)

(** ** utils: replacePathParams *)

(** The examples of the documentation. *)
Example replacePathParams_user St (pf : Platform St) :
  replacePathParams pf "/user/:id" (VObj [("id", VStr "7")]) = Normal "/user/7".
Proof. reflexivity. Qed.

Example replacePathParams_unmatched St (pf : Platform St) :
  replacePathParams pf "/u/:id" (VObj []) = Normal "/u/:id".
Proof. reflexivity. Qed.

Example replacePathParams_nullish St (pf : Platform St) :
  replacePathParams pf "/a/:x/:y/:z"
    (VObj [("x", VNull); ("y", VUndefined); ("z", VNum 3)]) = Normal "/a/:x/:y/3".
Proof. reflexivity. Qed.

Example replacePathParams_all_occurrences St (pf : Platform St) :
  replacePathParams pf "/:id/x/:id/:idx" (VObj [("id", VBool true)])
  = Normal "/true/x/true/:idx".
Proof. reflexivity. Qed.

Example replacePathParams_not_plain St (pf : Platform St) :
  replacePathParams pf "/u/:id" (VArr [VStr "7"]) = Normal "/u/:id".
Proof. reflexivity. Qed.

(** A value already substituted is scanned again for the later keys. *)
Example replacePathParams_rescans St (pf : Platform St) :
  replacePathParams pf "/:a" (VObj [("a", VStr ":b"); ("b", VStr "x")]) = Normal "/x".
Proof. reflexivity. Qed.

(** C7: path-parameter substitution replaces a [:name] token by
    [String(value)].  The code hands [String(value)] to [replace] as a
    replacement pattern, so a value containing [$$] (or [$&], [$`], [$'])
    is not inserted as it is: with the parameter [id = "a$$b"] the path
    [/u/:id] becomes [/u/a$b], where [String(value)] is [a$$b]. *)
Theorem C7_replacement_pattern_expanded :
  forall St (pf : Platform St),
    String_ (VStr "a$$b") = "a$$b" /\
    replacePathParams pf "/u/:id" (VObj [("id", VStr "a$$b")]) = Normal "/u/a$b" /\
    replacePathParams pf "/u/:id" (VObj [("id", VStr "$&")]) = Normal "/u/:id".
Proof. intros St pf. repeat split; reflexivity. Qed.

(** Parameters that are all [null] or [undefined] leave the path as it is,
    and nothing is thrown. *)
Lemma replacePathParams_nullish_noop St (pf : Platform St) path entries :
  forallb (fun kv => isNullish (snd kv)) entries = true ->
  replacePathParams pf path (VObj entries) = Normal path.
Proof.
  intros H. unfold replacePathParams.
  destruct (negb (isPlainObject (VObj entries))); [reflexivity|].
  cbn [spreadProps]. revert path H.
  induction entries as [|[k v] entries IH]; intros p H; simpl in *.
  - reflexivity.
  - apply andb_prop in H as [Hv Hrest]. rewrite Hv. now apply IH.
Qed.

(** ** The monad *)

Section MonadFacts.

Context {St : Type}.

Lemma bind_Normal_inv {A B : Type} (m : M St A) (f : A -> M St B) w b w' :
  bind m f w = Some (Normal b, w') ->
  exists a w1, m w = Some (Normal a, w1) /\ f a w1 = Some (Normal b, w').
Proof.
  unfold bind. destruct (m w) as [[[a|e] w1]|]; intros H; try discriminate.
  exists a, w1. split; [reflexivity | exact H].
Qed.

Lemma bind_Throw_inv {A B : Type} (m : M St A) (f : A -> M St B) w e w' :
  bind m f w = Some (Throw e, w') ->
  m w = Some (Throw e, w') \/
  exists a w1, m w = Some (Normal a, w1) /\ f a w1 = Some (Throw e, w').
Proof.
  unfold bind. destruct (m w) as [[[a|e0] w1]|]; intros H; try discriminate.
  - right. exists a, w1. split; [reflexivity | exact H].
  - left. injection H as -> ->. reflexivity.
Qed.

Lemma bind_Normal {A B : Type} (m : M St A) (f : A -> M St B) w a w1 :
  m w = Some (Normal a, w1) -> bind m f w = f a w1.
Proof. unfold bind. intros ->. reflexivity. Qed.

Lemma bind_Throw {A B : Type} (m : M St A) (f : A -> M St B) w e w1 :
  m w = Some (Throw e, w1) -> bind m f w = Some (Throw e, w1).
Proof. unfold bind. intros ->. reflexivity. Qed.

End MonadFacts.

(** ** result *)

Lemma toResfetchError_defined (e : Thrown) : toResfetchError e <> undefinedThrown.
Proof. destruct e as [x| |]; [destruct x|..]; discriminate. Qed.

Lemma err_exactlyOneDefined (e : Thrown) :
  e <> undefinedThrown -> exactlyOneDefined (err e).
Proof.
  intros He. right. split.
  - intros H. apply H. reflexivity.
  - exact He.
Qed.

Lemma ok_exactlyOneDefined (d : Value) :
  d <> VUndefined -> exactlyOneDefined (ok d).
Proof.
  intros Hd. left. split.
  - exact Hd.
  - intros H. apply H. reflexivity.
Qed.

(** A normal completion of the body of the fetcher is built by [ok]. *)
Lemma fetcherTry_ok St (pf : Platform St) schema customFetch defaultOpts
      fuel url fetcherOptions w r w' :
  fetcherTry pf schema customFetch defaultOpts fuel url fetcherOptions w
    = Some (Normal r, w') ->
  exists d, r = ok d.
Proof.
  unfold fetcherTry. intros H.
  repeat (apply bind_Normal_inv in H as (? & ? & _ & H)).
  injection H as <- _. eauto.
Qed.

(** What the fetcher returns is built by [ok], or by [err] from a
    validation error or a response error. *)
Lemma fetcher_returns St (pf : Platform St) schema customFetch defaultOpts
      fuel url fetcherOptions w r w' :
  fetcher pf schema customFetch defaultOpts fuel url fetcherOptions w
    = Some (Normal r, w') ->
  (exists d, r = ok d) \/ (exists e, r = err (toResfetchError e)).
Proof.
  unfold fetcher, try_catch. intros H.
  destruct (fetcherTry _ _ _ _ _ _ _ w) as [[[a|e] w1]|] eqn:E; try discriminate.
  - injection H as <- <-. left. eapply fetcherTry_ok; eauto.
  - injection H as <- <-. right. eauto.
Qed.

(** C2, as amended: every result returned by the public surface carries
    exactly one of the keys [data] and [error], and [ok] is true precisely
    when the key [data] is present and false precisely when the key [error]
    is; [ok(d)] and [err(e)] build this shape for every input; a failure
    returned by the public surface always holds a defined error, and the
    value under [data] is defined whenever the success value is not
    [undefined].  Results are values: the one operation on them,
    [matchResfetch], reads the discriminant and hands the field to a
    handler. *)
Theorem C2_result_shape :
  forall St (pf : Platform St) schema customFetch defaultOpts
         fuel url fetcherOptions w r w',
    fetcher pf schema customFetch defaultOpts fuel url fetcherOptions w
      = Some (Normal r, w') ->
    wellShaped r = true /\
    (r_ok r = true <-> hasData r = true) /\
    (r_ok r = false <-> hasError r = true) /\
    ((exists d, r = ok d /\ (d <> VUndefined -> exactlyOneDefined r)) \/
     (exists e, r = err e /\ exactlyOneDefined r)) /\
    (forall d e, wellShaped (ok d) = true /\ wellShaped (err e) = true) /\
    (forall R (h : MatchHandlers R) d, matchResfetch (ok d) h = h_ok h d) /\
    (forall R (h : MatchHandlers R) e,
        matchResfetch (err e) h =
        if isValidationError e then h_validationError h e else h_responseError h e).
Proof.
  intros St pf schema customFetch defaultOpts fuel url fetcherOptions w r w' H.
  apply fetcher_returns in H as [[d ->]|[e ->]].
  - repeat split; try reflexivity; try discriminate; auto.
    left. exists d. split; [reflexivity | apply ok_exactlyOneDefined].
  - repeat split; try reflexivity; try discriminate; auto.
    right. exists (toResfetchError e). split; [reflexivity|].
    apply err_exactlyOneDefined, toResfetchError_defined.
Qed.

(** The theorem at a call that succeeds with [undefined] as its data. *)
Lemma C2_witness :
  wellShaped (ok VUndefined) = true /\
  (r_ok (ok VUndefined) = true <-> hasData (ok VUndefined) = true).
Proof.
  pose proof (C2_result_shape nat (Demo.platform []) None None emptyOptions 1%nat
                "https://a.com/x" (Some Demo.parsingUndefined) Demo.start
                (ok VUndefined)) as H.
  edestruct H as (H1 & H2 & _).
  - vm_compute. reflexivity.
  - split; assumption.
Defined.

(** C2, as stated, fails: [ok(undefined)] has neither [data] nor [error]
    defined, and the public surface returns it when the response parser
    returns [undefined]. *)
Lemma C2_counterexample :
  ~ exactlyOneDefined (ok VUndefined) /\
  exists w',
    resfetch (Demo.platform []) 1 "https://a.com/x" (Some Demo.parsingUndefined) Demo.start
      = Some (Normal (ok VUndefined), w').
Proof.
  split.
  - intros [[Hd _]|[_ He]].
    + apply Hd. reflexivity.
    + apply He. reflexivity.
  - eexists. vm_compute. reflexivity.
Qed.

(** ** utils: validate *)

(** C8: when the schema reports issues, [validate] throws a
    [ValidationError] whose [data] is the very value that was passed in,
    whatever output the schema produced, and whose [issues] are the issues
    the schema reported. *)
Theorem C8_validation_error_carries_input :
  forall St (pf : Platform St) (schema : StandardSchema St) (data : Value)
         (w : World St) result s d issues json,
    schema data (env w) (now w) = (Normal result, s, d) ->
    vr_issues result = Some issues ->
    JSON_stringify pf (VArr issues) = Normal json ->
    validate pf schema data w =
      Some (Throw (TValidationError (match json with VStr m => m | _ => "" end)
                                    issues data),
            {| env := s; now := (now w + d)%nat; trace := trace w |}).
Proof.
  intros St pf schema data w result s d issues json Hs Hi Hj.
  unfold validate, bind, call. rewrite Hs. cbn.
  rewrite Hi. unfold liftC, ValidationError. rewrite Hj. reflexivity.
Qed.

Lemma C8_witness :
  validate (Demo.platform []) Demo.rejecting (VObj [("name", VNum 1)]) Demo.start =
  Some (Throw (TValidationError "null" [VObj [("message", VStr "Required")]]
                                (VObj [("name", VNum 1)])),
        Demo.start).
Proof.
  exact (C8_validation_error_carries_input nat (Demo.platform []) Demo.rejecting
           (VObj [("name", VNum 1)]) Demo.start _ _ _ _ _
           eq_refl eq_refl eq_refl).
Defined.

(** ** create: the schema of a call *)

(** C6: for a URL that is not in the route table, the schema of the call
    is the one used.  The code reads the table with [schema.schema[url]],
    which also finds what every object inherits: for the URL
    [constructor], which is not a route of the table, the schema passed
    with the call is ignored and the response is not validated, whereas
    for the URL [other] the schema of the call validates the response,
    and for the route [/test] the schema of the route does. *)
Theorem C6_inherited_name_hides_call_schema :
  let api := fetcher (Demo.platform []) (Some {| sc_schema := Some Demo.routes |})
                     None emptyOptions 1 in
  let options :=
    Some (Demo.withSchema (Present (Demo.onlyResponse (Demo.tagging "call")))) in
  Demo.routes !! "constructor" = None /\
  (exists w', api "constructor" options Demo.start = Some (Normal (ok VNull), w')) /\
  (exists w', api "other" options Demo.start
              = Some (Normal (ok (VArr [VStr "call"; VNull])), w')) /\
  (exists w', api "/test" options Demo.start
              = Some (Normal (ok (VArr [VStr "global"; VNull])), w')).
Proof.
  cbv zeta. split; [vm_compute; reflexivity|].
  repeat split; eexists; vm_compute; reflexivity.
Qed.

(** ** create: the error-to-result boundary *)





(** ** enhance: the default retry predicate *)

Lemma world_eta {St : Type} (w : World St) :
  {| env := env w; now := now w; trace := trace w |} = w.
Proof. destruct w. reflexivity. Qed.

Lemma call_pureExt {St A : Type} (c : Completion A) (w : World St) :
  call (pureExt c) w = Some (c, w).
Proof.
  unfold call, pureExt. rewrite Nat.add_0_r, world_eta. reflexivity.
Qed.

(** Under the default predicate, an attempt that ends while no response
    has been received in the call is not retried: nothing is evaluated
    after the predicate, whatever [attempts] says. *)
Lemma decideRetry_default_without_response St
      fetcherOpts defaultOpts perTry attempt request error (w : World St) :
  read (when (retryOf (retry perTry))) = read (when (@fallbackRetry St)) ->
  decideRetry fetcherOpts defaultOpts perTry attempt request None error w
  = Some (Normal Break, w).
Proof.
  intros Hwhen. unfold decideRetry, try_catch. rewrite Hwhen.
  cbn [read when fallbackRetry option_map callRead wc_response].
  unfold bind. rewrite call_pureExt. reflexivity.
Qed.

(** The default predicate looks at the response kept by the loop: after a
    response that is not ok, it holds again when a later attempt throws. *)
Lemma default_when_sees_kept_response St request r e (s : St) t :
  rs_ok r = false ->
  exists f, read (when (@fallbackRetry St)) = Some f /\
            f {| wc_request := request; wc_response := Some r; wc_error := e |} s t
            = (Normal true, s, O).
Proof.
  intros Hr. eexists. split; [reflexivity|]. cbn. unfold pureExt. rewrite Hr. reflexivity.
Qed.

(** C9: under the default predicate an attempt in which the transport
    throws is not retried.  The code keeps the response of an earlier
    attempt in the variable the predicate reads: when the transport answers
    500, then throws, then answers 200, with [retry.attempts = 5] and the
    default predicate, the attempt that threw is retried, the transport is
    invoked three times and the call succeeds. *)
Theorem C9_throw_after_response_is_retried :
  exists w',
    resfetch (Demo.platform [Normal (Demo.response 500 "null");
                             Throw Demo.networkError;
                             Normal (Demo.response 200 "null")])
             5 "https://a.com/x" (Some (Demo.retrying 5 0 Absent)) Demo.start
    = Some (Normal (ok VNull), w') /\
    env w' = 3%nat /\
    count isFetch (trace w') = 3%nat.
Proof. eexists. vm_compute. repeat split; reflexivity. Qed.

(** The same transport error on the first attempt ends the call. *)
Example throw_on_first_attempt :
  exists w',
    resfetch (Demo.platform [Throw Demo.networkError; Normal (Demo.response 200 "null")])
             5 "https://a.com/x" (Some (Demo.retrying 5 0 Absent)) Demo.start
    = Some (Normal (err (TResponseError "fetch failed" None None VUndefined None
                           Demo.networkError)), w') /\
    count isFetch (trace w') = 1%nat.
Proof. eexists. vm_compute. repeat split; reflexivity. Qed.

(** ** enhance: timeouts, abort signals and the retry delay *)

Lemma withTimeout_world St (pf : Platform St) caller tmo (w : World St) c w' :
  withTimeout pf caller tmo w = Some (c, w') -> w' = w.
Proof.
  unfold withTimeout. destruct (AbortSignal_has_any pf).
  - unfold bind, clock, ret, throw.
    destruct tmo as [ms|]; [destruct (ms =? 0); [|destruct (ms <? 0)]|];
      intros H; injection H as _ <-; reflexivity.
  - unfold ret. intros H; injection H as _ <-; reflexivity.
Qed.

Lemma any_fires caller t0 ms :
  (0 < ms)%Z ->
  sig_fires (AbortSignal_any t0 (filterSignals [caller; Some (AbortSignal_timeout t0 ms)]))
  = Some (firstToFire caller (t0 + Z.to_nat ms)).
Proof.
  intros Hms. assert (0 < Z.to_nat ms)%nat by lia.
  assert (Hfresh : aborted t0 (AbortSignal_timeout t0 ms) = false).
  { unfold aborted, AbortSignal_timeout. cbn [sig_fires]. apply Nat.leb_gt. lia. }
  unfold AbortSignal_any, filterSignals, firstToFire.
  destruct caller as [c|]; cbn [omap list_omap id mbind option_bind find].
  - destruct (aborted t0 c) eqn:Ec.
    + unfold aborted in Ec. destruct (sig_fires c) as [tc|] eqn:Efc; [|discriminate].
      apply Nat.leb_le in Ec. f_equal. symmetry. apply Nat.min_l. lia.
    + rewrite Hfresh. cbn [fold_left]. unfold earlier at 2. cbn [sig_fires neverSignal].
      unfold earlier. cbn [sig_fires AbortSignal_timeout].
      destruct (sig_fires c) as [tc|] eqn:Efc; [|reflexivity].
      destruct (Nat.ltb_spec (t0 + Z.to_nat ms) tc) as [E3|E3].
      * unfold AbortSignal_timeout. cbn [sig_fires]. f_equal. symmetry. apply Nat.min_r. lia.
      * rewrite ?Efc. f_equal. symmetry. apply Nat.min_l. lia.
  - rewrite Hfresh. reflexivity.
Qed.

Lemma withTimeout_any St (pf : Platform St) caller ms (w : World St) :
  AbortSignal_has_any pf = true -> (0 < ms)%Z ->
  withTimeout pf caller (Some ms) w
  = Some (Normal (Some (AbortSignal_any (now w)
                          (filterSignals [caller; Some (AbortSignal_timeout (now w) ms)]))), w).
Proof.
  intros Hany Hms. unfold withTimeout. rewrite Hany.
  unfold bind, clock, ret.
  destruct (ms =? 0) eqn:E0; [apply Z.eqb_eq in E0; lia|].
  destruct (ms <? 0) eqn:E1; [apply Z.ltb_lt in E1; lia|].
  reflexivity.
Qed.

Lemma abortableDelay_cancelled St d sig t (w : World St) :
  sig_fires sig = Some t -> (now w < t)%nat -> (t < now w + d)%nat ->
  abortableDelay d (Some sig) w
  = Some (Throw (TExn (sig_reason sig)),
          {| env := env w; now := t; trace := trace w ++ [EvSleep d (Some sig)] |}).
Proof.
  intros Hf H1 H2. unfold abortableDelay, bind, emit, clock, waitUntil, throw.
  cbn [env now trace]. rewrite Hf.
  destruct (Nat.ltb_spec (now w) t) as [_|]; [|lia].
  destruct (Nat.ltb_spec t (now w + d)) as [_|]; [|lia].
  cbn [andb env now trace]. rewrite Nat.max_r by lia. reflexivity.
Qed.

Lemma abortableDelay_completes St d sig (w : World St) :
  match sig with
  | Some s => match sig_fires s with
              | Some t => (t <= now w)%nat \/ (now w + d <= t)%nat
              | None => True
              end
  | None => True
  end ->
  abortableDelay d sig w
  = Some (Normal tt,
          {| env := env w; now := (now w + d)%nat; trace := trace w ++ [EvSleep d sig] |}).
Proof.
  intros H. unfold abortableDelay, bind, emit, clock, waitUntil, throw.
  cbn [env now trace].
  assert (Hmax : Nat.max (now w) (now w + d) = (now w + d)%nat) by (apply Nat.max_r; lia).
  destruct sig as [s|]; [destruct (sig_fires s) as [t|]|];
    cbn [env now trace]; rewrite ?Hmax; try reflexivity.
  destruct (Nat.ltb_spec (now w) t) as [E1|E1];
    destruct (Nat.ltb_spec t (now w + d)) as [E2|E2];
    cbn [andb env now trace]; rewrite ?Hmax; try reflexivity.
  lia.
Qed.

Lemma call_eq {St A : Type} (f : Ext St A) (w : World St) c s d :
  f (env w) (now w) = (c, s, d) ->
  call f w = Some (c, {| env := s; now := (now w + d)%nat; trace := trace w |}).
Proof. unfold call. intros ->. reflexivity. Qed.

Lemma bind_ret {St A B : Type} (a : A) (f : A -> M St B) (w : World St) :
  bind (ret a) f w = f a w.
Proof. reflexivity. Qed.

Lemma decideRetry_delay_cancelled St fetcherOpts defaultOpts perTry whenFn n dz sig
      attempt request response error (w : World St) s1 d1 t :
  retry perTry = Present (staticRetry whenFn n dz) ->
  signal perTry = Present sig ->
  whenFn {| wc_request := request; wc_response := response; wc_error := error |}
         (env w) (now w) = (Normal true, s1, d1) ->
  attempt + 1 <= n ->
  sig_fires sig = Some t ->
  (now w + d1 < t)%nat -> (t < now w + d1 + Z.to_nat dz)%nat ->
  decideRetry fetcherOpts defaultOpts perTry attempt request response error w
  = Some (Normal (BreakWith (TExn (sig_reason sig))),
          {| env := s1; now := t;
             trace := trace w ++ [EvSleep (Z.to_nat dz) (Some sig)] |}).
Proof.
  intros Hretry Hsig Hwhen Hn Hf H1 H2.
  unfold decideRetry, try_catch. rewrite Hretry, Hsig.
  cbn [retryOf read default staticRetry when attempts delay option_map callRead from_option id].
  rewrite (bind_Normal _ _ _ _ _ (call_eq _ _ _ _ _ Hwhen)).
  cbn [negb]. rewrite bind_ret.
  destruct (Z.ltb_spec n (attempt + 1)) as [|_]; [lia|].
  rewrite bind_ret.
  pose proof (abortableDelay_cancelled St (Z.to_nat dz) sig t
                {| env := s1; now := (now w + d1)%nat; trace := trace w |} Hf H1 H2) as Hd.
  cbn [env now trace] in Hd.
  rewrite (bind_Throw _ _ _ _ _ Hd). reflexivity.
Qed.

Lemma newRequest_signal St (pf : Platform St) url init request :
  newRequest pf (inl url) init = Normal request ->
  rq_signal request = read (signal init).
Proof.
  unfold newRequest, bindC.
  destruct (match read (headers init) with Some hi => Headers_ (Some hi) | None => _ end)
    as [hs|e]; [|discriminate].
  destruct (Request_check pf _); [discriminate|].
  intros H. injection H as <-. cbn. destruct (read (signal init)); reflexivity.
Qed.

Lemma openAttempt_signal St (pf : Platform St) input fetcherOpts defaultOpts options
      (w : World St) perTry request w' :
  openAttempt pf input fetcherOpts defaultOpts options w = Some (Normal (perTry, request), w') ->
  exists sig,
    withTimeout pf (read (opt fetcherOpts signal)) (read (timeout options)) w
      = Some (Normal sig, w) /\
    perTry = set_signal options (slotOf sig) /\
    (forall s, input = InputString s -> rq_signal request = sig) /\
    (forall href, input = InputURL href -> rq_signal request = sig).
Proof.
  unfold openAttempt. intros H.
  apply bind_Normal_inv in H as (sig & w1 & Hsig & H).
  pose proof (withTimeout_world _ _ _ _ _ _ _ Hsig) as ->.
  exists sig. split; [exact Hsig|].
  apply bind_Normal_inv in H as (requestUrl & w2 & Hurl & H).
  apply bind_Normal_inv in H as (req & w3 & Hreq & H).
  injection H as <- <- <-.
  split; [reflexivity|].
  assert (Hread : read (signal (set_signal options (slotOf sig))) = sig).
  { cbn. destruct sig; reflexivity. }
  unfold liftC in Hreq.
  split.
  - intros s ->. apply bind_Normal_inv in Hurl as (u & w4 & _ & Hu).
    injection Hu as <- _. injection Hreq as Hreq _.
    apply newRequest_signal in Hreq. rewrite Hreq. exact Hread.
  - intros s ->. apply bind_Normal_inv in Hurl as (u & w4 & _ & Hu).
    injection Hu as <- _. injection Hreq as Hreq _.
    apply newRequest_signal in Hreq. rewrite Hreq. exact Hread.
Qed.

(** X23.  Where the host has [AbortSignal.any] and a timeout is set, the
    signal of an attempt combines the caller's signal with the timeout
    signal created for that attempt and fires at the earlier of the two;
    it is stored in the options of the attempt, and the signal of the
    request fires with it.  The retry delay is waited on this signal: when it
    fires while the delay is pending, the retry step breaks out of the
    loop with the reason of the signal as the error of the loop, at the
    instant the signal fires and before any retry hook; a signal that
    fired before the delay began, or that fires after it, lets the delay
    run to its end. *)
Theorem retry_delay_follows_attempt_signal :
  forall St (pf : Platform St) input fetcherOpts defaultOpts options caller ms,
    AbortSignal_has_any pf = true ->
    0 < ms ->
    read (opt fetcherOpts signal) = caller ->
    read (timeout options) = Some ms ->
    let perAttempt (t0 : nat) :=
      AbortSignal_any t0 (filterSignals [caller; Some (AbortSignal_timeout t0 ms)]) in
    (forall w : World St,
        withTimeout pf caller (Some ms) w = Some (Normal (Some (perAttempt (now w))), w) /\
        sig_fires (perAttempt (now w))
        = Some (firstToFire caller (now w + Z.to_nat ms))) /\
    (forall (w : World St) url perTry request w',
        input = InputString url ->
        openAttempt pf input fetcherOpts defaultOpts options w
          = Some (Normal (perTry, request), w') ->
        signal perTry = Present (perAttempt (now w)) /\
        rq_signal request = Some (perAttempt (now w))) /\
    (forall perTry whenFn n dz sig attempt request response error (w : World St) s1 d1 t,
        retry perTry = Present (staticRetry whenFn n dz) ->
        signal perTry = Present sig ->
        whenFn {| wc_request := request; wc_response := response; wc_error := error |}
               (env w) (now w) = (Normal true, s1, d1) ->
        attempt + 1 <= n ->
        sig_fires sig = Some t ->
        (now w + d1 < t)%nat -> (t < now w + d1 + Z.to_nat dz)%nat ->
        decideRetry fetcherOpts defaultOpts perTry attempt request response error w
        = Some (Normal (BreakWith (TExn (sig_reason sig))),
                {| env := s1; now := t;
                   trace := trace w ++ [EvSleep (Z.to_nat dz) (Some sig)] |})) /\
    (forall d sig t (w : World St),
        sig_fires sig = Some t ->
        (t <= now w)%nat \/ (now w + d <= t)%nat ->
        abortableDelay d (Some sig) w
        = Some (Normal tt,
                {| env := env w; now := (now w + d)%nat;
                   trace := trace w ++ [EvSleep d (Some sig)] |})).
Proof.
  intros St pf input fetcherOpts defaultOpts options caller ms Hany Hms Hcaller Htimeout
         perAttempt.
  split; [|split; [|split]].
  - intros w. split.
    + apply withTimeout_any; assumption.
    + apply any_fires; assumption.
  - intros w url perTry request w' Hin Hopen.
    apply openAttempt_signal in Hopen as (sig & Hsig & -> & Hstr & _).
    rewrite Hcaller, Htimeout, (withTimeout_any _ pf caller ms w Hany Hms) in Hsig.
    injection Hsig as <-. split; [reflexivity|]. apply (Hstr url Hin).
  - intros perTry whenFn n dz sig attempt request response error w s1 d1 t.
    apply decideRetry_delay_cancelled.
  - intros d sig t w Hf Hout.
    apply (abortableDelay_completes St d (Some sig) w). rewrite Hf. exact Hout.
Qed.

(** A timeout of 100 ms and no caller signal, at instant 0. *)
Lemma retry_delay_follows_attempt_signal_witness :
  sig_fires (AbortSignal_any 0 (filterSignals [None; Some (AbortSignal_timeout 0 100)]))
  = Some 100%nat.
Proof.
  destruct (retry_delay_follows_attempt_signal nat (Demo.platform [])
              (InputString "https://a.com/x") None emptyOptions
              (Demo.fetcherOptions Absent (Present 100) Absent) None 100
              eq_refl eq_refl eq_refl eq_refl) as [H _].
  exact (proj2 (H Demo.start)).
Defined.

(** C4: the expiry of the timeout never aborts a pending retry delay.
    The code waits the delay on the signal of the attempt, which includes
    the timeout: with a timeout of 100 ms, no caller signal, a transport
    that answers 500 after 1 ms and a retry delay of 1000 ms, the delay
    starts at instant 1, the timeout expires at instant 100 while the
    delay is pending, the delay is aborted and the call ends there with
    the timeout as its error: the transport was invoked once although
    four more attempts were allowed and it would have answered 200. *)
Theorem C4_timeout_aborts_retry_delay :
  exists request sig,
    resfetch (Demo.platform [Normal (Demo.response 500 "null");
                             Normal (Demo.response 200 "null")])
             5 "https://a.com/x" (Some (Demo.retrying 5 1000 (Present 100))) Demo.start
    = Some (Normal (err (TResponseError "The operation was aborted due to timeout"
                           None None VUndefined None Demo.timeoutError)),
            {| env := 1%nat; now := 100%nat;
               trace := [EvFetch request; EvSleep 1000 (Some sig)] |}) /\
    rq_signal request = Some sig /\
    sig = AbortSignal_timeout 0 100.
Proof. do 2 eexists. vm_compute. repeat split; reflexivity. Qed.

(** ** enhance: headers and the inferred content type *)

Lemma asciiLower_idem c : asciiLower (asciiLower c) = asciiLower c.
Proof. destruct c as [[] [] [] [] [] [] [] []]; reflexivity. Qed.

Lemma isTokenChar_lower c : isTokenChar c = true -> isTokenChar (asciiLower c) = true.
Proof. destruct c as [[] [] [] [] [] [] [] []]; cbv; intros H; first [exact H | reflexivity]. Qed.

Lemma string_map_lower_idem s :
  string_map asciiLower (string_map asciiLower s) = string_map asciiLower s.
Proof. induction s as [|c s IH]; cbn; [reflexivity|]. now rewrite asciiLower_idem, IH. Qed.

Lemma string_forallb_app p a b :
  string_forallb p (a ++ b) = string_forallb p a && string_forallb p b.
Proof. induction a as [|c a IH]; simpl; [reflexivity|]. rewrite IH. now rewrite andb_assoc. Qed.

Lemma validHeaderName_lower n :
  validHeaderName n = true -> validHeaderName (string_map asciiLower n) = true.
Proof.
  unfold validHeaderName. intros H. apply andb_prop in H as [Hne Hall].
  apply andb_true_intro. split.
  - destruct n; [discriminate|reflexivity].
  - clear Hne. induction n as [|c n IH]; cbn in *; [reflexivity|].
    apply andb_prop in Hall as [Hc Hn]. rewrite (isTokenChar_lower _ Hc). now apply IH.
Qed.

Lemma string_forallb_trimStart p s :
  string_forallb p s = true -> string_forallb p (trimStart s) = true.
Proof.
  induction s as [|c s IH]; cbn [trimStart string_forallb]; [trivial|]. intros H.
  destruct (isHttpWhitespace c).
  - apply andb_prop in H as [_ H]. now apply IH.
  - exact H.
Qed.

Lemma string_forallb_trimEnd p s :
  string_forallb p s = true -> string_forallb p (trimEnd s) = true.
Proof.
  induction s as [|c s IH]; cbn [trimEnd string_forallb]; [trivial|]. intros H.
  apply andb_prop in H as [Hc Hs].
  destruct (String.eqb (trimEnd s) "" && isHttpWhitespace c);
    cbn [string_forallb]; [reflexivity|].
  rewrite Hc. now apply IH.
Qed.

Lemma validHeaderValue_normalize v :
  validHeaderValue v = true -> validHeaderValue (normalizeHeaderValue v) = true.
Proof.
  unfold validHeaderValue, normalizeHeaderValue. intros H.
  now apply string_forallb_trimEnd, string_forallb_trimStart.
Qed.

Lemma wfHeaders_empty : wfHeaders ∅.
Proof. intros k v H. rewrite lookup_empty in H. discriminate. Qed.

Lemma wfHeaders_insert h k v :
  wfHeaders h -> validHeaderName k = true -> string_map asciiLower k = k ->
  validHeaderValue v = true -> wfHeaders (<[k := v]> h).
Proof.
  intros Hh Hk Hl Hv k' v' H. destruct (decide (k = k')) as [<-|Hne].
  - rewrite lookup_insert_eq in H. injection H as <-. auto.
  - rewrite lookup_insert_ne in H by exact Hne. now apply Hh.
Qed.

Lemma wfHeaders_delete h k : wfHeaders h -> wfHeaders (delete k h).
Proof.
  intros Hh k' v' H. destruct (decide (k = k')) as [<-|Hne].
  - rewrite lookup_delete_eq in H. discriminate.
  - rewrite lookup_delete_ne in H by exact Hne. now apply Hh.
Qed.

Lemma Headers_append_wf h name value h' :
  wfHeaders h -> Headers_append h name value = Normal h' -> wfHeaders h'.
Proof.
  unfold Headers_append. intros Hh.
  destruct (validHeaderName name && validHeaderValue (normalizeHeaderValue value)) eqn:E;
    [|discriminate].
  apply andb_prop in E as [Hn Hv].
  pose proof (validHeaderName_lower _ Hn) as Hn'.
  pose proof (string_map_lower_idem name) as Hl.
  destruct (h !! string_map asciiLower name) as [old|] eqn:Eold.
  - destruct (String.eqb (string_map asciiLower name) "set-cookie");
      intros H; injection H as <-; apply wfHeaders_insert; auto.
    unfold validHeaderValue in *. rewrite !string_forallb_app.
    destruct (Hh _ _ Eold) as (_ & _ & Hold). unfold validHeaderValue in Hold.
    rewrite Hold, Hv. reflexivity.
  - intros H; injection H as <-; apply wfHeaders_insert; auto.
Qed.

Lemma fold_append_Throw {A : Type} (f : A -> string * string) (l : list A) e :
  fold_left (fun acc x => bindC acc (fun h => Headers_append h (fst (f x)) (snd (f x))))
            l (Throw e) = Throw e.
Proof. induction l as [|x l IH]; cbn; [reflexivity|exact IH]. Qed.

Lemma fold_append_wf {A : Type} (f : A -> string * string) (l : list A) h0 h :
  wfHeaders h0 ->
  fold_left (fun acc x => bindC acc (fun h => Headers_append h (fst (f x)) (snd (f x))))
            l (Normal h0) = Normal h ->
  wfHeaders h.
Proof.
  revert h0. induction l as [|x l IH]; intros h0 Hwf; cbn [fold_left bindC].
  - intros H. injection H as <-. exact Hwf.
  - destruct (Headers_append h0 (fst (f x)) (snd (f x))) as [h1|e] eqn:E.
    + apply IH. eapply Headers_append_wf; eauto.
    + rewrite fold_append_Throw. discriminate.
Qed.

Lemma Headers__wf init h : Headers_ init = Normal h -> wfHeaders h.
Proof.
  destruct init as [[entries|res]|]; cbn [Headers_].
  - apply (fold_append_wf (fun nv => (fst nv, String_ (snd nv)))). apply wfHeaders_empty.
  - revert h.
    apply (map_fold_weak_ind
             (fun acc (m : gmap string string) => forall h, acc = Normal h -> wfHeaders h)).
    + intros h H. injection H as <-. apply wfHeaders_empty.
    + intros k v m acc _ IH h. destruct acc as [h1|e]; cbn [bindC]; [|discriminate].
      apply Headers_append_wf. now apply IH.
  - intros H. injection H as <-. apply wfHeaders_empty.
Qed.

(** One round of [mergeHeaders], key by key. *)
Lemma merge_round_lookup (res h : gmap string string) k :
  map_fold mergeEntry res h !! k =
  match h !! k with
  | Some v => if deletes v then None else Some v
  | None => res !! k
  end.
Proof.
  revert k.
  apply (map_fold_weak_ind
           (fun acc (m : gmap string string) =>
              forall k, acc !! k = match m !! k with
                                   | Some v => if deletes v then None else Some v
                                   | None => res !! k
                                   end)).
  - intros k. rewrite lookup_empty. reflexivity.
  - intros i x m acc Hi IH k. unfold mergeEntry. fold (deletes x).
    destruct (decide (i = k)) as [<-|Hne].
    + rewrite lookup_insert_eq. destruct (deletes x).
      * apply lookup_delete_eq.
      * apply lookup_insert_eq.
    + rewrite (lookup_insert_ne m) by exact Hne. rewrite <- IH.
      destruct (deletes x).
      * now apply lookup_delete_ne.
      * now apply lookup_insert_ne.
Qed.

Lemma merge_round_wf (res h : gmap string string) :
  wfHeaders res -> wfHeaders h -> wfHeaders (map_fold mergeEntry res h).
Proof.
  intros Hres Hh k v H. rewrite merge_round_lookup in H.
  destruct (h !! k) as [v'|] eqn:E.
  - destruct (deletes v'); [discriminate|]. injection H as <-. now apply Hh.
  - now apply Hres.
Qed.

(** A well-formed record goes through [new Headers] with its values
    normalized once more and nothing else changed. *)
Lemma Headers__record (res : gmap string string) :
  wfHeaders res ->
  Headers_ (Some (HeadersRecord res)) = Normal (normalizeHeaderValue <$> res).
Proof.
  cbn [Headers_].
  apply (map_fold_weak_ind
           (fun acc (m : gmap string string) =>
              wfHeaders m -> acc = Normal (normalizeHeaderValue <$> m))).
  - intros _. rewrite fmap_empty. reflexivity.
  - intros k v m acc Hk IH Hwf.
    assert (Hm : wfHeaders m).
    { intros k' v' H. apply Hwf. rewrite lookup_insert_ne; [exact H|].
      intros <-. rewrite Hk in H. discriminate. }
    destruct (Hwf k v (lookup_insert_eq _ _ _)) as (Hn & Hl & Hv).
    rewrite (IH Hm). cbn [bindC]. unfold Headers_append.
    rewrite Hn, (validHeaderValue_normalize _ Hv), Hl. cbn [andb].
    rewrite lookup_fmap, Hk. cbn. rewrite fmap_insert. reflexivity.
Qed.
Lemma inferredContentType_spec originalBody serialized :
  Headers_ (Some (inferredContentType originalBody serialized)) =
  Normal (if infersJson originalBody serialized
          then {[ "content-type" := "application/json" ]} else ∅).
Proof.
  unfold inferredContentType, infersJson.
  destruct (isNullish serialized); cbn [orb negb andb]; [reflexivity|].
  destruct (isFormData originalBody); cbn [orb negb andb]; [reflexivity|].
  destruct (isSerializable originalBody); cbn [andb]; [|reflexivity].
  destruct serialized; cbn [isString]; reflexivity.
Qed.

Lemma mergeHeaders_three i1 i2 i3 hs :
  mergeHeaders [i1; i2; i3] = Normal hs ->
  exists h1 h2 h3,
    Headers_ i1 = Normal h1 /\ Headers_ i2 = Normal h2 /\ Headers_ i3 = Normal h3 /\
    hs = map_fold mergeEntry (map_fold mergeEntry (map_fold mergeEntry ∅ h1) h2) h3.
Proof.
  unfold mergeHeaders. cbn [fold_left bindC].
  destruct (Headers_ i1) as [h1|]; cbn [bindC]; [|discriminate].
  destruct (Headers_ i2) as [h2|]; cbn [bindC]; [|discriminate].
  destruct (Headers_ i3) as [h3|]; cbn [bindC]; [|discriminate].
  intros H. injection H as <-. exists h1, h2, h3. auto.
Qed.

Lemma prepareOptions_inv St (pf : Platform St) defaultOpts fetcherOpts (w : World St)
      options w' :
  prepareOptions pf defaultOpts fetcherOpts w = Some (Normal options, w') ->
  exists serialized res,
    options = set_headers (set_body (mergeOptions pf defaultOpts fetcherOpts)
                                    (Present serialized))
                          (Present (HeadersRecord res)) /\
    mergeHeaders [Some (inferredContentType (readValue (opt fetcherOpts body)) serialized);
                  read (headers defaultOpts); read (opt fetcherOpts headers)]
    = Normal res.
Proof.
  unfold prepareOptions. intros H.
  apply bind_Normal_inv in H as (serialized & w1 & _ & H).
  apply bind_Normal_inv in H as (res & w2 & Hres & H).
  injection H as <- _. exists serialized, res. split; [reflexivity|].
  unfold liftC in Hres. injection Hres as Hres _. exact Hres.
Qed.

Lemma newRequest_headers St (pf : Platform St) url init res request k v :
  read (headers init) = Some (HeadersRecord res) ->
  wfHeaders res ->
  newRequest pf (inl url) init = Normal request ->
  res !! k = Some v ->
  rq_headers request !! k = Some (normalizeHeaderValue v).
Proof.
  intros Hh Hwf Hreq Hk. unfold newRequest in Hreq. rewrite Hh, (Headers__record _ Hwf) in Hreq.
  cbn [bindC] in Hreq.
  destruct (Request_check pf _); [discriminate|]. injection Hreq as <-. cbn [rq_headers].
  assert (Hn : (normalizeHeaderValue <$> res) !! k = Some (normalizeHeaderValue v)).
  { rewrite lookup_fmap, Hk. reflexivity. }
  destruct (isNullish (readValue (body init))); [exact Hn|].
  destruct (body_mime_type pf (readValue (body init))) as [type|]; [|exact Hn].
  destruct ((normalizeHeaderValue <$> res) !! "content-type") eqn:E; [exact Hn|].
  rewrite lookup_insert_ne; [exact Hn|]. intros <-. rewrite E in Hn. discriminate.
Qed.

(** C5, as amended: in the headers [enhance] hands to the Request
    constructor, [content-type: application/json] is inferred exactly when
    a non-null body is supplied, is not a FormData object, is serializable
    (a plain object, an array, or an object with [toJSON]) and is turned
    into a string by the configured serializer, and neither the caller nor
    the base configuration supplies a content-type; for any other body, a
    FormData object among them, no content-type is set by the library; a
    content-type supplied by the caller, or else by the base
    configuration, is the one used, unless its value is the string [null]
    or [undefined], which removes the header; and every request built for
    an attempt carries the content-type of these headers. *)
Theorem C5_content_type_inference :
  forall St (pf : Platform St) defaultOpts fetcherOpts (w : World St) options w',
    prepareOptions pf defaultOpts fetcherOpts w = Some (Normal options, w') ->
    let originalBody := readValue (opt fetcherOpts body) in
    let serialized := readValue (body options) in
    exists res base own,
      headers options = Present (HeadersRecord res) /\
      Headers_ (read (headers defaultOpts)) = Normal base /\
      Headers_ (read (opt fetcherOpts headers)) = Normal own /\
      (infersJson originalBody serialized = true ->
       base !! "content-type" = None -> own !! "content-type" = None ->
       res !! "content-type" = Some "application/json") /\
      (infersJson originalBody serialized = false ->
       base !! "content-type" = None -> own !! "content-type" = None ->
       res !! "content-type" = None) /\
      (isFormData originalBody = true -> infersJson originalBody serialized = false) /\
      (isSerializable originalBody = false -> infersJson originalBody serialized = false) /\
      (forall v, own !! "content-type" = Some v -> deletes v = false ->
                 res !! "content-type" = Some v) /\
      (forall v, own !! "content-type" = None -> base !! "content-type" = Some v ->
                 deletes v = false -> res !! "content-type" = Some v) /\
      (forall v, own !! "content-type" = Some v -> deletes v = true ->
                 res !! "content-type" = None) /\
      (forall url sig request v,
          newRequest pf (inl url) (set_signal options sig) = Normal request ->
          res !! "content-type" = Some v ->
          rq_headers request !! "content-type" = Some (normalizeHeaderValue v)).
Proof.
  intros St pf defaultOpts fetcherOpts w options w' H originalBody serialized.
  apply prepareOptions_inv in H as (ser & res & -> & Hres).
  apply mergeHeaders_three in Hres as (h1 & base & own & H1 & Hbase & Hown & ->).
  subst serialized. cbn [set_headers set_body body readValue].
  rewrite inferredContentType_spec in H1. injection H1 as <-.
  set (inferred := if infersJson originalBody ser
                  then ({[ "content-type" := "application/json" ]} : gmap string string)
                  else ∅).
  assert (Hlook : forall k,
             map_fold mergeEntry (map_fold mergeEntry (map_fold mergeEntry ∅ inferred) base) own
               !! k =
             match own !! k with
             | Some v => if deletes v then None else Some v
             | None => match base !! k with
                       | Some v => if deletes v then None else Some v
                       | None => inferred !! k
                       end
             end).
  { intros k. rewrite !merge_round_lookup. rewrite lookup_empty.
    destruct (own !! k); [reflexivity|]. destruct (base !! k); [reflexivity|].
    destruct (inferred !! k) as [v|] eqn:E; [|reflexivity].
    subst inferred. destruct (infersJson originalBody ser).
    - destruct (decide (k = "content-type")) as [->|Hne].
      + rewrite lookup_singleton_eq in E. injection E as <-. reflexivity.
      + rewrite lookup_singleton_ne in E by congruence. discriminate.
    - rewrite lookup_empty in E. discriminate. }
  assert (Hwf : wfHeaders
                  (map_fold mergeEntry (map_fold mergeEntry (map_fold mergeEntry ∅ inferred) base) own)).
  { repeat apply merge_round_wf; try (eapply Headers__wf; eassumption).
    - apply wfHeaders_empty.
    - apply (Headers__wf (Some (inferredContentType originalBody ser))).
      apply inferredContentType_spec. }
  eexists _, base, own. split; [reflexivity|]. split; [exact Hbase|]. split; [exact Hown|].
  repeat split.
  - intros Hj Hb Ho. rewrite Hlook, Ho, Hb. subst inferred. rewrite Hj.
    apply lookup_singleton_eq.
  - intros Hj Hb Ho. rewrite Hlook, Ho, Hb. subst inferred. rewrite Hj.
    apply lookup_empty.
  - intros Hf. unfold infersJson. rewrite Hf.
    destruct (isNullish ser); reflexivity.
  - intros Hs. unfold infersJson. rewrite Hs.
    destruct (isNullish ser), (isFormData originalBody); reflexivity.
  - intros v Ho Hd. rewrite Hlook, Ho, Hd. reflexivity.
  - intros v Ho Hb Hd. rewrite Hlook, Ho, Hb, Hd. reflexivity.
  - intros v Ho Hd. rewrite Hlook, Ho, Hd. reflexivity.
  - intros url sig request v Hreq Hv.
    unfold inferred in *.
    refine (newRequest_headers _ pf url _ _ request _ v _ Hwf Hreq Hv). reflexivity.
Qed.

(** A plain object posted without any header. *)
Lemma C5_witness :
  exists res,
    prepareOptions (Demo.platform []) emptyOptions
      (Some (toFetchOptions emptySchema (Demo.posting (VObj [])) (Present (VObj [])) Absent))
      Demo.start
    = Some (Normal (set_headers
                      (set_body (mergeOptions (Demo.platform []) emptyOptions
                                   (Some (toFetchOptions emptySchema (Demo.posting (VObj []))
                                            (Present (VObj [])) Absent)))
                                (Present (VStr "{}")))
                      (Present (HeadersRecord res))), Demo.start) /\
    res !! "content-type" = Some "application/json".
Proof.
  exists {[ "content-type" := "application/json" ]}.
  assert (E : prepareOptions (Demo.platform []) emptyOptions
                (Some (toFetchOptions emptySchema (Demo.posting (VObj []))
                         (Present (VObj [])) Absent))
                Demo.start
              = Some (Normal (set_headers
                                (set_body (mergeOptions (Demo.platform []) emptyOptions
                                             (Some (toFetchOptions emptySchema
                                                      (Demo.posting (VObj []))
                                                      (Present (VObj [])) Absent)))
                                          (Present (VStr "{}")))
                                (Present (HeadersRecord
                                            {[ "content-type" := "application/json" ]}))),
                      Demo.start))
    by (vm_compute; reflexivity).
  split; [exact E|].
  destruct (C5_content_type_inference nat (Demo.platform []) emptyOptions _ _ _ _ E)
    as (res & base & own & Hh & Hb & Ho & Hj & _).
  injection Hh as <-. injection Hb as <-. injection Ho as <-.
  apply Hj; reflexivity.
Defined.

(** C5, as stated, fails: the string ["hello"] is a non-null body, is not a
    FormData object, and the default serializer returns it as the string it
    is; the library sets no content type (the body is not serializable),
    and the request carries the one the Request constructor derives from a
    string body. *)
Lemma C5_counterexample :
  exists request w',
    resfetch (Demo.platform []) 1 "https://a.com/x" (Some (Demo.posting (VStr "hello")))
             Demo.start
    = Some (Normal (ok VNull), w') /\
    trace w' = [EvFetch request] /\
    rq_body request = VStr "hello" /\
    rq_headers request !! "content-type" = Some "text/plain;charset=UTF-8" /\
    rq_headers request !! "content-type" <> Some "application/json".
Proof.
  do 2 eexists. vm_compute. repeat split; try reflexivity. discriminate.
Qed.

(** ** The object graph: what a call writes to *)

Section FrameRules.

Variable P : gset Frame.loc.
Variable h0 : gmap Frame.loc (gmap string Frame.JsVal).
Hypothesis covered : P ⊆ dom h0.

Lemma unchanged_in_dom h l : unchanged P h0 h -> l ∈ P -> l ∈ dom h.
Proof.
  intros Hu Hl. apply elem_of_dom. rewrite (Hu l Hl). apply elem_of_dom. auto.
Qed.

Lemma keeps_ret {A : Type} (a : A) (Q : A -> Prop) : Q a -> keeps P h0 (Frame.sret a) Q.
Proof. intros Hq h Hu. cbn. auto. Qed.

Lemma keeps_throw {A : Type} v (Q : A -> Prop) : keeps P h0 (Frame.sthrow v) Q.
Proof. intros h Hu. exact Hu. Qed.

Lemma keeps_bind {A B : Type} (m : Frame.SM A) (f : A -> Frame.SM B) Q R :
  keeps P h0 m Q -> (forall a, Q a -> keeps P h0 (f a) R) -> keeps P h0 (Frame.sbind m f) R.
Proof.
  intros Hm Hf h Hu. unfold Frame.sbind. specialize (Hm h Hu).
  destruct (m h) as [[[a|v] h1]|]; [|exact Hm|exact I].
  destruct Hm as [Hu1 Hq]. exact (Hf a Hq h1 Hu1).
Qed.

Lemma keeps_try {A : Type} (m : Frame.SM A) handler (Q : A -> Prop) :
  keeps P h0 m Q -> (forall v, keeps P h0 (handler v) Q) -> keeps P h0 (Frame.stry m handler) Q.
Proof.
  intros Hm Hh h Hu. unfold Frame.stry. specialize (Hm h Hu).
  destruct (m h) as [[[a|v] h1]|]; [exact Hm| |exact I].
  exact (Hh v h1 Hm).
Qed.

Lemma keeps_weaken {A : Type} (m : Frame.SM A) (Q Q' : A -> Prop) :
  keeps P h0 m Q -> (forall a, Q a -> Q' a) -> keeps P h0 m Q'.
Proof.
  intros Hm Hq h Hu. specialize (Hm h Hu).
  destruct (m h) as [[[a|v] h1]|]; [|exact Hm|exact I].
  destruct Hm. auto.
Qed.

Lemma keeps_if {A : Type} (b : bool) (m1 m2 : Frame.SM A) Q :
  keeps P h0 m1 Q -> keeps P h0 m2 Q -> keeps P h0 (if b then m1 else m2) Q.
Proof. destruct b; auto. Qed.

(** A new object is none of the followed ones. *)
Lemma keeps_alloc o : keeps P h0 (Frame.alloc o) (fun l => l ∉ P).
Proof.
  intros h Hu. unfold Frame.alloc. cbn.
  assert (Hfresh : fresh (dom h) ∉ P).
  { intros Hin. apply (is_fresh (dom h)). now apply unchanged_in_dom. }
  split; [|exact Hfresh].
  intros l Hl. rewrite lookup_insert_ne; [exact (Hu l Hl)|].
  intros <-. exact (Hfresh Hl).
Qed.

Lemma keeps_read {A : Type} (f : gmap Frame.loc (gmap string Frame.JsVal) -> A) :
  keeps P h0 (fun h => Some (Frame.Ret (f h), h)) (fun _ => True).
Proof. intros h Hu. cbn. auto. Qed.

Lemma keeps_ownProps v : keeps P h0 (Frame.ownProps v) (fun _ => True).
Proof. intros h Hu. cbn. auto. Qed.

Lemma keeps_getField v k : keeps P h0 (Frame.getField v k) (fun _ => True).
Proof. intros h Hu. unfold Frame.getField. destruct v; cbn; auto. Qed.

Lemma keeps_getFieldOpt v k : keeps P h0 (Frame.getFieldOpt v k) (fun _ => True).
Proof.
  unfold Frame.getFieldOpt. destruct v; try apply keeps_getField; now apply keeps_ret.
Qed.

(** Writing to an object that is not followed. *)
Lemma keeps_setField l k v : l ∉ P -> keeps P h0 (Frame.setField l k v) (fun _ => True).
Proof.
  intros Hl h Hu. unfold Frame.setField. cbn. split; [|exact I].
  intros l' Hl'. rewrite lookup_alter_ne; [exact (Hu l' Hl')|].
  intros <-. exact (Hl Hl').
Qed.

Lemma keeps_deleteField l k : l ∉ P -> keeps P h0 (Frame.deleteField l k) (fun _ => True).
Proof.
  intros Hl h Hu. unfold Frame.deleteField. cbn. split; [|exact I].
  intros l' Hl'. rewrite lookup_alter_ne; [exact (Hu l' Hl')|].
  intros <-. exact (Hl Hl').
Qed.

Lemma keeps_forEach {A : Type} (l : list A) (f : A -> Frame.SM unit) :
  (forall x, keeps P h0 (f x) (fun _ => True)) -> keeps P h0 (Frame.forEach l f) (fun _ => True).
Proof.
  intros Hf. induction l as [|x l IH]; cbn [Frame.forEach].
  - now apply keeps_ret.
  - eapply keeps_bind; [apply Hf|]. intros _ _. exact IH.
Qed.

Lemma keeps_newObject sources own : keeps P h0 (Frame.newObject sources own) (fun l => l ∉ P).
Proof.
  unfold Frame.newObject.
  eapply keeps_bind with (Q := fun _ => True).
  - generalize (∅ : gmap string Frame.JsVal).
    induction sources as [|s sources IH]; intros acc.
    + now apply keeps_ret.
    + eapply keeps_bind; [apply keeps_ownProps|]. intros o _. apply IH.
  - intros copied _. apply keeps_alloc.
Qed.

End FrameRules.

Section FrameProgram.

Variable P : gset Frame.loc.
Variable h0 : gmap Frame.loc (gmap string Frame.JsVal).
Hypothesis covered : P ⊆ dom h0.

Variable ext : Frame.JsVal -> list Frame.JsVal -> gmap Frame.loc (gmap string Frame.JsVal)
               -> Frame.Outcome Frame.JsVal * gmap Frame.loc (gmap string Frame.JsVal).
Variable pure : string -> list Frame.JsVal -> Frame.JsVal.
Variable test : string -> list Frame.JsVal -> bool.
Variable entriesOf : Frame.JsVal -> gmap Frame.loc (gmap string Frame.JsVal)
                     -> list (string * string).
Variable keysOf : Frame.JsVal -> list string.
Variable fallbackOptions defaultOpts : Frame.loc.
Variable table fetchFn : Frame.JsVal.

(** The injected functions leave the followed objects as they are. *)
Hypothesis ext_keeps :
  forall f args h l, l ∈ P -> (ext f args h).2 !! l = h !! l.

Lemma keeps_extern f args : keeps P h0 (Frame.extern ext f args) (fun _ => True).
Proof.
  intros h Hu. unfold Frame.extern.
  pose proof (ext_keeps f args h) as Hk.
  destruct (ext f args h) as [[a|v] h1]; cbn in *.
  - split; [|exact I]. intros l Hl. rewrite (Hk l Hl). exact (Hu l Hl).
  - intros l Hl. rewrite (Hk l Hl). exact (Hu l Hl).
Qed.

Lemma keeps_callOpt f args : keeps P h0 (Frame.callOpt ext f args) (fun _ => True).
Proof.
  unfold Frame.callOpt. apply keeps_if; [now apply keeps_ret|].
  eapply keeps_bind; [apply keeps_extern|]. intros _ _. now apply keeps_ret.
Qed.

Ltac frame_ret :=
  match goal with
  | |- keeps _ _ (Frame.sret _) ?Q =>
      tryif is_evar Q
      then (apply keeps_ret with (Q := fun _ => True); exact I)
      else (apply keeps_ret; solve [auto])
  end.

Ltac frame_with known :=
  repeat first
    [ frame_ret
    | apply keeps_throw
    | known
    | apply keeps_getField
    | apply keeps_getFieldOpt
    | apply keeps_ownProps
    | apply keeps_read
    | apply (keeps_newObject P h0 covered)
    | apply (keeps_alloc P h0 covered)
    | apply keeps_setField; assumption
    | apply keeps_deleteField; assumption
    | apply keeps_extern
    | apply keeps_callOpt
    | apply keeps_forEach; intros ?
    | apply keeps_if
    | apply keeps_try; [|intros ?]
    | eapply keeps_bind; [|intros ? ?] ].

Ltac frame := frame_with fail.

Lemma keeps_mergeHeaders inits :
  keeps P h0 (Frame.mergeHeaders entriesOf inits) (fun l => l ∉ P).
Proof. unfold Frame.mergeHeaders. frame. Qed.

Lemma keeps_omit obj keys : keeps P h0 (Frame.omit obj keys) (fun l => l ∉ P).
Proof. unfold Frame.omit. frame. Qed.

Lemma keeps_resolveUrl options fetcherOpts input :
  keeps P h0 (Frame.resolveUrl ext pure keysOf defaultOpts options fetcherOpts input)
        (fun _ => True).
Proof. unfold Frame.resolveUrl. frame_with ltac:(apply keeps_omit). Qed.

Lemma keeps_validate schema data :
  keeps P h0 (Frame.validate ext pure test schema data) (fun _ => True).
Proof. unfold Frame.validate. frame. Qed.

Lemma keeps_sendAttempt options fetcherOpts request response :
  keeps P h0 (Frame.sendAttempt ext defaultOpts fetchFn options fetcherOpts request response)
        (fun _ => True).
Proof. unfold Frame.sendAttempt. frame_with ltac:(apply keeps_omit). Qed.

Lemma keeps_decideRetry options fetcherOpts attempt request response error :
  keeps P h0 (Frame.decideRetry ext pure test defaultOpts options fetcherOpts attempt
                           request response error)
        (fun _ => True).
Proof. unfold Frame.decideRetry. frame. Qed.

Lemma keeps_retryLoop fuel options fetcherOpts input attempt response error :
  options ∉ P ->
  keeps P h0 (Frame.retryLoop ext pure test keysOf defaultOpts fetchFn fuel options
                         fetcherOpts input attempt response error)
        (fun _ => True).
Proof.
  intros Hopt. revert attempt response error.
  induction fuel as [|fuel IH]; intros attempt response error; cbn [Frame.retryLoop].
  - intros h _. exact I.
  - frame_with ltac:(first [apply keeps_resolveUrl | apply keeps_sendAttempt
                             | apply keeps_decideRetry]).
    match goal with d : (option Frame.JsVal + Frame.JsVal)%type |- _ =>
      destruct d as [[e|]|a'] end; [frame|frame|apply IH].
Qed.

Lemma keeps_settle options fetcherOpts request response error :
  keeps P h0 (Frame.settle ext pure test defaultOpts options fetcherOpts request response error)
        (fun _ => True).
Proof. unfold Frame.settle. frame_with ltac:(apply keeps_validate). Qed.

Lemma keeps_enhance fuel input fetcherOpts :
  keeps P h0 (Frame.enhance ext pure test entriesOf keysOf fallbackOptions defaultOpts fetchFn
                       fuel input fetcherOpts)
        (fun _ => True).
Proof.
  unfold Frame.enhance.
  frame_with ltac:(first [apply keeps_mergeHeaders | apply keeps_settle
                         | apply keeps_retryLoop; assumption]).
Qed.

Lemma keeps_validateKey schemaDef currentOptions key :
  currentOptions ∉ P ->
  keeps P h0 (Frame.validateKey ext pure test schemaDef currentOptions key) (fun _ => True).
Proof. intros H. unfold Frame.validateKey. frame_with ltac:(apply keeps_validate). Qed.

Lemma keeps_fetcher fuel url fetcherOptions :
  keeps P h0 (Frame.fetcher ext pure test entriesOf keysOf fallbackOptions defaultOpts table
                       fetchFn fuel url fetcherOptions)
        (fun _ => True).
Proof.
  unfold Frame.fetcher.
  frame_with ltac:(first [apply keeps_validateKey; assumption | apply keeps_enhance]).
Qed.

End FrameProgram.

(** C10: a call writes to none of the objects that exist when it starts.
    On the object graph, where [{...x}] allocates and assignments update
    the object referred to, every object of the heap at call time (the
    caller's options object, the objects nested in it such as its [retry]
    and [headers], the options captured at client creation, the fallback
    options) holds after the call, however it completes, the properties it
    held before, provided the injected functions leave these objects as
    they are. *)
Theorem C10_call_leaves_existing_objects_unchanged :
  forall ext pure test entriesOf keysOf fallbackOptions defaultOpts table fetchFn
         (h0 : gmap Frame.loc (gmap string Frame.JsVal)) fuel url fetcherOptions,
    (forall f args h l, l ∈ dom h0 -> (ext f args h).2 !! l = h !! l) ->
    forall r h',
      Frame.fetcher ext pure test entriesOf keysOf fallbackOptions defaultOpts table
                    fetchFn fuel url fetcherOptions h0 = Some (r, h') ->
      forall l, l ∈ dom h0 -> h' !! l = h0 !! l.
Proof.
  intros ext pure test entriesOf keysOf fallbackOptions defaultOpts table fetchFn
         h0 fuel url fetcherOptions Hext r h' Hrun l Hl.
  assert (Hcov : dom h0 ⊆ dom h0) by set_solver.
  pose proof (keeps_fetcher (dom h0) h0 Hcov ext pure test entriesOf keysOf
                fallbackOptions defaultOpts table fetchFn Hext fuel url fetcherOptions
                h0 (fun _ _ => eq_refl)) as H.
  rewrite Hrun in H. destruct r as [a|v]; [destruct H as [H _]|]; exact (H l Hl).
Qed.

Lemma graphCall_run : Demo.graphCall = Some (Demo.graphOutcome, Demo.finalHeap).
Proof. vm_cast_no_check (eq_refl (Some (Demo.graphOutcome, Demo.finalHeap))). Qed.

(** The theorem on a heap holding the caller's options with nested [retry]
    and [headers] objects and the options of the client: after the call
    they hold what they held. *)
Lemma C10_witness :
  Demo.finalHeap !! 1%positive = Demo.heap !! 1%positive /\
  Demo.finalHeap !! 2%positive = Demo.heap !! 2%positive /\
  Demo.finalHeap !! 3%positive = Demo.heap !! 3%positive /\
  Demo.finalHeap !! 4%positive = Demo.heap !! 4%positive.
Proof.
  pose proof (C10_call_leaves_existing_objects_unchanged
                Demo.inert (fun _ _ => Frame.JOpaque 1%nat) (fun _ _ => false)
                (fun _ _ => [("x-a", "1"); ("x-b", "null")]) (fun _ => ["q"])
                6%positive 4%positive Frame.JUndefined (Frame.JOpaque 2%nat)
                Demo.heap 2%nat (Frame.JStr "/u/:id") (Frame.JRef 1%positive)
                (fun _ _ _ _ _ => eq_refl) Demo.graphOutcome Demo.finalHeap graphCall_run)
    as H.
  repeat split; apply H; apply elem_of_dom; eexists; vm_compute; reflexivity.
Defined.


(* ===================================================================== *)
(** ** Retrying until the transport answers *)
(* ===================================================================== *)

(** Rules for computations that return normally and leave the environment
    as it is. *)
Section RunsRules.
Context {St : Type}.

Lemma count_app p (a b : list Event) : count p (a ++ b) = (count p a + count p b)%nat.
Proof. induction a as [|x a IH]; cbn [count app]; [reflexivity|]. rewrite IH. lia. Qed.

Lemma marks_app (a b : list Event) : marks (a ++ b) = (marks a ++ marks b)%list.
Proof. apply flat_map_app. Qed.

Lemma occurrences_app m (a b : list Mark) :
  occurrences m (a ++ b) = (occurrences m a + occurrences m b)%nat.
Proof. induction a as [|x a IH]; cbn [occurrences app]; [reflexivity|]. rewrite IH. lia. Qed.

Lemma count_isFetch tr : count isFetch tr = occurrences MFetch (marks tr).
Proof.
  induction tr as [|ev tr IH]; [reflexivity|].
  change (marks (ev :: tr)) with (markOf ev ++ marks tr)%list.
  rewrite occurrences_app. cbn [count]. rewrite IH. f_equal.
  destruct ev as [?|h o|? ?]; [reflexivity| |reflexivity].
  destruct h, o; reflexivity.
Qed.

Lemma count_onRetry o tr :
  count (isHook OnRetry o) tr = occurrences (MRetry o) (marks tr).
Proof.
  induction tr as [|ev tr IH]; [reflexivity|].
  change (marks (ev :: tr)) with (markOf ev ++ marks tr)%list.
  rewrite occurrences_app. cbn [count]. rewrite IH. f_equal.
  destruct ev as [?|h o'|? ?]; [now destruct o| |now destruct o].
  destruct h, o', o; reflexivity.
Qed.

Lemma occurrences_retried {A B : Type} (dflt : option A) (own : option B) n :
  occurrences MFetch (retried dflt own n) = S n /\
  occurrences (MRetry DefaultOpts) (retried dflt own n) = fired dflt n /\
  occurrences (MRetry FetcherOpts) (retried dflt own n) = fired own n.
Proof.
  unfold retried. induction n as [|n (IH1 & IH2 & IH3)].
  - now destruct dflt, own.
  - cbn [repeat concat]. cbn [occurrences sameMark] in *.
    rewrite !occurrences_app.
    repeat split; destruct dflt, own; cbn [hookMark fired occurrences sameMark app] in *; lia.
Qed.

Lemma runs_ret {A : Type} (a : A) (Q : A -> list Event -> Prop) :
  Q a [] -> runs (St := St) (ret a) Q.
Proof.
  intros H w. exists a, [], (now w). split; [|exact H].
  unfold ret. rewrite app_nil_r. now destruct w.
Qed.

Lemma runs_bind {A B : Type} (m : M St A) (f : A -> M St B) Q R :
  runs m Q ->
  (forall a tr, Q a tr -> runs (f a) (fun b tr' => R b (tr ++ tr')%list)) ->
  runs (bind m f) R.
Proof.
  intros Hm Hf w. destruct (Hm w) as (a & tr & t1 & E & HQ).
  destruct (Hf a tr HQ {| env := env w; now := t1; trace := trace w ++ tr |})
    as (b & tr' & t2 & E' & HR).
  exists b, (tr ++ tr')%list, t2. split; [|exact HR].
  rewrite (bind_Normal _ _ _ _ _ E), E'. cbn [env trace]. now rewrite app_assoc.
Qed.

Lemma runs_weaken {A : Type} (m : M St A) (Q R : A -> list Event -> Prop) :
  runs m Q -> (forall a tr, Q a tr -> R a tr) -> runs m R.
Proof.
  intros Hm HQR w. destruct (Hm w) as (a & tr & t1 & E & HQ).
  exists a, tr, t1. auto.
Qed.

Lemma runs_then {A : Type} (m : M St A) Q w :
  runs m Q ->
  exists a tr t', Q a tr /\
    forall (B : Type) (k : A -> M St B),
      bind m k w = k a {| env := env w; now := t'; trace := (trace w ++ tr)%list |}.
Proof.
  intros Hm. destruct (Hm w) as (a & tr & t1 & E & HQ).
  exists a, tr, t1. split; [exact HQ|]. intros B k. exact (bind_Normal _ _ _ _ _ E).
Qed.

Lemma runs_call {A : Type} (f : Ext St A) (P : A -> Prop) :
  (forall s t, exists a d, f s t = (Normal a, s, d) /\ P a) ->
  runs (call f) (fun a tr => tr = [] /\ P a).
Proof.
  intros H w. destruct (H (env w) (now w)) as (a & d & E & HP).
  exists a, [], (now w + d)%nat. split; [|auto].
  rewrite (call_eq _ _ _ _ _ E), app_nil_r. reflexivity.
Qed.

Lemma runs_benign {A : Type} (f : Ext St A) :
  benign f -> runs (call f) (fun _ tr => tr = []).
Proof.
  intros H. eapply runs_weaken.
  - apply (runs_call f (fun _ => True)). intros s t.
    destruct (H s t) as (a & d & E). eauto.
  - now intros a tr [-> _].
Qed.

Lemma runs_emit ev : runs (St := St) (emit ev) (fun _ tr => tr = [ev]).
Proof. intros w. exists tt, [ev], (now w). auto. Qed.

Lemma runs_liftC {A : Type} (a : A) :
  runs (St := St) (liftC (Normal a)) (fun x tr => x = a /\ tr = []).
Proof.
  intros w. exists a, [], (now w). split; [|auto].
  unfold liftC. rewrite app_nil_r. now destruct w.
Qed.

Lemma runs_callHook h o (f : option (Ext St unit)) :
  (forall g, f = Some g -> benign g) ->
  runs (callHook h o f) (fun _ tr => tr = match f with Some _ => [EvHook h o] | None => [] end).
Proof.
  intros H. destruct f as [g|]; cbn [callHook].
  - eapply runs_bind; [apply runs_emit|]. intros _ tr ->.
    eapply runs_weaken; [apply runs_benign; now apply H|].
    now intros _ tr ->.
  - now apply runs_ret.
Qed.

Lemma benign_option_map {A : Type} (hook : option A) (F : A -> Ext St unit) :
  (forall f, hook = Some f -> benign (F f)) ->
  forall g, option_map F hook = Some g -> benign g.
Proof.
  intros H g Hg. destruct hook as [f|]; [|discriminate].
  injection Hg as <-. now apply H.
Qed.

Lemma runs_otherHook h o (f : option (Ext St unit)) :
  h <> OnRetry ->
  (forall g, f = Some g -> benign g) ->
  runs (callHook h o f) (fun _ tr => marks tr = []).
Proof.
  intros Hh H. eapply runs_weaken; [now apply runs_callHook|].
  intros _ tr ->. destruct f; [|reflexivity].
  destruct h, o; try reflexivity; now destruct Hh.
Qed.

Lemma runs_callRead {A : Type} what (f : Ext St A) (P : A -> Prop) :
  (forall s t, exists a d, f s t = (Normal a, s, d) /\ P a) ->
  runs (callRead what (Some f)) (fun a tr => tr = [] /\ P a).
Proof. apply runs_call. Qed.

Lemma runs_try_catch {A : Type} (m : M St A) h Q :
  runs m Q -> runs (try_catch m h) Q.
Proof.
  intros Hm w. destruct (Hm w) as (a & tr & t1 & E & HQ).
  exists a, tr, t1. split; [|exact HQ]. unfold try_catch. now rewrite E.
Qed.

Lemma runs_abortableDelay d sig :
  quiet sig -> runs (St := St) (abortableDelay d sig) (fun _ tr => tr = [EvSleep d sig]).
Proof.
  intros Hq w. exists tt, [EvSleep d sig], (now w + d)%nat. split; [|reflexivity].
  apply abortableDelay_completes. destruct sig as [s|]; [|exact I].
  cbn in Hq. now rewrite Hq.
Qed.

Lemma quiet_any t0 caller :
  quiet caller -> quiet (Some (AbortSignal_any t0 (filterSignals [caller; None]))).
Proof.
  destruct caller as [c|]; cbn; [|reflexivity].
  intros Hq. unfold AbortSignal_any, aborted, earlier. cbn. now rewrite Hq.
Qed.

Lemma runs_withTimeout (pf : Platform St) caller tmo :
  quiet caller ->
  AbortSignal_has_any pf = false \/ tmo = None \/ tmo = Some 0 ->
  runs (withTimeout pf caller tmo) (fun sig tr => tr = [] /\ quiet sig).
Proof.
  intros Hq Hno w. unfold withTimeout. destruct (AbortSignal_has_any pf).
  - destruct Hno as [Hno|[->| ->]]; [discriminate| |];
      (eexists _, [], (now w); rewrite app_nil_r; split;
       [unfold bind, clock, ret; cbn; destruct w; reflexivity
       |split; [reflexivity|now apply quiet_any]]).
  - exists caller, [], (now w). rewrite app_nil_r. split.
    + unfold ret. destruct w; reflexivity.
    + split; [reflexivity|exact Hq].
Qed.


Lemma runsIn_of_runs {A : Type} s (m : M St A) Q : runs m Q -> runsIn s m Q.
Proof.
  intros Hm w <-. exact (Hm w).
Qed.

Lemma runsIn_bind {A B : Type} s (m : M St A) (f : A -> M St B) Q R :
  runsIn s m Q ->
  (forall a tr, Q a tr -> runsIn s (f a) (fun b tr' => R b (tr ++ tr')%list)) ->
  runsIn s (bind m f) R.
Proof.
  intros Hm Hf w Hw. destruct (Hm w Hw) as (a & tr & t1 & E & HQ).
  destruct (Hf a tr HQ {| env := s; now := t1; trace := trace w ++ tr |} eq_refl)
    as (b & tr' & t2 & E' & HR).
  exists b, (tr ++ tr')%list, t2. split; [|exact HR].
  rewrite (bind_Normal _ _ _ _ _ E), E'. cbn [trace]. now rewrite app_assoc.
Qed.

Lemma runsIn_try_catch {A : Type} s (m : M St A) h Q :
  runsIn s m Q -> runsIn s (try_catch m h) Q.
Proof.
  intros Hm w Hw. destruct (Hm w Hw) as (a & tr & t1 & E & HQ).
  exists a, tr, t1. split; [|exact HQ]. unfold try_catch. now rewrite E.
Qed.

Lemma runsIn_call {A : Type} s (f : Ext St A) (P : A -> Prop) :
  (forall t, exists a d, f s t = (Normal a, s, d) /\ P a) ->
  runsIn s (call f) (fun a tr => tr = [] /\ P a).
Proof.
  intros H w <-. destruct (H (now w)) as (a & d & E & HP).
  exists a, [], (now w + d)%nat. split; [|auto].
  rewrite (call_eq _ _ _ _ _ E), app_nil_r. reflexivity.
Qed.

Lemma runsIn_then {A : Type} s (m : M St A) Q w :
  runsIn s m Q -> env w = s ->
  exists a tr t', Q a tr /\
    forall (B : Type) (k : A -> M St B),
      bind m k w = k a {| env := s; now := t'; trace := (trace w ++ tr)%list |}.
Proof.
  intros Hm Hw. destruct (Hm w Hw) as (a & tr & t1 & E & HQ).
  exists a, tr, t1. split; [exact HQ|]. intros B k. exact (bind_Normal _ _ _ _ _ E).
Qed.

End RunsRules.

(** The steps of a call in a cooperative environment. *)
Section CooperativeCall.

Context {St : Type}.
Variable pf : Platform St.
Variable fetchFn : FetchFn St.
Variable getDefaultOptions :
  Input -> option (FetcherOptions St) -> Ext St (FetcherOptions St).
Variable url : string.
Variable fetcherOpts : option (FetcherOptions St).
Variable defaultOpts : FetcherOptions St.
Variable whenFn : WhenContext -> Ext St bool.
Variable N : nat.
Variable left : St -> nat.
Hypothesis Hc :
  Cooperative pf fetchFn getDefaultOptions url fetcherOpts defaultOpts whenFn N left.

Variable serialized : Value.
Variable res : gmap string string.
Hypothesis Hres : wfHeaders res.

Lemma newRequest_accepted input (init : FetcherOptions St) :
  read (headers init) = Some (HeadersRecord res) ->
  exists request, newRequest pf input init = Normal request.
Proof.
  intros Hh. unfold newRequest. rewrite Hh, (Headers__record res Hres).
  cbn [bindC]. rewrite (coop_request _ _ _ _ _ _ _ _ _ Hc). eauto.
Qed.

Lemma runs_resolveUrl base dp fp f :
  (forall v, benign (f v)) ->
  runs (resolveUrl pf base url dp fp (Some f)) (fun _ tr => tr = []).
Proof.
  intros Hf. unfold resolveUrl.
  destruct (coop_url _ _ _ _ _ _ _ _ _ Hc url) as (keys & ->).
  eapply runs_bind; [apply runs_liftC|]. intros ? ? [-> ->].
  eapply runs_bind; [apply runs_benign, Hf|]. intros qs ? ->.
  now apply runs_ret.
Qed.

Lemma runs_openAttempt :
  runs (openAttempt pf (InputString url) fetcherOpts defaultOpts
          (prepared pf defaultOpts fetcherOpts serialized res))
       (fun opened tr =>
          tr = [] /\
          exists sig, quiet sig /\
            opened.1 = set_signal (prepared pf defaultOpts fetcherOpts serialized res)
                                  (slotOf sig)).
Proof.
  unfold openAttempt.
  change (read (timeout (prepared pf defaultOpts fetcherOpts serialized res)))
    with (read (timeout (mergeOptions pf defaultOpts fetcherOpts))).
  eapply runs_bind.
  { apply runs_withTimeout;
      [exact (coop_signal _ _ _ _ _ _ _ _ _ Hc)|exact (coop_no_timeout _ _ _ _ _ _ _ _ _ Hc)]. }
  intros sig ? [-> Hq].
  destruct (coop_serializeParams _ _ _ _ _ _ _ _ _ Hc) as (f & Hf & Hb).
  eapply (runs_bind _ _ (fun _ tr => tr = [])).
  { eapply runs_bind.
    - change (read (serializeParams (set_signal (prepared pf defaultOpts fetcherOpts serialized res) (slotOf sig))))
        with (read (serializeParams (mergeOptions pf defaultOpts fetcherOpts))).
      rewrite Hf. apply runs_resolveUrl, Hb.
    - intros u ? ->. apply runs_ret. reflexivity. }
  cbn beta. intros requestUrl ? ->.
  destruct (newRequest_accepted requestUrl
              (set_signal (prepared pf defaultOpts fetcherOpts serialized res) (slotOf sig))
              eq_refl) as (request & ->).
  eapply runs_bind; [apply runs_liftC|]. intros ? ? [-> ->].
  apply runs_ret. split; [reflexivity|]. exists sig. auto.
Qed.


Lemma sendAttempt_runs perTry request response w :
  exists tr t1,
    marks tr = [MFetch] /\
    forall o s' d,
      fetchFn request
        (set_headers (set_body perTry Absent)
                     (Present (HeadersRecord (rq_headers request))))
        (env w) t1 = (o, s', d) ->
      sendAttempt fetchFn fetcherOpts defaultOpts perTry request response w
      = Some (Normal (afterAttempt response o),
              {| env := s'; now := (t1 + d)%nat; trace := (trace w ++ tr)%list |}).
Proof.
  destruct (coop_onRequest _ _ _ _ _ _ _ _ _ Hc) as [Hd Hf].
  assert (H1 : runs (callHook OnRequest DefaultOpts
                       (option_map (fun f => f request) (read (onRequest defaultOpts))))
                    (fun _ tr => marks tr = [])).
  { apply runs_otherHook; [discriminate|]. apply benign_option_map.
    intros f E. now apply (Hd f). }
  assert (H2 : runs (callHook OnRequest FetcherOpts
                       (option_map (fun f => f request) (read (opt fetcherOpts onRequest))))
                    (fun _ tr => marks tr = [])).
  { apply runs_otherHook; [discriminate|]. apply benign_option_map.
    intros f E. now apply (Hf f). }
  unfold sendAttempt, try_catch.
  destruct (runs_then _ _ w H1) as (? & tr1 & t1 & T1 & ->).
  destruct (runs_then _ _ {| env := env w; now := t1; trace := (trace w ++ tr1)%list |} H2)
    as (? & tr2 & t2 & T2 & ->).
  destruct (runs_then _ _
              {| env := env w; now := t2; trace := ((trace w ++ tr1) ++ tr2)%list |}
              (runs_emit (EvFetch request))) as (? & tr3 & t3 & -> & ->).
  cbn [env now trace].
  exists (tr1 ++ tr2 ++ [EvFetch request])%list, t3. split.
  { now rewrite !marks_app, T1, T2. }
  intros o s' d E.
  pose proof (call_eq _ {| env := env w; now := t3;
                           trace := (((trace w ++ tr1) ++ tr2) ++ [EvFetch request])%list |}
                        _ _ _ E) as Ecall.
  cbn [env now trace] in Ecall. rewrite <- !app_assoc in *.
  destruct o as [r|e].
  - now rewrite (bind_Normal _ _ _ _ _ Ecall).
  - now rewrite (bind_Throw _ _ _ _ _ Ecall).
Qed.


Lemma read_slotOf {A : Type} (o : option A) : read (slotOf o) = o.
Proof. now destruct o. Qed.

Lemma runs_onRetry o (hook : option (RetryContext -> Ext St unit)) ctx :
  (forall f, hook = Some f -> forall c, benign (f c)) ->
  runs (callHook OnRetry o (option_map (fun f => f ctx) hook))
       (fun _ tr => tr = match hook with Some _ => [EvHook OnRetry o] | None => [] end).
Proof.
  intros H. eapply runs_weaken.
  - apply runs_callHook, benign_option_map. intros f E. now apply (H f).
  - intros _ tr ->. now destruct hook.
Qed.

Lemma runs_limit request :
  runs (match read (attempts (retryOf (retry (mergeOptions pf defaultOpts fetcherOpts))))
        with
        | Some (AttemptsFn f) => n <- call (f request) ;; ret (Some n)
        | Some (AttemptsNumber n) => ret (Some n)
        | None => ret None
        end)
       (fun l tr => l = Some (Z.of_nat N) /\ tr = []).
Proof.
  pose proof (coop_attempts _ _ _ _ _ _ _ _ _ Hc) as Hatt.
  destruct (read (attempts _)) as [[n|f]|]; [| |contradiction].
  - subst n. now apply runs_ret.
  - eapply runs_bind.
    + apply (runs_call _ (fun n => n = Z.of_nat N)). intros s t.
      destruct (Hatt request s t) as (d & E). eauto.
    + intros n ? [-> ->]. now apply runs_ret.
Qed.

Lemma runs_decideRetry_continue sig attempt request init response s t o s' d :
  quiet sig ->
  fetchFn request init s t = (o, s', d) ->
  failing o -> attempt + 1 <= Z.of_nat N ->
  runsIn s'
       (decideRetry fetcherOpts defaultOpts
          (set_signal (prepared pf defaultOpts fetcherOpts serialized res) (slotOf sig))
          attempt request (afterAttempt response o).1 (afterAttempt response o).2)
       (fun dec tr =>
          dec = Continue (attempt + 1) /\
          marks tr = (hookMark (read (onRetry defaultOpts)) DefaultOpts ++
                      hookMark (read (opt fetcherOpts onRetry)) FetcherOpts)%list).
Proof.
  intros Hq E Ho Hle. unfold decideRetry.
  change (retryOf (retry (set_signal (prepared pf defaultOpts fetcherOpts serialized res)
                                     (slotOf sig))))
    with (retryOf (retry (mergeOptions pf defaultOpts fetcherOpts))).
  rewrite (coop_when _ _ _ _ _ _ _ _ _ Hc).
  change (read (signal (set_signal (prepared pf defaultOpts fetcherOpts serialized res)
                                   (slotOf sig))))
    with (read (slotOf sig)).
  rewrite read_slotOf.
  cbn [option_map].
  pose proof (coop_attempts _ _ _ _ _ _ _ _ _ Hc) as Hatt.
  pose proof (coop_delay _ _ _ _ _ _ _ _ _ Hc) as Hdelay.
  destruct (coop_onRetry _ _ _ _ _ _ _ _ _ Hc) as [Hd Hf].
  apply runsIn_try_catch.
  eapply runsIn_bind.
  { apply (runsIn_call _ _ (fun b => b = true)). intros t'.
    destruct (coop_when_failed _ _ _ _ _ _ _ _ _ Hc _ _ response _ _ _ _ _ E Ho t')
      as (d' & E').
    eauto. }
  intros ? ? [-> ->]. cbn [negb].
  apply runsIn_of_runs.
  eapply runs_bind; [apply runs_limit|].
  intros ? ? [-> ->].
  destruct (Z.ltb_spec (Z.of_nat N) (attempt + 1)) as [Hlt|_]; [lia|].
  eapply (runs_bind _ _ (fun _ tr => tr = [])).
  { destruct (read (delay _)) as [[n|f]|].
    - now apply runs_ret.
    - eapply runs_bind; [apply runs_benign, Hdelay|]. intros n ? ->. now apply runs_ret.
    - now apply runs_ret. }
  intros dz ? ->.
  eapply runs_bind; [now apply runs_abortableDelay|]. intros _ ? ->.
  eapply runs_bind; [apply runs_onRetry, Hd|]. intros _ ? ->.
  eapply runs_bind; [apply runs_onRetry, Hf|]. intros _ ? ->.
  apply runs_ret. split; [reflexivity|].
  destruct (read (onRetry defaultOpts)), (read (opt fetcherOpts onRetry)); reflexivity.
Qed.

Lemma runs_decideRetry_break sig attempt request init response s t r s' d :
  fetchFn request init s t = (Normal r, s', d) ->
  rs_ok r = true -> Z.of_nat N < attempt + 1 ->
  runsIn s'
       (decideRetry fetcherOpts defaultOpts
          (set_signal (prepared pf defaultOpts fetcherOpts serialized res) (slotOf sig))
          attempt request (afterAttempt response (Normal r)).1
          (afterAttempt response (Normal r)).2)
       (fun dec tr => dec = Break /\ tr = []).
Proof.
  intros E Hr Hlt. unfold decideRetry.
  change (retryOf (retry (set_signal (prepared pf defaultOpts fetcherOpts serialized res)
                                     (slotOf sig))))
    with (retryOf (retry (mergeOptions pf defaultOpts fetcherOpts))).
  rewrite (coop_when _ _ _ _ _ _ _ _ _ Hc).
  cbn [option_map].
  apply runsIn_try_catch.
  eapply runsIn_bind.
  { apply (runsIn_call _ _ (fun _ => True)). intros t'.
    destruct (coop_when_succeeded _ _ _ _ _ _ _ _ _ Hc _ _ response _ _ _ _ _ E Hr t')
      as (b & d' & E').
    eauto. }
  intros again ? [-> _]. apply runsIn_of_runs. destruct again; cbn [negb].
  - eapply runs_bind; [apply runs_limit|].
    intros ? ? [-> ->].
    destruct (Z.ltb_spec (Z.of_nat N) (attempt + 1)) as [_|Hge]; [|lia].
    now apply runs_ret.
  - now apply runs_ret.
Qed.

Lemma retryLoop_counts k :
  forall fuel attempt response error (w : World St),
    left (env w) = k ->
    attempt + Z.of_nat k = Z.of_nat N ->
    (k < fuel)%nat ->
    exists st tr s' t',
      retryLoop pf fetchFn (InputString url) fetcherOpts defaultOpts
                (prepared pf defaultOpts fetcherOpts serialized res)
                fuel attempt response error w
      = Some (Normal st, {| env := s'; now := t'; trace := (trace w ++ tr)%list |}) /\
      (exists r, ls_response st = Some r /\ rs_ok r = true /\ answered fetchFn r) /\
      ls_error st = undefinedThrown /\
      marks tr = retried (read (onRetry defaultOpts)) (read (opt fetcherOpts onRetry)) k.
Proof.
  induction k as [|k IH]; intros fuel attempt response error w Hleft Hatt Hfuel;
    (destruct fuel as [|fuel]; [lia|]); cbn [retryLoop].
  - destruct (runs_then _ _ w runs_openAttempt)
      as ([perTry request] & ? & t0 & (-> & sig & Hq & Hp) & ->).
    cbn [fst snd] in *. subst perTry.
    destruct (sendAttempt_runs
                (set_signal (prepared pf defaultOpts fetcherOpts serialized res) (slotOf sig))
                request response
                {| env := env w; now := t0; trace := (trace w ++ [])%list |})
      as (tr1 & t1 & T1 & Hsend).
    cbn [env trace] in Hsend.
    destruct (coop_transport_succeeds _ _ _ _ _ _ _ _ _ Hc request
                (set_headers
                   (set_body (set_signal (prepared pf defaultOpts fetcherOpts serialized res)
                                         (slotOf sig)) Absent)
                   (Present (HeadersRecord (rq_headers request))))
                (env w) t1 Hleft) as (r & s' & d & E & Hok).
    rewrite (bind_Normal _ _ _ _ _ (Hsend _ _ _ E)).
    destruct (runsIn_then s' _ _
                {| env := s'; now := (t1 + d)%nat; trace := ((trace w ++ []) ++ tr1)%list |}
                (runs_decideRetry_break sig attempt _ _ response _ _ _ _ _ E Hok ltac:(lia))
                eq_refl)
      as (? & ? & t2 & (-> & ->) & ->).
    cbn [env trace]. unfold ret. rewrite !app_nil_r.
    eexists _, tr1, s', t2. split; [reflexivity|].
    cbn [ls_response ls_error afterAttempt fst snd].
    split; [exists r; repeat split; [exact Hok|]; do 6 eexists; exact E|].
    split; [reflexivity|].
    exact T1.
  - destruct (runs_then _ _ w runs_openAttempt)
      as ([perTry request] & ? & t0 & (-> & sig & Hq & Hp) & ->).
    cbn [fst snd] in *. subst perTry.
    destruct (sendAttempt_runs
                (set_signal (prepared pf defaultOpts fetcherOpts serialized res) (slotOf sig))
                request response
                {| env := env w; now := t0; trace := (trace w ++ [])%list |})
      as (tr1 & t1 & T1 & Hsend).
    cbn [env trace] in Hsend.
    destruct (coop_transport_fails _ _ _ _ _ _ _ _ _ Hc request
                (set_headers
                   (set_body (set_signal (prepared pf defaultOpts fetcherOpts serialized res)
                                         (slotOf sig)) Absent)
                   (Present (HeadersRecord (rq_headers request))))
                (env w) t1 ltac:(lia)) as (o & s' & d & E & Ho & Hl).
    rewrite (bind_Normal _ _ _ _ _ (Hsend _ _ _ E)).
    destruct (runsIn_then s' _ _
                {| env := s'; now := (t1 + d)%nat; trace := ((trace w ++ []) ++ tr1)%list |}
                (runs_decideRetry_continue sig attempt _ _ response _ _ _ _ _ Hq E Ho
                                           ltac:(lia))
                eq_refl)
      as (? & tr2 & t2 & (-> & T2) & ->).
    cbn [env trace].
    destruct (IH fuel (attempt + 1) (afterAttempt response o).1 (afterAttempt response o).2
                {| env := s'; now := t2; trace := (((trace w ++ []) ++ tr1) ++ tr2)%list |})
      as (st & tr3 & s'' & t3 & -> & Hresp & Herr & T3).
    { cbn [env]. lia. }
    { lia. }
    { lia. }
    cbn [trace]. rewrite !app_nil_r, <- !app_assoc.
    exists st, (tr1 ++ tr2 ++ tr3)%list, s'', t3.
    split; [reflexivity|]. split; [exact Hresp|]. split; [exact Herr|].
    rewrite !marks_app, T1, T2, T3. unfold retried. cbn [repeat concat app].
    now rewrite <- !app_assoc.
Qed.

Lemma runs_validate sch data :
  (forall v s t, exists out d,
      sch v s t = (Normal {| vr_issues := None; vr_value := out |}, s, d)) ->
  runs (validate pf sch data) (fun _ tr => tr = []).
Proof.
  intros H. unfold validate. eapply runs_bind.
  - apply (runs_call _ (fun result => vr_issues result = None)). intros s t.
    destruct (H data s t) as (out & d & E). eauto.
  - intros result ? [-> Hi]. rewrite Hi. now apply runs_ret.
Qed.

Lemma runs_settle st r :
  ls_response st = Some r -> rs_ok r = true -> answered fetchFn r ->
  ls_error st = undefinedThrown ->
  runs (settle pf fetcherOpts defaultOpts
               (prepared pf defaultOpts fetcherOpts serialized res) st)
       (fun _ tr => marks tr = []).
Proof.
  intros Hresp Hok Hans Herr. unfold settle. rewrite Herr, Hresp.
  cbn [truthyThrown undefinedThrown truthy].
  change (read (reject (prepared pf defaultOpts fetcherOpts serialized res)))
    with (read (reject (mergeOptions pf defaultOpts fetcherOpts))).
  change (read (parseResponse (prepared pf defaultOpts fetcherOpts serialized res)))
    with (read (parseResponse (mergeOptions pf defaultOpts fetcherOpts))).
  destruct (coop_reject _ _ _ _ _ _ _ _ _ Hc) as (rej & -> & Hrej).
  destruct (coop_parse _ _ _ _ _ _ _ _ _ Hc) as (parse & -> & Hparse).
  destruct (coop_onResponse _ _ _ _ _ _ _ _ _ Hc) as [Hrd Hrf].
  destruct (coop_onSuccess _ _ _ _ _ _ _ _ _ Hc) as [Hsd Hsf].
  cbn [option_map].
  apply runs_try_catch.
  eapply runs_bind.
  { apply (runs_callRead _ _ (fun b => b = false)). intros s t.
    destruct (Hrej r s t Hok) as (d & E). eauto. }
  intros ? ? [-> ->].
  eapply runs_bind.
  { apply runs_otherHook; [discriminate|]. apply benign_option_map.
    intros f E. now apply (Hrd f). }
  intros ? tr1 T1.
  eapply runs_bind.
  { apply runs_otherHook; [discriminate|]. apply benign_option_map.
    intros f E. now apply (Hrf f). }
  intros ? tr2 T2.
  eapply runs_bind; [now apply runs_benign, Hparse|]. intros parsed ? ->.
  eapply (runs_bind _ _ (fun _ tr => tr = [])).
  { destruct (read (opt fetcherOpts schema)) as [sch|] eqn:Hsch.
    - apply runs_validate. now apply (coop_schema _ _ _ _ _ _ _ _ _ Hc).
    - now apply runs_ret. }
  intros data ? ->.
  eapply runs_bind.
  { apply runs_otherHook; [discriminate|]. apply benign_option_map.
    intros f E. now apply (Hsd f). }
  intros ? tr3 T3.
  eapply runs_bind.
  { apply runs_otherHook; [discriminate|]. apply benign_option_map.
    intros f E. now apply (Hsf f). }
  intros ? tr4 T4.
  apply runs_ret. now rewrite !marks_app, T1, T2, T3, T4.
Qed.

Lemma runs_prepareOptions :
  runs (prepareOptions pf defaultOpts fetcherOpts)
       (fun options tr =>
          tr = [] /\
          exists data hs,
            wfHeaders hs /\ options = prepared pf defaultOpts fetcherOpts data hs).
Proof.
  unfold prepareOptions.
  eapply (runs_bind _ _ (fun _ tr => tr = [])).
  { destruct (isNullish (readValue (opt fetcherOpts body))) eqn:Hnull.
    - now apply runs_ret.
    - destruct (coop_body _ _ _ _ _ _ _ _ _ Hc) as [Hb|(f & -> & Hf)]; [congruence|].
      apply runs_benign, Hf. }
  intros data ? ->.
  destruct (coop_headers _ _ _ _ _ _ _ _ _ Hc) as (base & own & Hbase & Hown).
  assert (Hm : exists hs,
             mergeHeaders [Some (inferredContentType (readValue (opt fetcherOpts body)) data);
                           read (headers defaultOpts); read (opt fetcherOpts headers)]
             = Normal hs /\ wfHeaders hs).
  { unfold mergeHeaders. cbn [fold_left bindC].
    rewrite inferredContentType_spec, Hbase, Hown. cbn [bindC].
    eexists. split; [reflexivity|].
    repeat apply merge_round_wf; try (eapply Headers__wf; eassumption).
    - apply wfHeaders_empty.
    - eapply Headers__wf. apply inferredContentType_spec. }
  destruct Hm as (hs & -> & Hwf).
  eapply runs_bind; [apply runs_liftC|]. intros ? ? [-> ->].
  apply runs_ret. split; [reflexivity|]. exists data, hs. auto.
Qed.

End CooperativeCall.

(** C3, as amended.  A call of the enhanced fetch configured with
    [retry.attempts = N], whose retry predicate holds after every attempt
    the transport failed, against a transport that fails its next [N]
    invocations and answers the one after with an ok response, in an
    environment that plays along (hooks and injected functions that return
    normally, a caller's signal that never fires, no timeout at work, a
    response that parses and validates): given fuel for [N + 1] attempts
    the call returns its data; the transport is invoked exactly [N + 1]
    times and each registered [onRetry] hook fires exactly [N] times, the
    hooks firing between one invocation and the next. *)
Theorem C3_retries_until_transport_answers
        {St : Type} (pf : Platform St) (fetchFn : FetchFn St)
        (getDefaultOptions :
           Input -> option (FetcherOptions St) -> Ext St (FetcherOptions St))
        (url : string) (fetcherOpts : option (FetcherOptions St))
        (defaultOpts : FetcherOptions St) (whenFn : WhenContext -> Ext St bool)
        (N : nat) (left : St -> nat) (fuel : nat) (w : World St) :
  Cooperative pf fetchFn getDefaultOptions url fetcherOpts defaultOpts whenFn N left ->
  left (env w) = N ->
  (N < fuel)%nat ->
  exists data w' tr,
    enhance pf fetchFn getDefaultOptions fuel (InputString url) fetcherOpts w
    = Some (Normal data, w') /\
    trace w' = (trace w ++ tr)%list /\
    count isFetch tr = S N /\
    count (isHook OnRetry DefaultOpts) tr = fired (read (onRetry defaultOpts)) N /\
    count (isHook OnRetry FetcherOpts) tr = fired (read (opt fetcherOpts onRetry)) N /\
    marks tr = retried (read (onRetry defaultOpts)) (read (opt fetcherOpts onRetry)) N.
Proof.
  intros Hc Hleft Hfuel. unfold enhance.
  destruct (coop_defaults _ _ _ _ _ _ _ _ _ Hc (env w) (now w)) as (d0 & E0).
  rewrite (bind_Normal _ _ _ _ _ (call_eq _ _ _ _ _ E0)).
  destruct (runs_then _ _ {| env := env w; now := (now w + d0)%nat; trace := trace w |}
              (runs_prepareOptions _ _ _ _ _ _ _ _ _ Hc))
    as (options & ? & t1 & (-> & data & hs & Hwf & ->) & ->).
  cbn [env trace].
  destruct (retryLoop_counts _ _ _ _ _ _ _ _ _ Hc data hs Hwf N fuel 0 None undefinedThrown
              {| env := env w; now := t1; trace := (trace w ++ [])%list |})
    as (st & tr1 & s' & t2 & E1 & (r & Hresp & Hok & Hans) & Herr & T1);
    [exact Hleft|lia|exact Hfuel|].
  cbn [env trace] in E1. rewrite (bind_Normal _ _ _ _ _ E1).
  destruct (runs_settle _ _ _ _ _ _ _ _ _ Hc data hs st r Hresp Hok Hans Herr
              {| env := s'; now := t2; trace := ((trace w ++ []) ++ tr1)%list |})
    as (out & tr2 & t3 & -> & T2).
  cbn [env trace]. rewrite app_nil_r, <- app_assoc.
  exists out, {| env := s'; now := t3; trace := (trace w ++ tr1 ++ tr2)%list |}, (tr1 ++ tr2)%list.
  split; [reflexivity|]. split; [reflexivity|].
  assert (T : marks (tr1 ++ tr2)
              = retried (read (onRetry defaultOpts)) (read (opt fetcherOpts onRetry)) N).
  { now rewrite marks_app, T1, T2, app_nil_r. }
  rewrite count_isFetch, !count_onRetry, T.
  destruct (occurrences_retried (read (onRetry defaultOpts))
                                (read (opt fetcherOpts onRetry)) N) as (H1 & H2 & H3).
  auto.
Qed.

Lemma C3_witness :
  exists data w' tr,
    enhance (Demo.platform Demo.flaky) (Demo.scripted Demo.flaky)
            (fun _ _ => pureExt (Normal (Demo.hooked Absent))) 3
            (InputString "https://a.com/items")
            (Some (Demo.hooked (Present (staticRetry Demo.retryOnFailure 2 10))))
            Demo.start
    = Some (Normal data, w') /\
    trace w' = (trace Demo.start ++ tr)%list /\
    count isFetch tr = 3%nat /\
    count (isHook OnRetry DefaultOpts) tr = 2%nat /\
    count (isHook OnRetry FetcherOpts) tr = 2%nat /\
    marks tr = [MFetch; MRetry DefaultOpts; MRetry FetcherOpts; MFetch;
                MRetry DefaultOpts; MRetry FetcherOpts; MFetch].
Proof.
  apply (C3_retries_until_transport_answers
           (Demo.platform Demo.flaky) (Demo.scripted Demo.flaky)
           (fun _ _ => pureExt (Normal (Demo.hooked Absent)))
           "https://a.com/items"
           (Some (Demo.hooked (Present (staticRetry Demo.retryOnFailure 2 10))))
           (Demo.hooked Absent) Demo.retryOnFailure 2 Demo.remaining 3 Demo.start).
  - constructor.
    + intros s t. exists O. reflexivity.
    + reflexivity.
    + reflexivity.
    + exact I.
    + right. left. reflexivity.
    + exact I.
    + left. reflexivity.
    + exists ∅, ∅. split; reflexivity.
    + intros s. exists []. reflexivity.
    + eexists. split; [reflexivity|]. intros v s t. eexists _, _. reflexivity.
    + reflexivity.
    + split; intros f E; discriminate E.
    + split; intros f E; injection E as <-; intros c s t; eexists _, _; reflexivity.
    + split; intros f E; discriminate E.
    + split; intros f E; discriminate E.
    + intros request init response s t o s' d E Ho t'.
      unfold Demo.scripted in E. injection E as <- <- _.
      destruct s as [|[|[|[|s]]]]; cbn in Ho; try discriminate Ho;
        exists O; reflexivity.
    + intros request init response s t r s' d E Hr t'.
      unfold Demo.scripted in E. injection E as E <- _.
      eexists _, _. reflexivity.
    + eexists. split; [reflexivity|]. intros r s t Hr. exists O.
      cbn. now rewrite Hr.
    + eexists. split; [reflexivity|].
      intros r q (request & init & s & t & s' & d & E) Hr.
      unfold Demo.scripted in E. injection E as E _ _.
      destruct s as [|[|[|[|s]]]]; cbn in E; try discriminate E;
        injection E as <-; try discriminate Hr;
        intros s0 t0; eexists _, _; reflexivity.
    + intros sch E. discriminate E.
    + intros request init s t Hs.
      destruct s as [|[|s]]; [| |now destruct Hs];
        eexists _, _, _; (split; [reflexivity|]); split;
        first [exact I | reflexivity].
    + intros request init s t Hs.
      destruct s as [|[|[|[|s]]]]; try discriminate Hs;
        eexists _, _, _; split; reflexivity.
  - reflexivity.
  - lia.
Defined.

(** C3, as stated, fails: with [retry.attempts = 1], a retry delay of
    1000 ms, a predicate that holds after a failed attempt and a transport
    that throws once and then answers 200, a call whose caller aborts at
    instant 50, while the delay is pending, ends there with the reason of
    the abort, after a single invocation of the transport. *)
Lemma C3_counterexample :
  exists w',
    enhance (Demo.platform []) (Demo.scripted [Throw Demo.networkError;
                                               Normal (Demo.response 200 "null")])
            (fun _ _ => pureExt (Normal emptyOptions)) 2
            (InputString "https://a.com/items")
            (Some (Demo.fetcherOptions
                     (Present (staticRetry Demo.retryOnFailure 1 1000)) Absent
                     (Present {| sig_fires := Some 50%nat;
                                 sig_reason := ExnError "AbortError" "stop" |})))
            Demo.start
    = Some (Throw (TExn (ExnError "AbortError" "stop")), w') /\
    now w' = 50%nat /\
    count isFetch (trace w') = 1%nat.
Proof. eexists. vm_compute. repeat split; reflexivity. Qed.

(* ===================================================================== *)
(** ** enhance in any environment *)
(* ===================================================================== *)

(** Rules for computations that settle, whatever the injected functions
    do. *)

Section SettlesRules.
Context {St : Type}.

Lemma settles_ret {A : Type} (a : A) (Q : Completion A -> list Event -> Prop) :
  Q (Normal a) [] -> settles (St := St) (ret a) Q.
Proof. intros H w. exists (Normal a), w, []. now rewrite app_nil_r. Qed.

Lemma settles_throw {A : Type} e (Q : Completion A -> list Event -> Prop) :
  Q (Throw e) [] -> settles (St := St) (throw e) Q.
Proof. intros H w. exists (Throw e), w, []. now rewrite app_nil_r. Qed.

Lemma settles_liftC {A : Type} (c : Completion A) Q :
  Q c [] -> settles (St := St) (liftC c) Q.
Proof. intros H w. exists c, w, []. now rewrite app_nil_r. Qed.

Lemma settles_call {A : Type} (f : Ext St A) Q :
  (forall c, Q c []) -> settles (call f) Q.
Proof.
  intros H w. unfold call. destruct (f (env w) (now w)) as [[c s] d].
  eexists c, _, []. cbn [trace]. now rewrite app_nil_r.
Qed.

Lemma settles_call_result {A : Type} (f : Ext St A) (P : Completion A -> Prop) :
  (forall s t c s' d, f s t = (c, s', d) -> P c) ->
  settles (call f) (fun c tr => tr = [] /\ P c).
Proof.
  intros H w. unfold call. destruct (f (env w) (now w)) as [[c s] d] eqn:E.
  eexists c, _, []. cbn [trace]. rewrite app_nil_r. eauto.
Qed.

Lemma settles_callRead {A : Type} what (f : option (Ext St A)) Q :
  (forall c, Q c []) -> settles (callRead what f) Q.
Proof.
  intros H. destruct f as [g|]; cbn [callRead].
  - now apply settles_call.
  - now apply settles_throw.
Qed.

Lemma settles_emit ev (Q : Completion unit -> list Event -> Prop) :
  Q (Normal tt) [ev] -> settles (St := St) (emit ev) Q.
Proof. intros H w. eexists (Normal tt), _, [ev]. unfold emit. auto. Qed.

Lemma settles_clock (Q : Completion nat -> list Event -> Prop) :
  (forall t, Q (Normal t) []) -> settles (St := St) clock Q.
Proof. intros H w. exists (Normal (now w)), w, []. now rewrite app_nil_r. Qed.

Lemma settles_waitUntil t (Q : Completion unit -> list Event -> Prop) :
  Q (Normal tt) [] -> settles (St := St) (waitUntil t) Q.
Proof.
  intros H w. eexists (Normal tt), _, []. unfold waitUntil. cbn [trace].
  now rewrite app_nil_r.
Qed.

Lemma settles_bind {A B : Type} (m : M St A) (f : A -> M St B) Q R :
  settles m Q ->
  (forall a tr, Q (Normal a) tr -> settles (f a) (fun c tr' => R c (tr ++ tr')%list)) ->
  (forall e tr, Q (Throw e) tr -> R (Throw e) tr) ->
  settles (bind m f) R.
Proof.
  intros Hm Hf He w. destruct (Hm w) as ([a|e] & w1 & tr & E & T & HQ).
  - destruct (Hf a tr HQ w1) as (c & w2 & tr' & E' & T' & HR).
    exists c, w2, (tr ++ tr')%list. rewrite (bind_Normal _ _ _ _ _ E).
    split; [exact E'|]. split; [|exact HR]. now rewrite T', T, app_assoc.
  - exists (Throw e), w1, tr. rewrite (bind_Throw _ _ _ _ _ E). auto.
Qed.

Lemma settles_try_catch {A : Type} (m : M St A) h Q (R : Completion A -> list Event -> Prop) :
  settles m Q ->
  (forall a tr, Q (Normal a) tr -> R (Normal a) tr) ->
  (forall e tr, Q (Throw e) tr -> settles (h e) (fun c tr' => R c (tr ++ tr')%list)) ->
  settles (try_catch m h) R.
Proof.
  intros Hm Hn Hh w. destruct (Hm w) as ([a|e] & w1 & tr & E & T & HQ).
  - exists (Normal a), w1, tr. unfold try_catch. rewrite E. auto.
  - destruct (Hh e tr HQ w1) as (c & w2 & tr' & E' & T' & HR).
    exists c, w2, (tr ++ tr')%list. unfold try_catch. rewrite E.
    split; [exact E'|]. split; [|exact HR]. now rewrite T', T, app_assoc.
Qed.

Lemma settles_weaken {A : Type} (m : M St A) (Q R : Completion A -> list Event -> Prop) :
  settles m Q -> (forall c tr, Q c tr -> R c tr) -> settles m R.
Proof.
  intros Hm H w. destruct (Hm w) as (c & w1 & tr & E & T & HQ).
  exists c, w1, tr. auto.
Qed.

(** A hook that is set leaves its event in the trace, however it
    completes. *)
Lemma settles_callHook {A : Type} h o (hook : Slot A) (F : A -> Ext St unit) :
  settles (callHook h o (option_map F (read hook)))
          (fun _ tr => tr = whenb (registered hook) (EvHook h o)).
Proof.
  destruct hook as [| |g]; cbn [callHook read option_map registered whenb];
    [now apply settles_ret|now apply settles_ret|].
  eapply settles_bind.
  - apply (settles_emit _ (fun c tr => c = Normal tt /\ tr = [EvHook h o])). auto.
  - intros [] tr [_ ->]. apply settles_call. intros c. reflexivity.
  - intros e tr [H _]. discriminate H.
Qed.

Lemma extends_of_settles {A : Type} (m : M St A) Q : settles m Q -> extends m Q.
Proof.
  intros Hm w c w' E. destruct (Hm w) as (c1 & w1 & tr & E1 & T & HQ).
  rewrite E in E1. injection E1 as <- <-. eauto.
Qed.

Lemma extends_bind {A B : Type} (m : M St A) (f : A -> M St B) Q R :
  extends m Q ->
  (forall a tr, Q (Normal a) tr -> extends (f a) (fun c tr' => R c (tr ++ tr')%list)) ->
  (forall e tr, Q (Throw e) tr -> R (Throw e) tr) ->
  extends (bind m f) R.
Proof.
  intros Hm Hf He w c w' E. unfold bind in E.
  destruct (m w) as [[[a|e] w1]|] eqn:E1; [| |discriminate].
  - destruct (Hm _ _ _ E1) as (tr & T & HQ).
    destruct (Hf a tr HQ _ _ _ E) as (tr' & T' & HR).
    exists (tr ++ tr')%list. split; [|exact HR]. now rewrite T', T, app_assoc.
  - injection E as <- <-. destruct (Hm _ _ _ E1) as (tr & T & HQ). eauto.
Qed.

Lemma extends_weaken {A : Type} (m : M St A) (Q R : Completion A -> list Event -> Prop) :
  extends m Q -> (forall c tr, Q c tr -> R c tr) -> extends m R.
Proof.
  intros Hm H w c w' E. destruct (Hm _ _ _ E) as (tr & T & HQ). eauto.
Qed.


Lemma extends_ret {A : Type} (a : A) (Q : Completion A -> list Event -> Prop) :
  Q (Normal a) [] -> extends (St := St) (ret a) Q.
Proof. intros H. now apply extends_of_settles, settles_ret. Qed.

Lemma loopEvent_not_settle_hook tr h o :
  forallb isLoopEvent tr = true ->
  h <> OnRequest -> h <> OnRetry ->
  count (isHook h o) tr = O.
Proof.
  intros H H1 H2. induction tr as [|ev tr IH]; [reflexivity|].
  cbn [forallb] in H. apply andb_prop in H as [Hev Htr].
  cbn [count]. rewrite (IH Htr).
  destruct ev as [?|h' o'|? ?]; [now destruct h, o| |now destruct h, o].
  destruct h', o', h, o; try reflexivity; try discriminate Hev; congruence.
Qed.

Lemma settle_events b1 b2 b3 b4 b5 b6 :
  let tr := (whenb b1 (EvHook OnResponse DefaultOpts) ++
             whenb b2 (EvHook OnResponse FetcherOpts) ++
             whenb b3 (EvHook OnSuccess DefaultOpts) ++
             whenb b4 (EvHook OnSuccess FetcherOpts) ++
             whenb b5 (EvHook OnError DefaultOpts) ++
             whenb b6 (EvHook OnError FetcherOpts))%list in
  count isFetch tr = O /\
  (forall o, count (isHook OnRequest o) tr = O) /\
  (forall o, count (isHook OnRetry o) tr = O) /\
  count (isHook OnResponse DefaultOpts) tr = (if b1 then 1 else 0)%nat /\
  count (isHook OnResponse FetcherOpts) tr = (if b2 then 1 else 0)%nat /\
  count (isHook OnSuccess DefaultOpts) tr = (if b3 then 1 else 0)%nat /\
  count (isHook OnSuccess FetcherOpts) tr = (if b4 then 1 else 0)%nat /\
  count (isHook OnError DefaultOpts) tr = (if b5 then 1 else 0)%nat /\
  count (isHook OnError FetcherOpts) tr = (if b6 then 1 else 0)%nat.
Proof.
  destruct b1, b2, b3, b4, b5, b6; cbn; repeat split; now intros [].
Qed.

End SettlesRules.

Section AnyEnvironment.

Context {St : Type}.
Variable pf : Platform St.
Variable fetchFn : FetchFn St.
Variable fetcherOpts : option (FetcherOptions St).
Variable defaultOpts : FetcherOptions St.

Lemma settles_prepareOptions :
  settles (prepareOptions pf defaultOpts fetcherOpts)
          (fun c tr =>
             tr = [] /\
             forall o, c = Normal o ->
                       exists data hs, o = prepared pf defaultOpts fetcherOpts data hs).
Proof.
  unfold prepareOptions.
  eapply (settles_bind _ _ (fun _ tr => tr = [])).
  - destruct (isNullish _); [now apply settles_ret|now apply settles_callRead].
  - intros data ? ->.
    eapply (settles_bind _ _ (fun _ tr => tr = [])); [now apply settles_liftC| |].
    + intros hs ? ->. apply settles_ret. split; [reflexivity|].
      intros o E. injection E as <-. now exists data, hs.
    + intros e ? ->. split; [reflexivity|]. intros o E. discriminate E.
  - intros e ? ->. split; [reflexivity|]. intros o E. discriminate E.
Qed.

Lemma settles_withTimeout caller tmo :
  settles (withTimeout pf caller tmo) (fun _ tr => tr = []).
Proof.
  unfold withTimeout. destruct (AbortSignal_has_any pf); [|now apply settles_ret].
  eapply (settles_bind _ _ (fun _ tr => tr = [])); [now apply settles_clock| |auto].
  intros t0 ? ->.
  eapply (settles_bind _ _ (fun _ tr => tr = [])); [| |auto].
  - destruct tmo as [ms|]; [|now apply settles_ret].
    destruct (ms =? 0); [now apply settles_ret|].
    destruct (ms <? 0); [now apply settles_throw|now apply settles_ret].
  - intros tsig ? ->. now apply settles_ret.
Qed.

Lemma settles_resolveUrl base inputStr dp fp sp :
  settles (resolveUrl pf base inputStr dp fp sp) (fun _ tr => tr = []).
Proof.
  unfold resolveUrl.
  eapply (settles_bind _ _ (fun _ tr => tr = [])); [now apply settles_liftC| |auto].
  intros keys ? ->.
  eapply (settles_bind _ _ (fun _ tr => tr = [])); [now apply settles_callRead| |auto].
  intros qs ? ->. now apply settles_ret.
Qed.

Lemma settles_openAttempt input options :
  settles (openAttempt pf input fetcherOpts defaultOpts options)
          (fun c tr =>
             tr = [] /\
             forall opened, c = Normal opened ->
                            exists sig, opened.1 = set_signal options (slotOf sig)).
Proof.
  unfold openAttempt.
  eapply settles_bind; [apply settles_withTimeout| |].
  - intros sig ? ->.
    eapply (settles_bind _ _ (fun _ tr => tr = [])).
    + destruct input as [s|href|r].
      * eapply (settles_bind _ _ (fun _ tr => tr = []));
          [apply settles_resolveUrl| |auto].
        intros u ? ->. now apply settles_ret.
      * eapply (settles_bind _ _ (fun _ tr => tr = []));
          [apply settles_resolveUrl| |auto].
        intros u ? ->. now apply settles_ret.
      * now apply settles_ret.
    + intros requestUrl ? ->.
      eapply (settles_bind _ _ (fun _ tr => tr = [])); [now apply settles_liftC| |].
      * intros request ? ->. apply settles_ret. split; [reflexivity|].
        intros opened E. injection E as <-. now exists sig.
      * intros e ? ->. split; [reflexivity|]. intros ? E. discriminate E.
    + intros e ? ->. split; [reflexivity|]. intros ? E. discriminate E.
  - intros e ? ->. split; [reflexivity|]. intros ? E. discriminate E.
Qed.

(** An attempt always completes normally: it leaves the events of the
    request hooks that were called and, if they returned, of the one
    invocation of the transport; the response it leaves is the one it
    started with, or the answer of the transport. *)
Lemma settles_sendAttempt perTry request response :
  settles (sendAttempt fetchFn fetcherOpts defaultOpts perTry request response)
          (fun c tr =>
             exists sent, c = Normal sent /\
               (exists a b f,
                   tr = (whenb a (EvHook OnRequest DefaultOpts) ++
                         whenb b (EvHook OnRequest FetcherOpts) ++
                         whenb f (EvFetch request))%list /\
                   (f = true -> a = registered (onRequest defaultOpts) /\
                                b = registered (opt fetcherOpts onRequest))) /\
               (sent.1 = response \/
                exists r, sent = (Some r, undefinedThrown) /\ answered fetchFn r)).
Proof.
  unfold sendAttempt.
  eapply (settles_try_catch _ _
            (fun c tr =>
               (exists a b f,
                   tr = (whenb a (EvHook OnRequest DefaultOpts) ++
                         whenb b (EvHook OnRequest FetcherOpts) ++
                         whenb f (EvFetch request))%list /\
                   (f = true -> a = registered (onRequest defaultOpts) /\
                                b = registered (opt fetcherOpts onRequest))) /\
               forall sent, c = Normal sent ->
                            exists r, sent = (Some r, undefinedThrown) /\
                                      answered fetchFn r)).
  - eapply settles_bind; [apply settles_callHook| |].
    + intros _ ? ->.
      eapply settles_bind; [apply settles_callHook| |].
      * intros _ ? ->.
        eapply (settles_bind _ _ (fun _ tr => tr = [EvFetch request]));
          [now apply settles_emit| |].
        -- intros _ ? ->. intros w. unfold bind, call, ret.
           destruct (fetchFn request _ (env w) (now w)) as [[[r|e] s'] d] eqn:E.
           ++ eexists _, _, []. split; [reflexivity|]. cbn [trace].
              split; [now rewrite app_nil_r|]. split.
              ** exists (registered (onRequest defaultOpts)),
                   (registered (opt fetcherOpts onRequest)), true.
                 rewrite app_nil_r. now split.
              ** intros sent H. injection H as <-. exists r. split; [reflexivity|].
                 do 6 eexists. exact E.
           ++ eexists _, _, []. split; [reflexivity|]. cbn [trace].
              split; [now rewrite app_nil_r|]. split.
              ** exists (registered (onRequest defaultOpts)),
                   (registered (opt fetcherOpts onRequest)), true.
                 rewrite app_nil_r. now split.
              ** intros sent H. discriminate H.
        -- intros e ? ->. split; [|intros ? H; discriminate H].
           exists (registered (onRequest defaultOpts)),
             (registered (opt fetcherOpts onRequest)), true. now split.
      * intros e ? ->. split; [|intros ? H; discriminate H].
        eexists _, _, false. cbn [whenb]. rewrite app_nil_r. split; [reflexivity|].
        discriminate.
    + intros e ? ->. split; [|intros ? H; discriminate H].
      eexists _, false, false. cbn [whenb]. rewrite app_nil_r. split; [reflexivity|].
      discriminate.
  - intros sent tr [Hs Ha]. exists sent. split; [reflexivity|]. split; [exact Hs|].
    right. now apply Ha.
  - intros e tr [Hs _]. apply settles_ret. eexists. split; [reflexivity|].
    rewrite app_nil_r. split; [exact Hs|]. now left.
Qed.


Lemma settles_abortableDelay d sig :
  settles (St := St) (abortableDelay d sig) (fun _ tr => tr = [EvSleep d sig]).
Proof.
  unfold abortableDelay.
  eapply (settles_bind _ _ (fun _ tr => tr = [EvSleep d sig]));
    [now apply settles_emit| |now intros ? ? ->].
  intros _ ? ->.
  eapply (settles_bind _ _ (fun _ tr => tr = []));
    [now apply settles_clock| |now intros ? ? ->].
  intros t0 ? ->.
  destruct sig as [s|]; [|now apply settles_waitUntil].
  destruct (sig_fires s) as [t|]; [|now apply settles_waitUntil].
  destruct (_ && _); [|now apply settles_waitUntil].
  eapply (settles_bind _ _ (fun _ tr => tr = []));
    [now apply settles_waitUntil| |now intros ? ? ->].
  intros _ ? ->. now apply settles_throw.
Qed.

(** The decision always completes normally.  It leaves the events of the
    delay and of the retry hooks that were called; these are reached only
    below the limit of a static [attempts], and a decision to continue
    counts one more attempt. *)
Lemma settles_decideRetry perTry attempt request response error :
  settles (decideRetry fetcherOpts defaultOpts perTry attempt request response error)
          (fun c tr =>
             exists dec, c = Normal dec /\
               (exists a b f ms,
                   tr = (whenb a (EvSleep ms (read (signal perTry))) ++
                         whenb b (EvHook OnRetry DefaultOpts) ++
                         whenb f (EvHook OnRetry FetcherOpts))%list /\
                   forall N,
                     read (attempts (retryOf (retry perTry))) = Some (AttemptsNumber N) ->
                     a || b || f = true -> attempt + 1 <= N) /\
               forall a', dec = Continue a' ->
                          a' = attempt + 1 /\
                          forall N,
                            read (attempts (retryOf (retry perTry)))
                            = Some (AttemptsNumber N) ->
                            attempt + 1 <= N).
Proof.
  unfold decideRetry.
  set (shape := fun (limited : Prop) (tr : list Event) =>
                  exists a b f ms,
                    tr = (whenb a (EvSleep ms (read (signal perTry))) ++
                          whenb b (EvHook OnRetry DefaultOpts) ++
                          whenb f (EvHook OnRetry FetcherOpts))%list /\
                    (a || b || f = true -> limited)).
  set (below := forall N,
                  read (attempts (retryOf (retry perTry))) = Some (AttemptsNumber N) ->
                  attempt + 1 <= N).
  assert (Hshape : forall tr, shape below tr ->
             exists a b f ms,
               tr = (whenb a (EvSleep ms (read (signal perTry))) ++
                     whenb b (EvHook OnRetry DefaultOpts) ++
                     whenb f (EvHook OnRetry FetcherOpts))%list /\
               forall N,
                 read (attempts (retryOf (retry perTry))) = Some (AttemptsNumber N) ->
                 a || b || f = true -> attempt + 1 <= N).
  { intros tr (a & b & f & ms & -> & H). exists a, b, f, ms. split; [reflexivity|].
    intros N HN Habf. now apply H. }
  assert (Hnil : shape below []).
  { exists false, false, false, O. split; [reflexivity|]. discriminate. }
  eapply (settles_try_catch _ _
            (fun c tr =>
               shape below tr /\
               forall dec, c = Normal dec ->
                           forall a', dec = Continue a' -> a' = attempt + 1 /\ below)).
  - eapply (settles_bind _ _ (fun _ tr => tr = [])); [now apply settles_callRead| |].
    + intros again ? ->. destruct again; cbn [negb].
      2:{ apply settles_ret. split; [exact Hnil|]. intros dec E a' H.
          injection E as <-. discriminate H. }
      eapply (settles_bind _ _
                (fun c tr => tr = [] /\
                             forall l, c = Normal l ->
                                       forall N, read (attempts (retryOf (retry perTry)))
                                                 = Some (AttemptsNumber N) ->
                                                 l = Some N)).
      * destruct (read (attempts (retryOf (retry perTry)))) as [[n|f]|].
        -- apply settles_ret. split; [reflexivity|]. intros l E N HN.
           injection E as <-. now injection HN as <-.
        -- eapply (settles_bind _ _ (fun _ tr => tr = []));
             [now apply settles_call| |].
           ++ intros n ? ->. apply settles_ret. split; [reflexivity|].
              intros l E N HN. discriminate HN.
           ++ intros e ? ->. split; [reflexivity|]. intros l E. discriminate E.
        -- apply settles_ret. split; [reflexivity|]. intros l E N HN. discriminate HN.
      * intros limit ? [-> Hlimit].
        destruct (match limit with Some n => n <? attempt + 1 | None => false end) eqn:Hex.
        { apply settles_ret. split; [exact Hnil|]. intros dec E a' H.
          injection E as <-. discriminate H. }
        assert (Hbelow : below).
        { intros N HN. rewrite (Hlimit limit eq_refl N HN) in Hex.
          apply Z.ltb_ge in Hex. exact Hex. }
        eapply (settles_bind _ _ (fun _ tr => tr = [])).
        -- destruct (read (delay (retryOf (retry perTry)))) as [[n|f]|];
             [now apply settles_ret| |now apply settles_ret].
           eapply (settles_bind _ _ (fun _ tr => tr = []));
             [now apply settles_call| |auto].
           intros n ? ->. now apply settles_ret.
        -- intros ms ? ->.
           eapply settles_bind; [apply settles_abortableDelay| |].
           ++ intros _ ? ->.
              eapply settles_bind; [apply settles_callHook| |].
              ** intros _ ? ->.
                 eapply settles_bind; [apply settles_callHook| |].
                 --- intros _ ? ->. apply settles_ret. split.
                     +++ eexists true, _, _, _.
                         split; [cbn [whenb app]; now rewrite ?app_nil_r|].
                         intros _. exact Hbelow.
                     +++ intros dec E a' H. injection E as <-. injection H as <-.
                         split; [reflexivity|exact Hbelow].
                 --- intros e ? ->. split; [|intros ? E; discriminate E].
                     eexists true, _, _, _.
                     split; [cbn [whenb app]; now rewrite ?app_nil_r|].
                     intros _. exact Hbelow.
              ** intros e ? ->. split; [|intros ? E; discriminate E].
                 eexists true, _, false, _.
                 split; [cbn [whenb app]; now rewrite ?app_nil_r|].
                 intros _. exact Hbelow.
           ++ intros e ? ->. split; [|intros ? E; discriminate E].
              eexists true, false, false, _.
              split; [cbn [whenb app]; now rewrite ?app_nil_r|].
              intros _. exact Hbelow.
        -- intros e ? ->. split; [exact Hnil|]. intros ? E. discriminate E.
      * intros e ? [-> _]. split; [exact Hnil|]. intros ? E. discriminate E.
    + intros e ? ->. split; [exact Hnil|]. intros ? E. discriminate E.
  - intros dec tr [Hs Hd]. exists dec. split; [reflexivity|]. split; [now apply Hshape|].
    intros a' H. destruct (Hd dec eq_refl a' H) as [-> Hb]. split; [reflexivity|exact Hb].
  - intros e tr [Hs _]. apply settles_ret. eexists. split; [reflexivity|].
    rewrite app_nil_r. split; [now apply Hshape|]. intros a' H. discriminate H.
Qed.


Lemma settles_validate sch data :
  settles (validate pf sch data) (fun _ tr => tr = []).
Proof.
  unfold validate.
  eapply (settles_bind _ _ (fun _ tr => tr = []));
    [now apply settles_call| |now intros ? ? ->].
  intros result ? ->. destruct (vr_issues result); [|now apply settles_ret].
  eapply (settles_bind _ _ (fun _ tr => tr = []));
    [now apply settles_liftC| |now intros ? ? ->].
  intros e ? ->. now apply settles_throw.
Qed.

(** What follows the loop leaves the events of the hooks it called: when
    it completes normally, every response and success hook that is set has
    been called once, in this order, and no error hook has been called. *)
Lemma settles_settle options st :
  settles (settle pf fetcherOpts defaultOpts options st)
          (fun c tr =>
             exists b1 b2 b3 b4 b5 b6,
               tr = (whenb b1 (EvHook OnResponse DefaultOpts) ++
                     whenb b2 (EvHook OnResponse FetcherOpts) ++
                     whenb b3 (EvHook OnSuccess DefaultOpts) ++
                     whenb b4 (EvHook OnSuccess FetcherOpts) ++
                     whenb b5 (EvHook OnError DefaultOpts) ++
                     whenb b6 (EvHook OnError FetcherOpts))%list /\
               (isNormal c = true ->
                b1 = registered (onResponse defaultOpts) /\
                b2 = registered (opt fetcherOpts onResponse) /\
                b3 = registered (onSuccess defaultOpts) /\
                b4 = registered (opt fetcherOpts onSuccess) /\
                b5 = false /\ b6 = false)).
Proof.
  unfold settle.
  eapply (settles_try_catch _ _
            (fun c tr =>
               exists b1 b2 b3 b4,
                 tr = (whenb b1 (EvHook OnResponse DefaultOpts) ++
                       whenb b2 (EvHook OnResponse FetcherOpts) ++
                       whenb b3 (EvHook OnSuccess DefaultOpts) ++
                       whenb b4 (EvHook OnSuccess FetcherOpts))%list /\
                 (isNormal c = true ->
                  b1 = registered (onResponse defaultOpts) /\
                  b2 = registered (opt fetcherOpts onResponse) /\
                  b3 = registered (onSuccess defaultOpts) /\
                  b4 = registered (opt fetcherOpts onSuccess)))).
  - destruct (truthyThrown (ls_error st)).
    { apply settles_throw. exists false, false, false, false.
      split; [reflexivity|discriminate]. }
    eapply (settles_bind _ _ (fun _ tr => tr = [])); [now apply settles_callRead| |].
    2:{ intros e ? ->. exists false, false, false, false.
        split; [reflexivity|discriminate]. }
    intros rejected ? ->. destruct rejected.
    { eapply (settles_bind _ _ (fun _ tr => tr = [])); [now apply settles_callRead| |].
      - intros e ? ->. apply settles_throw. exists false, false, false, false.
        split; [reflexivity|discriminate].
      - intros e ? ->. exists false, false, false, false.
        split; [reflexivity|discriminate]. }
    eapply settles_bind; [apply settles_callHook| |].
    2:{ intros e ? ->. eexists _, false, false, false.
        split; [cbn [whenb app]; now rewrite ?app_nil_r|discriminate]. }
    intros _ ? ->.
    eapply settles_bind; [apply settles_callHook| |].
    2:{ intros e ? ->. eexists _, _, false, false.
        split; [cbn [whenb app]; now rewrite ?app_nil_r|discriminate]. }
    intros _ ? ->.
    eapply (settles_bind _ _ (fun _ tr => tr = [])); [now apply settles_callRead| |].
    2:{ intros e ? ->. eexists _, _, false, false.
        split; [cbn [whenb app]; now rewrite ?app_nil_r|discriminate]. }
    intros parsed ? ->.
    eapply (settles_bind _ _ (fun _ tr => tr = [])).
    { destruct (read (opt fetcherOpts schema)); [apply settles_validate|now apply settles_ret]. }
    2:{ intros e ? ->. eexists _, _, false, false.
        split; [cbn [whenb app]; now rewrite ?app_nil_r|discriminate]. }
    intros data ? ->.
    eapply settles_bind; [apply settles_callHook| |].
    2:{ intros e ? ->. eexists _, _, _, false.
        split; [cbn [whenb app]; now rewrite ?app_nil_r|discriminate]. }
    intros _ ? ->.
    eapply settles_bind; [apply settles_callHook| |].
    2:{ intros e ? ->. eexists _, _, _, _.
        split; [cbn [whenb app]; now rewrite ?app_nil_r|discriminate]. }
    intros _ ? ->. apply settles_ret.
    eexists _, _, _, _. split; [cbn [whenb app]; now rewrite ?app_nil_r|].
    intros _. repeat split.
  - intros a tr (b1 & b2 & b3 & b4 & -> & H).
    exists b1, b2, b3, b4, false, false.
    split; [cbn [whenb app]; now rewrite ?app_nil_r|].
    intros Hn. destruct (H Hn) as (-> & -> & -> & ->). repeat split.
  - intros e tr (b1 & b2 & b3 & b4 & -> & _).
    eapply settles_bind; [apply settles_callHook| |].
    2:{ intros e' ? ->. eexists b1, b2, b3, b4, _, false.
        split; [cbn [whenb app]; now rewrite <- ?app_assoc, ?app_nil_r|discriminate]. }
    intros _ ? ->.
    eapply settles_bind; [apply settles_callHook| |].
    2:{ intros e' ? ->. eexists b1, b2, b3, b4, _, _.
        split; [cbn [whenb app]; now rewrite <- ?app_assoc, ?app_nil_r|discriminate]. }
    intros _ ? ->. apply settles_throw.
    eexists b1, b2, b3, b4, _, _.
    split; [cbn [whenb app]; now rewrite <- ?app_assoc, ?app_nil_r|discriminate].
Qed.


Lemma request_events a b f request :
  let tr := (whenb a (EvHook OnRequest DefaultOpts) ++
             whenb b (EvHook OnRequest FetcherOpts) ++
             whenb f (EvFetch request))%list in
  forallb isLoopEvent tr = true /\
  (count isFetch tr <= 1)%nat /\
  forall o, count (isHook OnRetry o) tr = O.
Proof.
  destruct a, b, f; cbn; repeat split; try lia; now intros [].
Qed.

Lemma retry_events a b f ms sig :
  let tr := (whenb a (EvSleep ms sig) ++
             whenb b (EvHook OnRetry DefaultOpts) ++
             whenb f (EvHook OnRetry FetcherOpts))%list in
  forallb isLoopEvent tr = true /\
  count isFetch tr = O /\
  count (isHook OnRetry DefaultOpts) tr = (if b then 1 else 0)%nat /\
  count (isHook OnRetry FetcherOpts) tr = (if f then 1 else 0)%nat.
Proof.
  destruct a, b, f; cbn; repeat split.
Qed.

(** With a static [attempts], the loop settles within the attempts that
    are left, and invokes the transport and the retry hooks no more often
    than that allows. *)
Lemma retryLoop_bound input options N :
  read (attempts (retryOf (retry options))) = Some (AttemptsNumber N) ->
  forall k fuel attempt response error,
    (Z.to_nat (N - attempt) <= k)%nat ->
    (k < fuel)%nat ->
    settles (retryLoop pf fetchFn input fetcherOpts defaultOpts options
                       fuel attempt response error)
            (fun _ tr =>
               forallb isLoopEvent tr = true /\
               (count isFetch tr <= k + 1)%nat /\
               (count (isHook OnRetry DefaultOpts) tr <= k)%nat /\
               (count (isHook OnRetry FetcherOpts) tr <= k)%nat).
Proof.
  intros HN. induction k as [|k IH]; intros fuel attempt response error Hk Hfuel;
    (destruct fuel as [|fuel]; [lia|]); cbn [retryLoop].
  all: eapply settles_bind;
    [apply settles_openAttempt| |intros e ? [-> _]; cbn; repeat split; lia].
  all: intros [perTry request] ? [-> Hopen];
    destruct (Hopen _ eq_refl) as (sig & Hp); cbn [fst snd] in *; subst perTry.
  all: eapply settles_bind; [apply settles_sendAttempt| |];
    [|intros e ? (sent & H & _); discriminate H].
  all: intros sent tr1 (? & [= <-] & (a & b & f & E1 & _) & _).
  all: pose proof (request_events a b f request) as H1; cbn zeta in H1;
    rewrite <- E1 in H1; destruct H1 as (L1 & F1 & R1); clear E1 a b f.
  all: eapply settles_bind; [apply settles_decideRetry| |];
    [|intros e ? (dec & H & _); discriminate H].
  all: intros decision tr2 (? & [= <-] & (a2 & b2 & f2 & ms & E2 & Hlim) & Hcont).
  all: pose proof (retry_events a2 b2 f2 ms
                     (read (signal (set_signal options (slotOf sig))))) as H2;
    cbn zeta in H2; rewrite <- E2 in H2; destruct H2 as (L2 & F2 & RD & RF); clear E2.
  all: specialize (Hlim N HN).
  - assert (Hq : a2 || b2 || f2 = false).
    { destruct (a2 || b2 || f2); [|reflexivity]. specialize (Hlim eq_refl). lia. }
    assert (b2 = false /\ f2 = false) as [-> ->] by (destruct a2, b2, f2; auto).
    destruct decision as [| |a'].
    3:{ destruct (Hcont a' eq_refl) as [_ H]. specialize (H N HN). lia. }
    all: apply settles_ret; rewrite ?app_nil_r, !forallb_app, !count_app, L1, L2, F2, RD, RF,
           !R1; cbn [app forallb count andb]; repeat split; lia.
  - destruct decision as [| |a'].
    3:{ destruct (Hcont a' eq_refl) as [-> H]. specialize (H N HN).
        eapply settles_weaken; [apply (IH fuel); lia|].
        intros c tr (L3 & F3 & RD3 & RF3).
        rewrite !forallb_app, !count_app, L1, L2, L3, F2, RD, RF, !R1.
        cbn [app forallb count andb]. repeat split; destruct b2, f2; lia. }
    all: apply settles_ret; rewrite ?app_nil_r, !forallb_app, !count_app, L1, L2, F2, RD, RF,
           !R1; cbn [app forallb count andb]; repeat split; destruct b2, f2; lia.
Qed.

End AnyEnvironment.

Lemma settles_enhance_bound
      {St : Type} (pf : Platform St) (fetchFn : FetchFn St)
      (getDefaultOptions :
         Input -> option (FetcherOptions St) -> Ext St (FetcherOptions St))
      (input : Input) (fetcherOpts : option (FetcherOptions St))
      (N : Z) (fuel : nat) :
  (forall d s t s' dt,
      getDefaultOptions input fetcherOpts s t = (Normal d, s', dt) ->
      read (attempts (retryOf (retry (mergeOptions pf d fetcherOpts))))
      = Some (AttemptsNumber N)) ->
  (Z.to_nat N < fuel)%nat ->
  settles (enhance pf fetchFn getDefaultOptions fuel input fetcherOpts)
          (fun _ tr =>
             (count isFetch tr <= Z.to_nat N + 1)%nat /\
             (count (isHook OnRetry DefaultOpts) tr <= Z.to_nat N)%nat /\
             (count (isHook OnRetry FetcherOpts) tr <= Z.to_nat N)%nat).
Proof.
  intros HN Hfuel. unfold enhance.
  eapply settles_bind.
  - apply (settles_call_result _
             (fun c => forall d, c = Normal d ->
                                 read (attempts (retryOf (retry (mergeOptions pf d fetcherOpts))))
                                 = Some (AttemptsNumber N))).
    intros s t c s' dt E d ->. exact (HN _ _ _ _ _ E).
  - intros d ? [-> Hd]. specialize (Hd d eq_refl).
    eapply settles_bind; [apply settles_prepareOptions| |].
    + intros options ? [-> Ho]. destruct (Ho _ eq_refl) as (data & hs & ->).
      eapply settles_bind.
      * apply (retryLoop_bound pf fetchFn fetcherOpts d input
                 (prepared pf d fetcherOpts data hs) N Hd (Z.to_nat N));
          [rewrite Z.sub_0_r; lia|exact Hfuel].
      * intros st tr1 (_ & F1 & RD & RF).
        eapply settles_weaken; [apply settles_settle|].
        intros c tr2 (b1 & b2 & b3 & b4 & b5 & b6 & E2 & _).
        pose proof (settle_events b1 b2 b3 b4 b5 b6) as H2. cbn zeta in H2.
        rewrite <- E2 in H2. destruct H2 as (F2 & _ & R2 & _).
        cbn [app]. rewrite !count_app, F2, !R2. lia.
      * intros e tr1 (_ & F1 & RD & RF). cbn [app]. lia.
    + intros e ? [-> _]. cbn. lia.
  - intros e ? [-> _]. cbn. lia.
Qed.


(** X1.  With a static [retry.attempts = N], in any environment (hooks,
    predicates and transport may throw or return anything), a call of the
    enhanced fetch given fuel for [N + 1] attempts settles; the transport
    has been invoked at most [N + 1] times and each [onRetry] hook at most
    [N] times. *)
Theorem retry_attempts_bound
        {St : Type} (pf : Platform St) (fetchFn : FetchFn St)
        (getDefaultOptions :
           Input -> option (FetcherOptions St) -> Ext St (FetcherOptions St))
        (input : Input) (fetcherOpts : option (FetcherOptions St))
        (N : Z) (fuel : nat) (w : World St) :
  (forall d s t s' dt,
      getDefaultOptions input fetcherOpts s t = (Normal d, s', dt) ->
      read (attempts (retryOf (retry (mergeOptions pf d fetcherOpts))))
      = Some (AttemptsNumber N)) ->
  (Z.to_nat N < fuel)%nat ->
  exists c w' tr,
    enhance pf fetchFn getDefaultOptions fuel input fetcherOpts w = Some (c, w') /\
    trace w' = (trace w ++ tr)%list /\
    (count isFetch tr <= Z.to_nat N + 1)%nat /\
    (count (isHook OnRetry DefaultOpts) tr <= Z.to_nat N)%nat /\
    (count (isHook OnRetry FetcherOpts) tr <= Z.to_nat N)%nat.
Proof.
  intros HN Hfuel.
  exact (settles_enhance_bound pf fetchFn getDefaultOptions input fetcherOpts N fuel
           HN Hfuel w).
Qed.

(** Under the default predicate, an attempt that ends with an ok response
    is not retried. *)
Lemma decideRetry_default_ok St fetcherOpts defaultOpts perTry attempt request r error
      (w : World St) :
  read (when (retryOf (retry perTry))) = read (when (@fallbackRetry St)) ->
  rs_ok r = true ->
  decideRetry fetcherOpts defaultOpts perTry attempt request (Some r) error w
  = Some (Normal Break, w).
Proof.
  intros Hwhen Hok. unfold decideRetry, try_catch. rewrite Hwhen.
  cbn [read when fallbackRetry option_map callRead wc_response].
  unfold bind. rewrite call_pureExt, Hok. reflexivity.
Qed.

(** X2.  Under the default retry predicate a call retries only after a
    response that is not ok: against a transport that throws or answers
    with ok responses, the transport is invoked at most once, whatever
    [retry.attempts] says and whatever the hooks do, and no retry hook is
    called. *)
Theorem default_predicate_retries_only_bad_responses
        {St : Type} (pf : Platform St) (fetchFn : FetchFn St)
        (getDefaultOptions :
           Input -> option (FetcherOptions St) -> Ext St (FetcherOptions St))
        (input : Input) (fetcherOpts : option (FetcherOptions St))
        (fuel : nat) (w : World St) :
  (forall d s t s' dt,
      getDefaultOptions input fetcherOpts s t = (Normal d, s', dt) ->
      read (when (retryOf (retry (mergeOptions pf d fetcherOpts))))
      = read (when (@fallbackRetry St))) ->
  (forall request init s t r s' d,
      fetchFn request init s t = (Normal r, s', d) -> rs_ok r = true) ->
  (0 < fuel)%nat ->
  exists c w' tr,
    enhance pf fetchFn getDefaultOptions fuel input fetcherOpts w = Some (c, w') /\
    trace w' = (trace w ++ tr)%list /\
    (count isFetch tr <= 1)%nat /\
    count (isHook OnRetry DefaultOpts) tr = O /\
    count (isHook OnRetry FetcherOpts) tr = O.
Proof.
  intros Hwhen Hgood Hfuel. revert w. unfold enhance.
  change (settles
            (defaultOpts <- call (getDefaultOptions input fetcherOpts) ;;
             options <- prepareOptions pf defaultOpts fetcherOpts ;;
             st <- retryLoop pf fetchFn input fetcherOpts defaultOpts options fuel 0 None
                             undefinedThrown ;;
             settle pf fetcherOpts defaultOpts options st)
            (fun _ tr =>
               (count isFetch tr <= 1)%nat /\
               count (isHook OnRetry DefaultOpts) tr = O /\
               count (isHook OnRetry FetcherOpts) tr = O)).
  destruct fuel as [|fuel]; [lia|].
  eapply settles_bind.
  - apply (settles_call_result _
             (fun c => forall d, c = Normal d ->
                                 read (when (retryOf (retry (mergeOptions pf d fetcherOpts))))
                                 = read (when (@fallbackRetry St)))).
    intros s t c s' dt E d ->. exact (Hwhen _ _ _ _ _ E).
  - intros d ? [-> Hd]. specialize (Hd d eq_refl).
    eapply settles_bind; [apply settles_prepareOptions| |].
    + intros options ? [-> Ho]. destruct (Ho _ eq_refl) as (data & hs & ->).
      eapply (settles_bind _ _
                (fun _ tr => (count isFetch tr <= 1)%nat /\
                             forall o, count (isHook OnRetry o) tr = O)).
      * cbn [retryLoop].
        eapply settles_bind; [apply settles_openAttempt| |].
        2:{ intros e ? [-> _]. cbn. split; [lia|reflexivity]. }
        intros [perTry request] ? [-> Hopen].
        destruct (Hopen _ eq_refl) as (sig & Hp). cbn [fst snd] in *. subst perTry.
        eapply settles_bind; [apply settles_sendAttempt| |].
        2:{ intros e ? (sent & H & _). discriminate H. }
        intros [response' error'] tr1 (? & [= <-] & (a & b & f & E1 & _) & Hsent).
        pose proof (request_events a b f request) as H1. cbn zeta in H1.
        rewrite <- E1 in H1. destruct H1 as (_ & F1 & R1). clear E1.
        cbn [fst snd]. intros w0.
        assert (Hbreak :
                  decideRetry fetcherOpts d
                    (set_signal (prepared pf d fetcherOpts data hs) (slotOf sig))
                    0 request response' error' w0
                  = Some (Normal Break, w0)).
        { destruct Hsent as [H|(r & [= -> ->] & request0 & init & s & t & s' & dt & E)].
          - cbn [fst] in H. subst response'.
            exact (decideRetry_default_without_response St fetcherOpts d
                     (set_signal (prepared pf d fetcherOpts data hs) (slotOf sig))
                     0 request error' w0 Hd).
          - exact (decideRetry_default_ok St fetcherOpts d
                     (set_signal (prepared pf d fetcherOpts data hs) (slotOf sig))
                     0 request r undefinedThrown w0 Hd (Hgood _ _ _ _ _ _ _ E)). }
        rewrite (bind_Normal _ _ _ _ _ Hbreak).
        unfold ret. eexists _, w0, []. split; [reflexivity|].
        split; [now rewrite app_nil_r|]. cbn [app]. rewrite !app_nil_r.
        split; [exact F1|exact R1].
      * intros st tr1 (F1 & R1).
        eapply settles_weaken; [apply settles_settle|].
        intros c tr2 (b1 & b2 & b3 & b4 & b5 & b6 & E2 & _).
        pose proof (settle_events b1 b2 b3 b4 b5 b6) as H2. cbn zeta in H2.
        rewrite <- E2 in H2. destruct H2 as (F2 & _ & R2 & _).
        cbn [app]. rewrite !count_app, F2, !R2, !R1. lia.
      * intros e tr1 (F1 & R1). cbn [app]. rewrite !R1. lia.
    + intros e ? [-> _]. cbn. lia.
  - intros e ? [-> _]. cbn. lia.
Qed.

Lemma request_hooks_counted a b f request ra rb :
  (f = true -> a = ra /\ b = rb) ->
  let tr := (whenb a (EvHook OnRequest DefaultOpts) ++
             whenb b (EvHook OnRequest FetcherOpts) ++
             whenb f (EvFetch request))%list in
  (ra = true -> (count isFetch tr <= count (isHook OnRequest DefaultOpts) tr)%nat) /\
  (rb = true -> (count isFetch tr <= count (isHook OnRequest FetcherOpts) tr)%nat).
Proof.
  intros H. destruct f.
  - destruct (H eq_refl) as [-> ->]. split; intros Hr; destruct ra, rb; cbn; lia.
  - destruct a, b; cbn; split; intros _; lia.
Qed.

(** However long the loop runs, it leaves only events of its own, and no
    more invocations of the transport than calls of a request hook that
    is set. *)
Lemma retryLoop_events {St : Type} (pf : Platform St) fetchFn input fetcherOpts
      defaultOpts options fuel :
  forall attempt response error,
    extends (retryLoop pf fetchFn input fetcherOpts defaultOpts options
                       fuel attempt response error)
            (fun _ tr =>
               forallb isLoopEvent tr = true /\
               (registered (onRequest defaultOpts) = true ->
                (count isFetch tr <= count (isHook OnRequest DefaultOpts) tr)%nat) /\
               (registered (opt fetcherOpts onRequest) = true ->
                (count isFetch tr <= count (isHook OnRequest FetcherOpts) tr)%nat)).
Proof.
  induction fuel as [|fuel IH]; intros attempt response error; cbn [retryLoop].
  - intros w c w' E. discriminate E.
  - eapply extends_bind; [apply extends_of_settles, settles_openAttempt| |].
    2:{ intros e ? [-> _]. cbn. repeat split; lia. }
    intros opened ? [-> _].
    eapply extends_bind; [apply extends_of_settles, settles_sendAttempt| |].
    2:{ intros e ? (sent & H & _). discriminate H. }
    intros sent tr1 (? & [= <-] & (a & b & f & E1 & Hf) & _).
    pose proof (request_events a b f opened.2) as H1. cbn zeta in H1.
    pose proof (request_hooks_counted a b f opened.2 _ _ Hf) as H1'. cbn zeta in H1'.
    rewrite <- E1 in H1, H1'. destruct H1 as (L1 & _). destruct H1' as (D1 & F1).
    clear E1 Hf.
    eapply extends_bind; [apply extends_of_settles, settles_decideRetry| |].
    2:{ intros e ? (dec & H & _). discriminate H. }
    intros decision tr2 (? & [= <-] & (a2 & b2 & f2 & ms & E2 & _) & _).
    pose proof (retry_events a2 b2 f2 ms (read (signal opened.1))) as H2.
    cbn zeta in H2. rewrite <- E2 in H2. destruct H2 as (L2 & F2 & _). clear E2.
    destruct decision as [| |a'].
    + apply extends_ret. cbn [app]. rewrite !forallb_app, !count_app, L1, L2, F2.
      cbn [forallb count andb]. split; [reflexivity|]. split; intros Hr.
      * specialize (D1 Hr). lia.
      * specialize (F1 Hr). lia.
    + apply extends_ret. cbn [app]. rewrite !forallb_app, !count_app, L1, L2, F2.
      cbn [forallb count andb]. split; [reflexivity|]. split; intros Hr.
      * specialize (D1 Hr). lia.
      * specialize (F1 Hr). lia.
    + eapply extends_weaken; [apply IH|].
      intros c tr3 (L3 & D3 & F3). cbn [app].
      rewrite !forallb_app, !count_app, L1, L2, L3, F2.
      split; [reflexivity|]. split; intros Hr.
      * specialize (D1 Hr). specialize (D3 Hr). lia.
      * specialize (F1 Hr). specialize (F3 Hr). lia.
Qed.

(** X3.  Whenever a call of the enhanced fetch resolves, no error hook
    has been called, and every response hook and success hook that is set
    has been called exactly once. *)
Theorem resolved_call_hooks
        {St : Type} (pf : Platform St) (fetchFn : FetchFn St)
        (getDefaultOptions :
           Input -> option (FetcherOptions St) -> Ext St (FetcherOptions St))
        (input : Input) (fetcherOpts : option (FetcherOptions St))
        (fuel : nat) (w : World St) (data : Value) (w' : World St) :
  enhance pf fetchFn getDefaultOptions fuel input fetcherOpts w = Some (Normal data, w') ->
  exists defaultOpts tr,
    (exists s dt,
        getDefaultOptions input fetcherOpts (env w) (now w) = (Normal defaultOpts, s, dt)) /\
    trace w' = (trace w ++ tr)%list /\
    count (isHook OnError DefaultOpts) tr = O /\
    count (isHook OnError FetcherOpts) tr = O /\
    count (isHook OnResponse DefaultOpts) tr
    = (if registered (onResponse defaultOpts) then 1 else 0)%nat /\
    count (isHook OnResponse FetcherOpts) tr
    = (if registered (opt fetcherOpts onResponse) then 1 else 0)%nat /\
    count (isHook OnSuccess DefaultOpts) tr
    = (if registered (onSuccess defaultOpts) then 1 else 0)%nat /\
    count (isHook OnSuccess FetcherOpts) tr
    = (if registered (opt fetcherOpts onSuccess) then 1 else 0)%nat.
Proof.
  unfold enhance. intros H.
  apply bind_Normal_inv in H as (d & w1 & Hcall & H).
  unfold call in Hcall.
  destruct (getDefaultOptions input fetcherOpts (env w) (now w)) as [[c s] dt] eqn:E.
  injection Hcall as -> <-.
  assert (Hrest :
            extends
              (options <- prepareOptions pf d fetcherOpts ;;
               st <- retryLoop pf fetchFn input fetcherOpts d options fuel 0 None
                               undefinedThrown ;;
               settle pf fetcherOpts d options st)
              (fun c tr =>
                 isNormal c = true ->
                 count (isHook OnError DefaultOpts) tr = O /\
                 count (isHook OnError FetcherOpts) tr = O /\
                 count (isHook OnResponse DefaultOpts) tr
                 = (if registered (onResponse d) then 1 else 0)%nat /\
                 count (isHook OnResponse FetcherOpts) tr
                 = (if registered (opt fetcherOpts onResponse) then 1 else 0)%nat /\
                 count (isHook OnSuccess DefaultOpts) tr
                 = (if registered (onSuccess d) then 1 else 0)%nat /\
                 count (isHook OnSuccess FetcherOpts) tr
                 = (if registered (opt fetcherOpts onSuccess) then 1 else 0)%nat)).
  { eapply extends_bind;
      [apply extends_of_settles, settles_prepareOptions| |intros e ? _; discriminate].
    intros options ? [-> _].
    eapply extends_bind; [apply retryLoop_events| |intros e ? _; discriminate].
    intros st tr1 (L1 & _).
    eapply extends_weaken; [apply extends_of_settles, settles_settle|].
    intros c tr2 (b1 & b2 & b3 & b4 & b5 & b6 & E2 & Hn) Hc.
    destruct (Hn Hc) as (-> & -> & -> & -> & -> & ->).
    pose proof (settle_events (registered (onResponse d))
                  (registered (opt fetcherOpts onResponse))
                  (registered (onSuccess d))
                  (registered (opt fetcherOpts onSuccess)) false false) as H2.
    cbn zeta in H2. rewrite <- E2 in H2.
    destruct H2 as (_ & _ & _ & H3 & H4 & H5 & H6 & H7 & H8).
    cbn [app]. rewrite !count_app, H3, H4, H5, H6, H7, H8.
    rewrite !(loopEvent_not_settle_hook tr1) by (exact L1 || discriminate).
    repeat split. }
  destruct (Hrest _ _ _ H) as (tr & T & Hq).
  exists d, tr. split; [eauto|]. split; [exact T|]. now apply Hq.
Qed.

(** X4.  Whenever a call of the enhanced fetch settles, each request hook
    that is set has been called at least as many times as the transport
    has been invoked: no invocation goes out without the hooks. *)
Theorem request_hooks_precede_transport
        {St : Type} (pf : Platform St) (fetchFn : FetchFn St)
        (getDefaultOptions :
           Input -> option (FetcherOptions St) -> Ext St (FetcherOptions St))
        (input : Input) (fetcherOpts : option (FetcherOptions St))
        (fuel : nat) (w : World St) (c : Completion Value) (w' : World St) :
  enhance pf fetchFn getDefaultOptions fuel input fetcherOpts w = Some (c, w') ->
  exists tr,
    trace w' = (trace w ++ tr)%list /\
    (registered (opt fetcherOpts onRequest) = true ->
     (count isFetch tr <= count (isHook OnRequest FetcherOpts) tr)%nat) /\
    (forall d s dt,
        getDefaultOptions input fetcherOpts (env w) (now w) = (Normal d, s, dt) ->
        registered (onRequest d) = true ->
        (count isFetch tr <= count (isHook OnRequest DefaultOpts) tr)%nat).
Proof.
  unfold enhance. intros H. unfold bind at 1, call in H.
  destruct (getDefaultOptions input fetcherOpts (env w) (now w)) as [[[d|e] s] dt] eqn:E.
  2:{ injection H as <- <-. exists []. cbn [trace]. rewrite app_nil_r.
      split; [reflexivity|]. split; [cbn; lia|]. intros ? ? ? E'. discriminate E'. }
  assert (Hrest :
            extends
              (options <- prepareOptions pf d fetcherOpts ;;
               st <- retryLoop pf fetchFn input fetcherOpts d options fuel 0 None
                               undefinedThrown ;;
               settle pf fetcherOpts d options st)
              (fun _ tr =>
                 (registered (onRequest d) = true ->
                  (count isFetch tr <= count (isHook OnRequest DefaultOpts) tr)%nat) /\
                 (registered (opt fetcherOpts onRequest) = true ->
                  (count isFetch tr <= count (isHook OnRequest FetcherOpts) tr)%nat))).
  { eapply extends_bind;
      [apply extends_of_settles, settles_prepareOptions| |intros e ? [-> _]; cbn; lia].
    intros options ? [-> _].
    eapply extends_bind; [apply retryLoop_events| |].
    2:{ intros e tr (_ & D & F). exact (conj D F). }
    intros st tr1 (_ & D1 & F1).
    eapply extends_weaken; [apply extends_of_settles, settles_settle|].
    intros c0 tr2 (b1 & b2 & b3 & b4 & b5 & b6 & E2 & _).
    pose proof (settle_events b1 b2 b3 b4 b5 b6) as H2. cbn zeta in H2.
    rewrite <- E2 in H2. destruct H2 as (F2 & _).
    cbn [app]. rewrite !count_app, F2. split; intros Hr.
    - specialize (D1 Hr). lia.
    - specialize (F1 Hr). lia. }
  destruct (Hrest _ _ _ H) as (tr & T & D & F).
  exists tr. split; [exact T|]. split; [exact F|].
  intros d' s0 dt0 [= <- _ _]. exact D.
Qed.

Lemma request_hooks_precede_transport_witness :
  exists tr,
    [EvHook OnRequest DefaultOpts; EvHook OnRequest FetcherOpts;
     EvFetch {| rq_url := "https://a.com/items"; rq_method := "GET";
                rq_headers := ∅; rq_body := VUndefined;
                rq_signal := Some neverSignal |};
     EvHook OnResponse DefaultOpts; EvHook OnResponse FetcherOpts;
     EvHook OnSuccess DefaultOpts; EvHook OnSuccess FetcherOpts]
    = ([] ++ tr)%list /\
    (registered (opt (Some Demo.observing) onRequest) = true ->
     (count isFetch tr <= count (isHook OnRequest FetcherOpts) tr)%nat) /\
    (forall d s dt,
        pureExt (Normal Demo.observing) O O = (Normal d, s, dt) ->
        registered (onRequest d) = true ->
        (count isFetch tr <= count (isHook OnRequest DefaultOpts) tr)%nat).
Proof.
  apply (request_hooks_precede_transport (Demo.platform [])
           (Demo.scripted [Normal (Demo.response 200 "null")])
           (fun _ _ => pureExt (Normal Demo.observing))
           (InputString "https://a.com/items") (Some Demo.observing) 1 Demo.start
           (Normal VNull)
           {| env := 1%nat; now := 1%nat;
              trace := [EvHook OnRequest DefaultOpts; EvHook OnRequest FetcherOpts;
                        EvFetch {| rq_url := "https://a.com/items"; rq_method := "GET";
                                   rq_headers := ∅; rq_body := VUndefined;
                                   rq_signal := Some neverSignal |};
                        EvHook OnResponse DefaultOpts; EvHook OnResponse FetcherOpts;
                        EvHook OnSuccess DefaultOpts; EvHook OnSuccess FetcherOpts] |}).
  vm_compute. reflexivity.
Defined.

Lemma retry_attempts_bound_witness :
  exists c w' tr,
    enhance (Demo.platform []) Demo.down (fun _ _ => pureExt (Normal emptyOptions)) 3
            (InputString "https://a.com/items")
            (Some (Demo.fetcherOptions
                     (Present (staticRetry Demo.retryOnFailure 2 0)) Absent Absent))
            Demo.start
    = Some (c, w') /\
    trace w' = (trace Demo.start ++ tr)%list /\
    (count isFetch tr <= 3)%nat /\
    (count (isHook OnRetry DefaultOpts) tr <= 2)%nat /\
    (count (isHook OnRetry FetcherOpts) tr <= 2)%nat.
Proof.
  apply (retry_attempts_bound (Demo.platform []) Demo.down
           (fun _ _ => pureExt (Normal emptyOptions))
           (InputString "https://a.com/items")
           (Some (Demo.fetcherOptions
                    (Present (staticRetry Demo.retryOnFailure 2 0)) Absent Absent))
           2 3 Demo.start).
  - intros d s t s' dt E. injection E as <- _ _. reflexivity.
  - simpl. lia.
Defined.

Lemma default_predicate_retries_only_bad_responses_witness :
  exists c w' tr,
    enhance (Demo.platform []) (Demo.scripted [])
            (fun _ _ => pureExt (Normal emptyOptions)) 6
            (InputString "https://a.com/items") (Some (Demo.attempting 5)) Demo.start
    = Some (c, w') /\
    trace w' = (trace Demo.start ++ tr)%list /\
    (count isFetch tr <= 1)%nat /\
    count (isHook OnRetry DefaultOpts) tr = O /\
    count (isHook OnRetry FetcherOpts) tr = O.
Proof.
  apply (default_predicate_retries_only_bad_responses (Demo.platform []) (Demo.scripted [])
           (fun _ _ => pureExt (Normal emptyOptions))
           (InputString "https://a.com/items") (Some (Demo.attempting 5)) 6 Demo.start).
  - intros d s t s' dt E. injection E as <- _ _. reflexivity.
  - intros request init s t r s' d E. unfold Demo.scripted in E.
    injection E as E _ _. destruct s; injection E as <-; reflexivity.
  - lia.
Defined.

Lemma resolved_call_hooks_witness :
  exists defaultOpts tr,
    (exists s dt, pureExt (Normal Demo.observing) O O = (Normal defaultOpts, s, dt)) /\
    [EvHook OnRequest DefaultOpts; EvHook OnRequest FetcherOpts;
     EvFetch {| rq_url := "https://a.com/items"; rq_method := "GET";
                rq_headers := ∅; rq_body := VUndefined;
                rq_signal := Some neverSignal |};
     EvHook OnResponse DefaultOpts; EvHook OnResponse FetcherOpts;
     EvHook OnSuccess DefaultOpts; EvHook OnSuccess FetcherOpts]
    = ([] ++ tr)%list /\
    count (isHook OnError DefaultOpts) tr = O /\
    count (isHook OnError FetcherOpts) tr = O /\
    count (isHook OnResponse DefaultOpts) tr
    = (if registered (onResponse defaultOpts) then 1 else 0)%nat /\
    count (isHook OnResponse FetcherOpts) tr = 1%nat /\
    count (isHook OnSuccess DefaultOpts) tr
    = (if registered (onSuccess defaultOpts) then 1 else 0)%nat /\
    count (isHook OnSuccess FetcherOpts) tr = 1%nat.
Proof.
  apply (resolved_call_hooks (Demo.platform [])
           (Demo.scripted [Normal (Demo.response 200 "null")])
           (fun _ _ => pureExt (Normal Demo.observing)) 
           (InputString "https://a.com/items") (Some Demo.observing) 1 Demo.start VNull
           {| env := 1%nat; now := 1%nat;
              trace := [EvHook OnRequest DefaultOpts; EvHook OnRequest FetcherOpts;
                        EvFetch {| rq_url := "https://a.com/items"; rq_method := "GET";
                                   rq_headers := ∅; rq_body := VUndefined;
                                   rq_signal := Some neverSignal |};
                        EvHook OnResponse DefaultOpts; EvHook OnResponse FetcherOpts;
                        EvHook OnSuccess DefaultOpts; EvHook OnSuccess FetcherOpts] |}).
  vm_compute. reflexivity.
Defined.

(** X5.  However a call of the enhanced fetch settles, and however many
    times it has retried, each response hook, success hook and error hook
    has been called at most once. *)
Theorem settle_hooks_at_most_once
        {St : Type} (pf : Platform St) (fetchFn : FetchFn St)
        (getDefaultOptions :
           Input -> option (FetcherOptions St) -> Ext St (FetcherOptions St))
        (input : Input) (fetcherOpts : option (FetcherOptions St))
        (fuel : nat) (w : World St) (c : Completion Value) (w' : World St) :
  enhance pf fetchFn getDefaultOptions fuel input fetcherOpts w = Some (c, w') ->
  exists tr,
    trace w' = (trace w ++ tr)%list /\
    forall o,
      (count (isHook OnResponse o) tr <= 1)%nat /\
      (count (isHook OnSuccess o) tr <= 1)%nat /\
      (count (isHook OnError o) tr <= 1)%nat.
Proof.
  revert w c w'.
  change (extends (enhance pf fetchFn getDefaultOptions fuel input fetcherOpts)
            (fun _ tr =>
               forall o,
                 (count (isHook OnResponse o) tr <= 1)%nat /\
                 (count (isHook OnSuccess o) tr <= 1)%nat /\
                 (count (isHook OnError o) tr <= 1)%nat)).
  unfold enhance.
  eapply (extends_bind _ _ (fun _ tr => tr = []));
    [apply extends_of_settles; now apply settles_call| |].
  2:{ intros e ? -> o. cbn. lia. }
  intros d ? ->.
  eapply extends_bind; [apply extends_of_settles, settles_prepareOptions| |].
  2:{ intros e ? [-> _] o. cbn. lia. }
  intros options ? [-> _].
  eapply extends_bind; [apply retryLoop_events| |].
  2:{ intros e tr1 (L1 & _) o. cbn [app].
      rewrite !(loopEvent_not_settle_hook tr1) by (exact L1 || discriminate). lia. }
  intros st tr1 (L1 & _).
  eapply extends_weaken; [apply extends_of_settles, settles_settle|].
  intros c tr2 (b1 & b2 & b3 & b4 & b5 & b6 & E2 & _) o.
  pose proof (settle_events b1 b2 b3 b4 b5 b6) as H2.
  cbn zeta in H2. rewrite <- E2 in H2.
  destruct H2 as (_ & _ & _ & H3 & H4 & H5 & H6 & H7 & H8).
  cbn [app]. rewrite !count_app.
  rewrite !(loopEvent_not_settle_hook tr1) by (exact L1 || discriminate).
  destruct o; rewrite ?H3, ?H4, ?H5, ?H6, ?H7, ?H8;
    destruct b1, b2, b3, b4, b5, b6; cbn; lia.
Qed.

Lemma settle_hooks_at_most_once_witness :
  exists tr,
    [EvHook OnRequest DefaultOpts; EvHook OnRequest FetcherOpts;
     EvFetch {| rq_url := "https://a.com/items"; rq_method := "GET";
                rq_headers := ∅; rq_body := VUndefined;
                rq_signal := Some neverSignal |};
     EvHook OnError DefaultOpts; EvHook OnError FetcherOpts]
    = ([] ++ tr)%list /\
    forall o,
      (count (isHook OnResponse o) tr <= 1)%nat /\
      (count (isHook OnSuccess o) tr <= 1)%nat /\
      (count (isHook OnError o) tr <= 1)%nat.
Proof.
  apply (settle_hooks_at_most_once (Demo.platform []) Demo.down
           (fun _ _ => pureExt (Normal Demo.observing))
           (InputString "https://a.com/items") (Some Demo.observing) 1 Demo.start
           (Throw Demo.networkError)
           {| env := 1%nat; now := 1%nat;
              trace := [EvHook OnRequest DefaultOpts; EvHook OnRequest FetcherOpts;
                        EvFetch {| rq_url := "https://a.com/items"; rq_method := "GET";
                                   rq_headers := ∅; rq_body := VUndefined;
                                   rq_signal := Some neverSignal |};
                        EvHook OnError DefaultOpts; EvHook OnError FetcherOpts] |}).
  vm_compute. reflexivity.
Defined.

(** X6.  When the body schema of a call reports issues for its body, the
    call resolves to a failure whose error is the [ValidationError] built
    from these issues and the body as it was passed; the transport is not
    invoked and no hook is called. *)
Theorem invalid_body_is_not_sent
        {St : Type} (pf : Platform St) (schema : option (Schema St))
        (customFetch : option (FetchFn St)) (defaultOpts : FetcherOptions St)
        (fuel : nat) (url : string) (o : ResfetchOptions St) (w : World St)
        (sch : StandardSchema St) (result : ValidateResult) (s : St) (d : nat)
        (issues : list Issue) (json : Value) :
  fs_body (schemaDef schema url (Some o)) = Some sch ->
  truthy (readValue (ro_body o)) = true ->
  sch (readValue (ro_body o)) (env w) (now w) = (Normal result, s, d) ->
  vr_issues result = Some issues ->
  JSON_stringify pf (VArr issues) = Normal json ->
  fetcher pf schema customFetch defaultOpts fuel url (Some o) w
  = Some (Normal (err (TValidationError (match json with VStr m => m | _ => "" end)
                                        issues (readValue (ro_body o)))),
          {| env := s; now := (now w + d)%nat; trace := trace w |}).
Proof.
  intros Hsch Htruthy Hrun Hissues Hjson.
  unfold fetcher, try_catch, fetcherTry.
  change (default emptyResfetchOptions (Some o)) with o.
  rewrite Hsch. unfold validateKey. rewrite Htruthy.
  unfold validate, bind, call. rewrite Hrun, Hissues.
  unfold liftC, ValidationError. rewrite Hjson. reflexivity.
Qed.

Lemma invalid_body_is_not_sent_witness :
  fetcher (Demo.platform []) None None emptyOptions 0 "/users"
          (Some (set_ro_schema (Demo.posting (VObj [("name", VNum 1)]))
                   (Present {| fs_body := Some Demo.rejecting; fs_response := None;
                               fs_query := None; fs_params := None;
                               fs_method := None |})))
          Demo.start
  = Some (Normal (err (TValidationError "null" [VObj [("message", VStr "Required")]]
                                        (VObj [("name", VNum 1)]))),
          {| env := O; now := O; trace := [] |}).
Proof.
  exact (invalid_body_is_not_sent (Demo.platform []) None None emptyOptions 0 "/users"
           (set_ro_schema (Demo.posting (VObj [("name", VNum 1)]))
              (Present {| fs_body := Some Demo.rejecting; fs_response := None;
                          fs_query := None; fs_params := None; fs_method := None |}))
           Demo.start Demo.rejecting _ _ _ _ _
           eq_refl eq_refl eq_refl eq_refl eq_refl).
Defined.

Lemma bind_assoc {St A B C : Type} (m : M St A) (f : A -> M St B) (g : B -> M St C) w :
  bind (bind m f) g w = bind m (fun a => bind (f a) g) w.
Proof.
  unfold bind. destruct (m w) as [[[a|e] w1]|]; reflexivity.
Qed.

Lemma bind_ext {St A B : Type} (m : M St A) (f g : A -> M St B) w :
  (forall a w1, f a w1 = g a w1) -> bind m f w = bind m g w.
Proof.
  intros H. unfold bind. destruct (m w) as [[[a|e] w1]|]; auto.
Qed.

Section CreationKeys.

Context {St : Type}.
Variable pf : Platform St.
Variable fetchFn : FetchFn St.
Variable d : FetcherOptions St.
Variable m : Slot string.
Variable b : Slot Value.
Variable s : Slot AbortSignal.

(** The options merged from other [method], [body] and [signal] defaults
    differ at most under [signal], when the call sets a [method] key. *)
Lemma mergeOptions_withRequestKeys fo :
  method fo <> Absent ->
  mergeOptions pf (withRequestKeys d m b s) (Some fo)
  = set_signal (mergeOptions pf d (Some fo))
               (signal (mergeOptions pf (withRequestKeys d m b s) (Some fo))).
Proof.
  intros Hm. unfold mergeOptions, set_signal, withRequestKeys, opt. cbn.
  destruct (method fo); [now destruct Hm|reflexivity|reflexivity].
Qed.

Lemma enhance_withRequestKeys fuel input fo w :
  method fo <> Absent ->
  enhance pf fetchFn (fun _ _ => pureExt (Normal (withRequestKeys d m b s)))
          fuel input (Some fo) w
  = enhance pf fetchFn (fun _ _ => pureExt (Normal d)) fuel input (Some fo) w.
Proof.
  intros Hm. unfold enhance.
  rewrite !(bind_Normal _ _ _ _ _ (call_pureExt _ w)).
  unfold prepareOptions. rewrite (mergeOptions_withRequestKeys fo Hm).
  rewrite !bind_assoc. apply bind_ext. intros data w1.
  rewrite !bind_assoc. apply bind_ext. intros hs w2.
  reflexivity.
Qed.

End CreationKeys.

Lemma toFetchOptions_method {St : Type} (def : FetchSchema St) cur body' query' :
  method (toFetchOptions def cur body' query') <> Absent.
Proof.
  unfold toFetchOptions. cbn [method].
  destruct (read (ro_method cur)) as [x|]; [destruct (String.eqb x "")|];
    try discriminate; destruct (fs_method def); discriminate.
Qed.

(** X7.  The [method], [body] and [signal] given when a client is created
    are never used: every call of the client behaves as it does for a
    client created with any other values under these keys. *)
Theorem creation_method_body_signal_unused
        {St : Type} (pf : Platform St) (schema : option (Schema St))
        (customFetch : option (FetchFn St)) (d : FetcherOptions St)
        (m : Slot string) (b : Slot Value) (s : Slot AbortSignal)
        (fuel : nat) (url : string) (fetcherOptions : option (ResfetchOptions St))
        (w : World St) :
  createResfetch pf (Some {| cro_schema := schema; cro_fetch := customFetch;
                             cro_defaultOpts := withRequestKeys d m b s |})
                 fuel url fetcherOptions w
  = createResfetch pf (Some {| cro_schema := schema; cro_fetch := customFetch;
                               cro_defaultOpts := d |})
                   fuel url fetcherOptions w.
Proof.
  unfold createResfetch. cbn [cro_schema cro_fetch cro_defaultOpts].
  unfold fetcher, try_catch, fetcherTry, enhancedFetch.
  set (def := schemaDef schema url fetcherOptions).
  set (cur := default emptyResfetchOptions fetcherOptions).
  enough (E : (body' <- validateKey pf (fs_body def) (ro_body cur) ;;
              query' <- validateKey pf (fs_query def) (ro_query cur) ;;
              params' <- validateKey pf (fs_params def) (ro_params cur) ;;
              actualUrl <- liftC (replacePathParams pf url (readValue params')) ;;
              data <- enhance pf (default (global_fetch pf) customFetch)
                        (fun _ _ => pureExt (Normal (withRequestKeys d m b s)))
                        fuel (InputString actualUrl)
                        (Some (toFetchOptions def cur body' query')) ;;
              ret (ok data)) w
             = (body' <- validateKey pf (fs_body def) (ro_body cur) ;;
                query' <- validateKey pf (fs_query def) (ro_query cur) ;;
                params' <- validateKey pf (fs_params def) (ro_params cur) ;;
                actualUrl <- liftC (replacePathParams pf url (readValue params')) ;;
                data <- enhance pf (default (global_fetch pf) customFetch)
                          (fun _ _ => pureExt (Normal d))
                          fuel (InputString actualUrl)
                          (Some (toFetchOptions def cur body' query')) ;;
                ret (ok data)) w)
    by (now rewrite E).
  apply bind_ext. intros body' w1. apply bind_ext. intros query' w2.
  apply bind_ext. intros params' w3. apply bind_ext. intros actualUrl w4.
  unfold bind at 1 2.
  rewrite (enhance_withRequestKeys pf _ d m b s fuel (InputString actualUrl) _ w4
             (toFetchOptions_method def cur body' query')).
  reflexivity.
Qed.

Lemma settles_validateKey {St : Type} (pf : Platform St) schema key :
  settles (validateKey pf schema key) (fun _ tr => tr = []).
Proof.
  unfold validateKey. destruct schema as [sch|]; [|now apply settles_ret].
  destruct (truthy (readValue key)); [|now apply settles_ret].
  eapply (settles_bind _ _ (fun _ tr => tr = []));
    [apply settles_validate| |now intros ? ? ->].
  intros v ? ->. now apply settles_ret.
Qed.

(** X8.  A call through the public surface whose options carry a static
    [retry.attempts = N] always resolves to a result, in any environment:
    given fuel for [N + 1] attempts the promise settles and never rejects,
    and the transport has been invoked at most [N + 1] times. *)
Theorem public_call_resolves_within_attempts
        {St : Type} (pf : Platform St) (schema : option (Schema St))
        (customFetch : option (FetchFn St)) (defaultOpts : FetcherOptions St)
        (fuel : nat) (url : string) (fetcherOptions : option (ResfetchOptions St))
        (N : Z) (w : World St) :
  (forall fo,
      retry fo = ro_retry (default emptyResfetchOptions fetcherOptions) ->
      read (attempts (retryOf (retry (mergeOptions pf defaultOpts (Some fo)))))
      = Some (AttemptsNumber N)) ->
  (Z.to_nat N < fuel)%nat ->
  exists r w' tr,
    fetcher pf schema customFetch defaultOpts fuel url fetcherOptions w
    = Some (Normal r, w') /\
    trace w' = (trace w ++ tr)%list /\
    (count isFetch tr <= Z.to_nat N + 1)%nat.
Proof.
  intros HN Hfuel.
  enough (H : settles (fetcher pf schema customFetch defaultOpts fuel url fetcherOptions)
                      (fun c tr => isNormal c = true /\
                                   (count isFetch tr <= Z.to_nat N + 1)%nat)).
  { destruct (H w) as ([r|e] & w' & tr & E & T & Hn & F); [|discriminate Hn].
    now exists r, w', tr. }
  unfold fetcher.
  eapply (settles_try_catch _ _
            (fun _ tr => (count isFetch tr <= Z.to_nat N + 1)%nat)).
  - unfold fetcherTry.
    eapply settles_bind; [apply settles_validateKey| |intros e ? ->; cbn; lia].
    intros body' ? ->.
    eapply settles_bind; [apply settles_validateKey| |intros e ? ->; cbn; lia].
    intros query' ? ->.
    eapply settles_bind; [apply settles_validateKey| |intros e ? ->; cbn; lia].
    intros params' ? ->.
    eapply (settles_bind _ _ (fun _ tr => tr = []));
      [now apply settles_liftC| |intros e ? ->; cbn; lia].
    intros actualUrl ? ->.
    eapply settles_bind.
    + apply (settles_enhance_bound pf _ _ _ _ N fuel); [|exact Hfuel].
      intros d s t s' dt E. injection E as <- _ _. apply HN. reflexivity.
    + intros data tr (F & _). apply settles_ret. cbn [app]. now rewrite app_nil_r.
    + intros e tr (F & _). exact F.
  - intros r tr F. split; [reflexivity|exact F].
  - intros e tr F. apply settles_ret. rewrite app_nil_r. split; [reflexivity|exact F].
Qed.

Lemma public_call_resolves_within_attempts_witness :
  exists r w' tr,
    fetcher (Demo.platform []) None (Some Demo.down) emptyOptions 3 "https://a.com/x"
            (Some (Demo.retrying 2 0 Absent)) Demo.start
    = Some (Normal r, w') /\
    trace w' = (trace Demo.start ++ tr)%list /\
    (count isFetch tr <= 3)%nat.
Proof.
  apply (public_call_resolves_within_attempts (Demo.platform []) None (Some Demo.down)
           emptyOptions 3 "https://a.com/x" (Some (Demo.retrying 2 0 Absent)) 2
           Demo.start).
  - intros fo E. unfold mergeOptions. cbn [retry attempts retryOf read opt].
    rewrite E. reflexivity.
  - simpl. lia.
Defined.

(** X9.  [matchResfetch] on a result returned by the public surface calls
    exactly one handler: [ok] with the data of a success,
    [validationError] with the [ValidationError] of a failure, and
    [responseError] with its [ResponseError]; no handler ever receives a
    value of another kind. *)
Theorem matchResfetch_on_returned_result
        {St : Type} (pf : Platform St) (schema : option (Schema St))
        (customFetch : option (FetchFn St)) (defaultOpts : FetcherOptions St)
        (fuel : nat) (url : string) (fetcherOptions : option (ResfetchOptions St))
        (w : World St) (r : ResfetchResult) (w' : World St)
        (R : Type) (handlers : MatchHandlers R) :
  fetcher pf schema customFetch defaultOpts fuel url fetcherOptions w
  = Some (Normal r, w') ->
  (exists data, r = ok data /\ matchResfetch r handlers = h_ok handlers data) \/
  (exists e, r = err e /\ isValidationError e = true /\
             matchResfetch r handlers = h_validationError handlers e) \/
  (exists e, r = err e /\ isResponseError e = true /\
             matchResfetch r handlers = h_responseError handlers e).
Proof.
  intros H. apply fetcher_returns in H as [(data & ->)|(e & ->)].
  - left. exists data. split; reflexivity.
  - right. destruct e as [x|msg issues data|msg resp req data status orig].
    + right. eexists. split; [reflexivity|]. split; reflexivity.
    + left. eexists. split; [reflexivity|]. split; reflexivity.
    + right. eexists. split; [reflexivity|]. split; reflexivity.
Qed.

Lemma matchResfetch_on_returned_result_witness :
  fetcher (Demo.platform []) None (Some Demo.down) emptyOptions 1 "https://a.com/x" None
          Demo.start
  = Some (Normal (err (TResponseError "fetch failed" None None VUndefined None
                                      Demo.networkError)),
          {| env := 1%nat; now := 1%nat;
             trace := [EvFetch {| rq_url := "https://a.com/x"; rq_method := "GET";
                                  rq_headers := ∅; rq_body := VUndefined;
                                  rq_signal := Some neverSignal |}] |}) /\
  matchResfetch
    (err (TResponseError "fetch failed" None None VUndefined None Demo.networkError))
    {| h_ok := fun _ => "ok"; h_validationError := fun _ => "invalid";
       h_responseError := messageOf |}
  = "fetch failed".
Proof.
  assert (E : fetcher (Demo.platform []) None (Some Demo.down) emptyOptions 1
                      "https://a.com/x" None Demo.start
              = Some (Normal (err (TResponseError "fetch failed" None None VUndefined None
                                                  Demo.networkError)),
                      {| env := 1%nat; now := 1%nat;
                         trace := [EvFetch {| rq_url := "https://a.com/x";
                                              rq_method := "GET";
                                              rq_headers := ∅; rq_body := VUndefined;
                                              rq_signal := Some neverSignal |}] |}))
    by (vm_compute; reflexivity).
  split; [exact E|].
  destruct (matchResfetch_on_returned_result _ _ _ _ _ _ _ _ _ _ string
              {| h_ok := fun _ => "ok"; h_validationError := fun _ => "invalid";
                 h_responseError := messageOf |} E)
    as [(data & H & _)|[(e & H & V & _)|(e & H & _ & M)]].
  - discriminate H.
  - injection H as <-. discriminate V.
  - injection H as <-. exact M.
Defined.

Lemma mergeHeaders_none :
  mergeHeaders [Some (HeadersList []); None; None] = Normal ∅.
Proof.
  unfold mergeHeaders. cbn [fold_left bindC Headers_]. now rewrite !map_fold_empty.
Qed.

Lemma Headers__empty_record : Headers_ (Some (HeadersRecord ∅)) = Normal ∅.
Proof. unfold Headers_. now rewrite map_fold_empty. Qed.

Section DefaultClient.

Context {St : Type}.
Variable pf : Platform St.
Variable url : string.
Hypothesis Hkeys : exists keys, URL_searchParams_keys pf url = Normal keys.
Hypothesis Hqs : URLSearchParams_toString pf [] = "".
Hypothesis Hcheck : forall request, Request_check pf request = None.

Lemma default_prepareOptions fo w :
  isNullish (readValue (body fo)) = true ->
  read (headers fo) = None ->
  prepareOptions pf emptyOptions (Some fo) w
  = Some (Normal (prepared pf emptyOptions (Some fo) (readValue (body fo)) ∅), w).
Proof.
  intros Hb Hh. unfold prepareOptions. cbn [opt]. rewrite Hb, Hh.
  rewrite bind_ret. unfold inferredContentType. rewrite Hb. cbn [orb].
  cbn [read headers emptyOptions]. rewrite mergeHeaders_none.
  reflexivity.
Qed.


Lemma default_resolveUrl w :
  resolveUrl pf None url VUndefined VUndefined
             (read (serializeParams (fallbackOptions pf))) w
  = Some (Normal url, w).
Proof.
  unfold resolveUrl. destruct Hkeys as (keys & ->).
  change (liftC (Normal keys)) with (ret (St := St) keys). rewrite bind_ret.
  cbn [read serializeParams fallbackOptions option_map callRead].
  rewrite (bind_Normal _ _ _ _ _ (call_pureExt _ w)).
  cbn [spreadProps omit objectSpread fold_left flat_map]. 
  unfold omit. cbn [spreadProps filter list_filter objectSpread fold_left flat_map].
  rewrite Hqs. cbn [default String.eqb orb].
  destruct (_ || _); reflexivity.
Qed.


Lemma default_openAttempt w :
  openAttempt pf (InputString url)
              (Some (toFetchOptions emptySchema emptyResfetchOptions Absent Absent))
              emptyOptions
              (prepared pf emptyOptions
                        (Some (toFetchOptions emptySchema emptyResfetchOptions Absent Absent))
                        VUndefined ∅) w
  = Some (Normal (set_signal
                    (prepared pf emptyOptions
                       (Some (toFetchOptions emptySchema emptyResfetchOptions Absent Absent))
                       VUndefined ∅)
                    (slotOf (bareSignal pf)),
                  plainRequest pf url), w).
Proof.
  unfold openAttempt.
  assert (Hsig : withTimeout pf None None w = Some (Normal (bareSignal pf), w)).
  { unfold withTimeout, bareSignal. now destruct (AbortSignal_has_any pf). }
  cbn [opt read signal timeout toFetchOptions emptyResfetchOptions ro_signal ro_timeout
       prepared set_headers set_body mergeOptions spread fallbackOptions emptyOptions].
  rewrite (bind_Normal _ _ _ _ _ Hsig).
  cbn [set_signal baseUrl read serializeParams params readValue opt toFetchOptions
       emptyResfetchOptions ro_baseUrl ro_serializeParams ro_query
       prepared set_headers set_body mergeOptions spread fallbackOptions emptyOptions].
  rewrite bind_assoc.
  rewrite (bind_Normal _ _ _ _ _ (default_resolveUrl w)).
  rewrite bind_ret.
  unfold newRequest.
  cbn [read headers method body signal set_signal set_headers set_body prepared
       mergeOptions spread opt toFetchOptions emptyResfetchOptions ro_method ro_signal
       emptySchema fs_method slotOf fallbackOptions emptyOptions].
  rewrite Headers__empty_record. cbn [bindC readValue isNullish].
  rewrite Hcheck.
  change (liftC (Normal ?x)) with (ret (St := St) x).
  rewrite bind_ret. unfold ret, plainRequest. 
  destruct (bareSignal pf); reflexivity.
Qed.


Variable r : Response.
Variable s' : St.
Variable d : nat.
Variable text : string.
Variable w : World St.
Hypothesis Hfetch :
  forall request init t, global_fetch pf request init (env w) t = (Normal r, s', d).
Hypothesis Htext : rs_text r = inr text.

Lemma default_sendAttempt perTry request w0 :
  env w0 = env w ->
  sendAttempt (global_fetch pf)
              (Some (toFetchOptions emptySchema emptyResfetchOptions Absent Absent))
              emptyOptions perTry request None w0
  = Some (Normal (Some r, undefinedThrown),
          {| env := s'; now := (now w0 + d)%nat;
             trace := (trace w0 ++ [EvFetch request])%list |}).
Proof.
  intros Hw. unfold sendAttempt, try_catch.
  cbn [read onRequest emptyOptions opt toFetchOptions emptyResfetchOptions ro_onRequest
       option_map callHook].
  rewrite !bind_ret. unfold bind at 1, emit.
  unfold bind, call. cbn [env now trace]. rewrite Hw, Hfetch. reflexivity.
Qed.

Lemma default_decideRetry perTry attempt request error w0 :
  retry perTry = retry (mergeOptions pf emptyOptions
                          (Some (toFetchOptions emptySchema emptyResfetchOptions
                                                Absent Absent))) ->
  0 <= attempt ->
  decideRetry (Some (toFetchOptions emptySchema emptyResfetchOptions Absent Absent))
              emptyOptions perTry attempt request (Some r) error w0
  = Some (Normal Break, w0).
Proof.
  intros Hretry Hattempt. unfold decideRetry, try_catch. rewrite Hretry.
  cbn [retry mergeOptions retryOf default from_option id read when attempts delay spread
       fallbackOptions fallbackRetry emptyOptions emptyRetry opt toFetchOptions
       emptyResfetchOptions ro_retry option_map callRead wc_response].
  rewrite (bind_Normal _ _ _ _ _ (call_pureExt _ w0)).
  destruct (rs_ok r); cbn [negb]; [reflexivity|].
  rewrite bind_ret.
  destruct (Z.ltb_spec 0 (attempt + 1)) as [_|H]; [reflexivity|lia].
Qed.


Lemma default_parse : parseResponseText pf (Some r) = Normal (parsedText pf text).
Proof.
  unfold parseResponseText, parsedText. rewrite Htext.
  now destruct (JSON_parse pf text).
Qed.

Lemma default_settle options request w0 :
  read (reject options) = read (reject (fallbackOptions pf)) ->
  read (parseRejected options) = read (parseRejected (fallbackOptions pf)) ->
  read (parseResponse options) = read (parseResponse (fallbackOptions pf)) ->
  settle pf (Some (toFetchOptions emptySchema emptyResfetchOptions Absent Absent))
         emptyOptions options
         {| ls_request := request; ls_response := Some r; ls_error := undefinedThrown |} w0
  = Some (if rs_ok r then Normal (parsedText pf text)
          else Throw (TResponseError
                        ("[" ++ pretty (rs_status r) ++ "] " ++ rs_statusText r)
                        (Some r) (Some request) (parsedText pf text)
                        (Some (rs_status r)) undefinedThrown),
          w0).
Proof.
  intros Hrej Hpr Hp. unfold settle, try_catch.
  cbn [ls_error ls_response ls_request truthyThrown undefinedThrown truthy].
  rewrite Hrej, Hpr, Hp.
  cbn [read reject parseRejected parseResponse fallbackOptions option_map callRead
       onResponse onSuccess onError emptyOptions opt toFetchOptions emptyResfetchOptions
       ro_onResponse ro_onSuccess ro_onError callHook schema emptySchema fs_response
       slotOf].
  rewrite (bind_Normal _ _ _ _ _ (call_pureExt _ w0)).
  destruct (rs_ok r); cbn [negb].
  - rewrite !bind_ret. rewrite default_parse.
    rewrite (bind_Normal _ _ _ _ _ (call_pureExt _ w0)).
    rewrite !bind_ret. reflexivity.
  - rewrite default_parse. cbn [bindC].
    rewrite (bind_Normal _ _ _ _ _ (call_pureExt _ w0)).
    unfold throw. rewrite !bind_ret. unfold ResponseError.
    cbn [p_message p_response p_request p_data p_originalError option_map negb].
    reflexivity.
Qed.

End DefaultClient.

(** X10.  The default client, called without options against a transport
    that answers with a response whose body text can be read: one request
    is sent, a [GET] to the URL as the host serializes it; an ok response
    makes the call
    resolve to a success holding the JSON value of the text (the text
    itself when it is not JSON, [null] when it is empty); any other
    response makes it resolve to a failure holding a [ResponseError] with
    the status, the response, the request and the parsed body, and the
    message [[status] statusText]. *)
Theorem default_client_result
        {St : Type} (pf : Platform St) (url : string) (fuel : nat) (w : World St)
        (r : Response) (s' : St) (d : nat) (text : string) :
  (exists keys, URL_searchParams_keys pf url = Normal keys) ->
  URLSearchParams_toString pf [] = "" ->
  (forall request, Request_check pf request = None) ->
  (forall request init t, global_fetch pf request init (env w) t = (Normal r, s', d)) ->
  rs_text r = inr text ->
  (0 < fuel)%nat ->
  resfetch pf fuel url None w
  = Some (Normal (if rs_ok r then ok (parsedText pf text)
                  else err (TResponseError
                              ("[" ++ pretty (rs_status r) ++ "] " ++ rs_statusText r)
                              (Some r) (Some (plainRequest pf url)) (parsedText pf text)
                              (Some (rs_status r)) undefinedThrown)),
          {| env := s'; now := (now w + d)%nat;
             trace := (trace w ++ [EvFetch (plainRequest pf url)])%list |}).
Proof.
  intros Hkeys Hqs Hcheck Hfetch Htext Hfuel.
  destruct fuel as [|fuel]; [lia|].
  unfold resfetch, createResfetch, fetcher, fetcherTry, enhancedFetch, try_catch.
  cbn [schemaDef globalSchemaDef mbind option_bind default from_option id
       emptySchema fs_body fs_query fs_params validateKey
       emptyResfetchOptions ro_body ro_query ro_params].
  rewrite !bind_ret.
  cbn [readValue replacePathParams isPlainObject negb].
  change (liftC (Normal url)) with (ret (St := St) url). rewrite bind_ret.
  unfold enhance.
  rewrite !bind_assoc.
  rewrite (bind_Normal _ _ _ _ _ (call_pureExt _ w)).
  rewrite !bind_assoc.
  rewrite (bind_Normal _ _ _ _ _
             (default_prepareOptions pf
                (toFetchOptions emptySchema emptyResfetchOptions Absent Absent) w
                eq_refl eq_refl)).
  cbn [readValue body toFetchOptions emptyResfetchOptions ro_body].
  rewrite bind_assoc. cbn [retryLoop].
  rewrite !bind_assoc.
  rewrite (bind_Normal _ _ _ _ _ (default_openAttempt pf url Hkeys Hqs Hcheck w)).
  cbn [fst snd].
  rewrite !bind_assoc.
  rewrite (bind_Normal _ _ _ _ _
             (default_sendAttempt pf r s' d w Hfetch _ (plainRequest pf url) w eq_refl)).
  cbn [fst snd].
  rewrite !bind_assoc.
  rewrite (bind_Normal _ _ _ _ _
             (default_decideRetry pf r _ 0 (plainRequest pf url) undefinedThrown _
                                  eq_refl ltac:(lia))).
  rewrite bind_ret.
  unfold bind.
  rewrite (default_settle pf r text Htext
             (prepared pf emptyOptions
                (Some (toFetchOptions emptySchema emptyResfetchOptions Absent Absent))
                VUndefined ∅)
             (plainRequest pf url) _ eq_refl eq_refl eq_refl).
  destruct (rs_ok r); reflexivity.
Qed.

Lemma default_client_result_witness :
  resfetch (Demo.platform [Normal (Demo.response 404 "null")]) 1 "https://a.com" None
           Demo.start
  = Some (Normal (err (TResponseError
                         ("[" ++ pretty 404 ++ "] ")
                         (Some (Demo.response 404 "null"))
                         (Some {| rq_url := "https://a.com/"; rq_method := "GET";
                                  rq_headers := ∅; rq_body := VUndefined;
                                  rq_signal := Some neverSignal |})
                         VNull (Some 404) undefinedThrown)),
          {| env := 1%nat; now := 1%nat;
             trace := [EvFetch {| rq_url := "https://a.com/"; rq_method := "GET";
                                  rq_headers := ∅; rq_body := VUndefined;
                                  rq_signal := Some neverSignal |}] |}).
Proof.
  apply (default_client_result (Demo.platform [Normal (Demo.response 404 "null")])
           "https://a.com" 1 Demo.start (Demo.response 404 "null") 1%nat 1%nat "null").
  - exists []. reflexivity.
  - reflexivity.
  - intros request. reflexivity.
  - intros request init t. reflexivity.
  - reflexivity.
  - lia.
Defined.

(** ** create: validated input *)

Lemma schemaDef_per_call {St : Type} (schema : option (Schema St)) url
      (o : ResfetchOptions St) def :
  globalSchemaDef schema url = None ->
  schemaDef schema url (Some (set_ro_schema o (Present def))) = def.
Proof. intros H. unfold schemaDef. now rewrite H. Qed.

(** X11.  When the body schema of a call accepts its body, what the call
    sends is the output of the schema: the call goes on as a call made
    with that output as its body and no body schema. *)
Theorem validated_body_is_sent
        {St : Type} (pf : Platform St) (schema : option (Schema St))
        (customFetch : option (FetchFn St)) (defaultOpts : FetcherOptions St)
        (fuel : nat) (url : string) (o : ResfetchOptions St) (def : FetchSchema St)
        (sch : StandardSchema St) (out : Value) (s : St) (d : nat) (w : World St) :
  globalSchemaDef schema url = None ->
  fs_body def = Some sch ->
  truthy (readValue (ro_body o)) = true ->
  sch (readValue (ro_body o)) (env w) (now w)
  = (Normal {| vr_issues := None; vr_value := out |}, s, d) ->
  fetcher pf schema customFetch defaultOpts fuel url
          (Some (set_ro_schema o (Present def))) w
  = fetcher pf schema customFetch defaultOpts fuel url
            (Some (set_ro_schema (set_ro_body o (Present out))
                                 (Present (set_fs_body def None))))
            {| env := s; now := (now w + d)%nat; trace := trace w |}.
Proof.
  intros Hglobal Hsch Htruthy Hrun.
  unfold fetcher, try_catch, fetcherTry.
  rewrite !(schemaDef_per_call schema url _ _ Hglobal).
  cbn [default from_option id set_ro_schema set_ro_body set_fs_body ro_body fs_body
       validateKey].
  rewrite Hsch. cbn [validateKey]. rewrite Htruthy.
  rewrite bind_ret. rewrite !bind_assoc.
  unfold validate. rewrite bind_assoc.
  rewrite (bind_Normal _ _ _ _ _ (call_eq _ _ _ _ _ Hrun)).
  cbn [vr_issues vr_value]. rewrite !bind_ret.
  reflexivity.
Qed.

Lemma validated_body_is_sent_witness :
  fetcher (Demo.platform []) None None emptyOptions 1 "https://a.com/x"
          (Some (set_ro_schema (Demo.posting (VObj [("name", VNum 1)]))
                   (Present {| fs_body := Some (Demo.tagging "checked");
                               fs_response := None; fs_query := None;
                               fs_params := None; fs_method := None |})))
          Demo.start
  = fetcher (Demo.platform []) None None emptyOptions 1 "https://a.com/x"
            (Some (set_ro_schema
                     (set_ro_body (Demo.posting (VObj [("name", VNum 1)]))
                                  (Present (VArr [VStr "checked"; VObj [("name", VNum 1)]])))
                     (Present (set_fs_body
                                 {| fs_body := Some (Demo.tagging "checked");
                                    fs_response := None; fs_query := None;
                                    fs_params := None; fs_method := None |} None))))
            {| env := O; now := (0 + 0)%nat; trace := [] |}.
Proof.
  apply (validated_body_is_sent (Demo.platform []) None None emptyOptions 1
           "https://a.com/x" (Demo.posting (VObj [("name", VNum 1)]))
           {| fs_body := Some (Demo.tagging "checked"); fs_response := None;
              fs_query := None; fs_params := None; fs_method := None |}
           (Demo.tagging "checked") (VArr [VStr "checked"; VObj [("name", VNum 1)]])
           O O Demo.start); reflexivity.
Defined.

(** X12.  A body that is falsy ([0], the empty string, [false], [null],
    [undefined]) is not validated: the call goes on as it does without a
    body schema. *)
Theorem falsy_body_is_not_validated
        {St : Type} (pf : Platform St) (schema : option (Schema St))
        (customFetch : option (FetchFn St)) (defaultOpts : FetcherOptions St)
        (fuel : nat) (url : string) (o : ResfetchOptions St) (def : FetchSchema St)
        (w : World St) :
  globalSchemaDef schema url = None ->
  truthy (readValue (ro_body o)) = false ->
  fetcher pf schema customFetch defaultOpts fuel url
          (Some (set_ro_schema o (Present def))) w
  = fetcher pf schema customFetch defaultOpts fuel url
            (Some (set_ro_schema o (Present (set_fs_body def None)))) w.
Proof.
  intros Hglobal Hfalsy.
  unfold fetcher, try_catch, fetcherTry.
  rewrite !(schemaDef_per_call schema url _ _ Hglobal).
  cbn [default from_option id set_ro_schema set_fs_body ro_body fs_body validateKey].
  destruct (fs_body def) as [sch|]; cbn [validateKey]; [|reflexivity].
  rewrite Hfalsy. reflexivity.
Qed.

Lemma falsy_body_is_not_validated_witness :
  fetcher (Demo.platform []) None None emptyOptions 1 "https://a.com/x"
          (Some (set_ro_schema (Demo.posting (VStr ""))
                   (Present {| fs_body := Some Demo.rejecting;
                               fs_response := None; fs_query := None;
                               fs_params := None; fs_method := None |})))
          Demo.start
  = fetcher (Demo.platform []) None None emptyOptions 1 "https://a.com/x"
            (Some (set_ro_schema (Demo.posting (VStr ""))
                     (Present (set_fs_body
                                 {| fs_body := Some Demo.rejecting;
                                    fs_response := None; fs_query := None;
                                    fs_params := None; fs_method := None |} None))))
            Demo.start.
Proof.
  apply (falsy_body_is_not_validated (Demo.platform []) None None emptyOptions 1
           "https://a.com/x" (Demo.posting (VStr ""))); reflexivity.
Defined.

(** ** create: a retry count that is [undefined] *)

Lemma abortableDelay_zero {St : Type} (sig : option AbortSignal) (w : World St) :
  abortableDelay (St := St) 0 sig w
  = Some (Normal tt, {| env := env w; now := now w;
                        trace := (trace w ++ [EvSleep 0 sig])%list |}).
Proof.
  unfold abortableDelay, bind, emit, clock, waitUntil. cbn [env now trace].
  destruct sig as [s|]; [destruct (sig_fires s) as [t|]|].
  - destruct ((now w <? t)%nat && (t <? now w + 0)%nat) eqn:E.
    + apply andb_prop in E as [E1 E2].
      apply Nat.ltb_lt in E1. apply Nat.ltb_lt in E2. lia.
    + cbn. repeat f_equal. lia.
  - cbn. repeat f_equal. lia.
  - cbn. repeat f_equal. lia.
Qed.

Section WithoutLimit.

Context {St : Type}.
Variable pf : Platform St.
Variable fetchFn : FetchFn St.
Variable url : string.
Hypothesis Hkeys : exists keys, URL_searchParams_keys pf url = Normal keys.
Hypothesis Hqs : URLSearchParams_toString pf [] = "".
Hypothesis Hcheck : forall request, Request_check pf request = None.
Hypothesis Hfetch :
  forall request init s t,
    exists r s' d, fetchFn request init s t = (Normal r, s', d) /\ rs_ok r = false.

Variable fo : FetcherOptions St.
Hypothesis Hfo :
  fo = toFetchOptions emptySchema
         (set_ro_retry emptyResfetchOptions (Present attemptsUndefined)) Absent Absent.

Lemma unlimited_openAttempt w :
  openAttempt pf (InputString url) (Some fo) emptyOptions
              (prepared pf emptyOptions (Some fo) VUndefined ∅) w
  = Some (Normal (set_signal (prepared pf emptyOptions (Some fo) VUndefined ∅)
                             (slotOf (bareSignal pf)),
                  plainRequest pf url), w).
Proof.
  rewrite Hfo. unfold openAttempt.
  assert (Hsig : withTimeout pf None None w = Some (Normal (bareSignal pf), w)).
  { unfold withTimeout, bareSignal. now destruct (AbortSignal_has_any pf). }
  cbn [opt read signal timeout toFetchOptions emptyResfetchOptions set_ro_retry
       ro_signal ro_timeout
       prepared set_headers set_body mergeOptions spread fallbackOptions emptyOptions].
  rewrite (bind_Normal _ _ _ _ _ Hsig).
  cbn [set_signal baseUrl read serializeParams params readValue opt toFetchOptions
       emptyResfetchOptions set_ro_retry ro_baseUrl ro_serializeParams ro_query
       prepared set_headers set_body mergeOptions spread fallbackOptions emptyOptions].
  rewrite bind_assoc.
  rewrite (bind_Normal _ _ _ _ _ (default_resolveUrl pf url Hkeys Hqs w)).
  rewrite bind_ret.
  unfold newRequest.
  cbn [read headers method body signal set_signal set_headers set_body prepared
       mergeOptions spread opt toFetchOptions emptyResfetchOptions set_ro_retry
       ro_method ro_signal
       emptySchema fs_method slotOf fallbackOptions emptyOptions].
  rewrite Headers__empty_record. cbn [bindC readValue isNullish].
  rewrite Hcheck.
  change (liftC (Normal ?x)) with (ret (St := St) x).
  rewrite bind_ret. unfold ret, plainRequest.
  destruct (bareSignal pf); reflexivity.
Qed.

Lemma unlimited_sendAttempt perTry request response w :
  exists r s' d,
    rs_ok r = false /\
    sendAttempt fetchFn (Some fo) emptyOptions perTry request response w
    = Some (Normal (Some r, undefinedThrown),
            {| env := s'; now := (now w + d)%nat;
               trace := (trace w ++ [EvFetch request])%list |}).
Proof.
  destruct (Hfetch request
              (set_headers (set_body perTry Absent)
                           (Present (HeadersRecord (rq_headers request))))
              (env w) (now w)) as (r & s' & d & E & Hok).
  exists r, s', d. split; [exact Hok|].
  rewrite Hfo. unfold sendAttempt, try_catch.
  cbn [read onRequest emptyOptions opt toFetchOptions emptyResfetchOptions set_ro_retry
       ro_onRequest option_map callHook].
  rewrite !bind_ret. unfold bind at 1, emit.
  unfold bind, call. cbn [env now trace]. rewrite E. reflexivity.
Qed.

Lemma unlimited_decideRetry perTry attempt request r error w :
  retry perTry = retry (mergeOptions pf emptyOptions (Some fo)) ->
  rs_ok r = false ->
  decideRetry (Some fo) emptyOptions perTry attempt request (Some r) error w
  = Some (Normal (Continue (attempt + 1)),
          {| env := env w; now := now w;
             trace := (trace w ++ [EvSleep 0 (read (signal perTry))])%list |}).
Proof.
  intros Hretry Hok. unfold decideRetry, try_catch. rewrite Hretry, Hfo.
  cbn [retry mergeOptions retryOf default from_option id read when attempts delay spread
       fallbackOptions fallbackRetry emptyOptions emptyRetry opt toFetchOptions
       emptyResfetchOptions set_ro_retry attemptsUndefined ro_retry option_map callRead
       wc_response].
  rewrite (bind_Normal _ _ _ _ _ (call_pureExt _ w)).
  rewrite Hok. cbn [negb]. rewrite !bind_ret.
  change (Z.to_nat 0) with O.
  rewrite (bind_Normal _ _ _ _ _ (abortableDelay_zero _ w)).
  cbn [read onRetry emptyOptions opt toFetchOptions emptyResfetchOptions set_ro_retry
       ro_onRetry option_map callHook].
  rewrite !bind_ret. reflexivity.
Qed.

Lemma unlimited_retryLoop fuel :
  forall attempt response error w,
    retryLoop pf fetchFn (InputString url) (Some fo) emptyOptions
              (prepared pf emptyOptions (Some fo) VUndefined ∅)
              fuel attempt response error w
    = None.
Proof.
  induction fuel as [|fuel IH]; intros attempt response error w; [reflexivity|].
  cbn [retryLoop].
  rewrite (bind_Normal _ _ _ _ _ (unlimited_openAttempt w)). cbn [fst snd].
  destruct (unlimited_sendAttempt
              (set_signal (prepared pf emptyOptions (Some fo) VUndefined ∅)
                          (slotOf (bareSignal pf)))
              (plainRequest pf url) response w) as (r & s' & d & Hok & E).
  rewrite (bind_Normal _ _ _ _ _ E). cbn [fst snd].
  pose proof (unlimited_decideRetry
                (set_signal (prepared pf emptyOptions (Some fo) VUndefined ∅)
                            (slotOf (bareSignal pf)))
                attempt (plainRequest pf url) r undefinedThrown
                {| env := s'; now := (now w + d)%nat;
                   trace := (trace w ++ [EvFetch (plainRequest pf url)])%list |}
                eq_refl Hok) as D.
  rewrite (bind_Normal _ _ _ _ _ D).
  apply IH.
Qed.

End WithoutLimit.

(** X13.  A call whose options set [retry.attempts] to [undefined] has no
    limit on its retries, since no attempt number is greater than
    [undefined]: against a transport that always answers with a response
    that is not ok, a client without defaults keeps sending the request
    and the call settles in no number of iterations. *)
Theorem undefined_attempts_retry_without_end
        {St : Type} (pf : Platform St) (fetchFn : FetchFn St) (url : string)
        (fuel : nat) (w : World St) :
  (exists keys, URL_searchParams_keys pf url = Normal keys) ->
  URLSearchParams_toString pf [] = "" ->
  (forall request, Request_check pf request = None) ->
  (forall request init s t,
      exists r s' d, fetchFn request init s t = (Normal r, s', d) /\ rs_ok r = false) ->
  createResfetch pf (Some {| cro_schema := None; cro_fetch := Some fetchFn;
                             cro_defaultOpts := emptyOptions |})
                 fuel url
                 (Some (set_ro_retry emptyResfetchOptions (Present attemptsUndefined))) w
  = None.
Proof.
  intros Hkeys Hqs Hcheck Hfetch.
  unfold createResfetch, fetcher, fetcherTry, enhancedFetch, try_catch.
  cbn [cro_schema cro_fetch cro_defaultOpts default from_option id].
  unfold schemaDef. cbn [globalSchemaDef mbind option_bind].
  cbn.
  enough (E : enhance pf fetchFn (fun _ _ => pureExt (Normal emptyOptions)) fuel
                      (InputString url)
                      (Some (toFetchOptions emptySchema
                               (set_ro_retry emptyResfetchOptions
                                             (Present attemptsUndefined))
                               Absent Absent)) w = None).
  { unfold bind at 1. now rewrite E. }
  unfold enhance.
  rewrite (bind_Normal _ _ _ _ _ (call_pureExt _ w)).
  rewrite (bind_Normal _ _ _ _ _
             (default_prepareOptions pf
                (toFetchOptions emptySchema
                   (set_ro_retry emptyResfetchOptions (Present attemptsUndefined))
                   Absent Absent) w eq_refl eq_refl)).
  unfold bind at 1.
  now rewrite (unlimited_retryLoop pf fetchFn url Hkeys Hqs Hcheck Hfetch _ eq_refl).
Qed.

Lemma undefined_attempts_retry_without_end_witness :
  createResfetch (Demo.platform [])
                 (Some {| cro_schema := None; cro_fetch := Some Demo.unavailable;
                          cro_defaultOpts := emptyOptions |})
                 7 "https://a.com/x"
                 (Some (set_ro_retry emptyResfetchOptions (Present attemptsUndefined)))
                 Demo.start
  = None.
Proof.
  apply (undefined_attempts_retry_without_end (Demo.platform []) Demo.unavailable
           "https://a.com/x" 7 Demo.start).
  - exists []. reflexivity.
  - reflexivity.
  - reflexivity.
  - intros request init s t. do 3 eexists. split; reflexivity.
Defined.

(** ** create: routes of the table *)

(** X24.  For a URL that is an own key of the route table, the call does
    exactly what the same call does on a client without a route table
    when the entry of the route is passed as the schema of the call: the
    entry has the part the schema of a call has there, and a schema
    passed with the call is not used. *)
Theorem route_entry_governs_call
        {St : Type} (pf : Platform St) (table : gmap string (FetchSchema St))
        (customFetch : option (FetchFn St)) (defaultOpts : FetcherOptions St)
        (url : string) (entry : FetchSchema St) (fuel : nat)
        (fetcherOptions : option (ResfetchOptions St)) (w : World St) :
  table !! url = Some entry ->
  fetcher pf (Some {| sc_schema := Some table |}) customFetch defaultOpts
          fuel url fetcherOptions w
  = fetcher pf None customFetch defaultOpts fuel url
            (Some (set_ro_schema (default emptyResfetchOptions fetcherOptions)
                                 (Present entry))) w.
Proof.
  intros Hin. unfold fetcher, fetcherTry.
  assert (Hl : schemaDef (Some {| sc_schema := Some table |}) url fetcherOptions = entry).
  { unfold schemaDef, globalSchemaDef. cbn. now rewrite Hin. }
  rewrite Hl. reflexivity.
Qed.

Lemma route_entry_governs_call_witness :
  fetcher (Demo.platform []) (Some {| sc_schema := Some Demo.routes |}) None emptyOptions
          1 "/test"
          (Some (Demo.withSchema (Present (Demo.onlyResponse (Demo.tagging "call")))))
          Demo.start
  = fetcher (Demo.platform []) None None emptyOptions 1 "/test"
            (Some (set_ro_schema
                     (Demo.withSchema (Present (Demo.onlyResponse (Demo.tagging "call"))))
                     (Present (Demo.onlyResponse (Demo.tagging "global")))))
            Demo.start.
Proof.
  apply (route_entry_governs_call (Demo.platform []) Demo.routes None emptyOptions "/test"
           (Demo.onlyResponse (Demo.tagging "global")) 1
           (Some (Demo.withSchema (Present (Demo.onlyResponse (Demo.tagging "call")))))
           Demo.start).
  vm_compute. reflexivity.
Defined.

(** ** create: the method and the response schema of a call *)

Section SchemaOfCall.

Context {St : Type}.
Variable pf : Platform St.
Variable url : string.
Variable def : FetchSchema St.
Variable m : string.
Variable sch : StandardSchema St.
Hypothesis Hmethod : fs_method def = Some m.
Hypothesis Hresponse : fs_response def = Some sch.
Hypothesis Hkeys : exists keys, URL_searchParams_keys pf url = Normal keys.
Hypothesis Hqs : URLSearchParams_toString pf [] = "".
Hypothesis Hcheck :
  Request_check pf {| rq_url := Request_url pf url; rq_method := normalizeMethod m;
                      rq_headers := ∅; rq_body := VUndefined;
                      rq_signal := bareSignal pf |} = None.

Variable fo : FetcherOptions St.
Hypothesis Hfo : fo = toFetchOptions def emptyResfetchOptions Absent Absent.

Lemma schema_openAttempt w :
  openAttempt pf (InputString url) (Some fo) emptyOptions
              (prepared pf emptyOptions (Some fo) VUndefined ∅) w
  = Some (Normal (set_signal (prepared pf emptyOptions (Some fo) VUndefined ∅)
                             (slotOf (bareSignal pf)),
                  {| rq_url := Request_url pf url; rq_method := normalizeMethod m;
                     rq_headers := ∅; rq_body := VUndefined;
                     rq_signal := bareSignal pf |}), w).
Proof.
  rewrite Hfo. unfold openAttempt.
  assert (Hsig : withTimeout pf None None w = Some (Normal (bareSignal pf), w)).
  { unfold withTimeout, bareSignal. now destruct (AbortSignal_has_any pf). }
  cbn [opt read signal timeout toFetchOptions emptyResfetchOptions
       ro_signal ro_timeout
       prepared set_headers set_body mergeOptions spread fallbackOptions emptyOptions].
  rewrite (bind_Normal _ _ _ _ _ Hsig).
  cbn [set_signal baseUrl read serializeParams params readValue opt toFetchOptions
       emptyResfetchOptions ro_baseUrl ro_serializeParams ro_query
       prepared set_headers set_body mergeOptions spread fallbackOptions emptyOptions].
  rewrite bind_assoc.
  rewrite (bind_Normal _ _ _ _ _ (default_resolveUrl pf url Hkeys Hqs w)).
  rewrite bind_ret.
  unfold newRequest.
  cbn [read headers method body signal set_signal set_headers set_body prepared
       mergeOptions spread opt toFetchOptions emptyResfetchOptions
       ro_method ro_signal slotOf fallbackOptions emptyOptions].
  rewrite Hmethod. cbn [slotOf spread read].
  rewrite Headers__empty_record. cbn [bindC readValue isNullish].
  assert (E : read (slotOf (bareSignal pf)) = bareSignal pf) by now destruct (bareSignal pf).
  rewrite E.
  replace (match bareSignal pf with Some s => Some s | None => None end)
    with (bareSignal pf) by now destruct (bareSignal pf).
  rewrite Hcheck.
  change (liftC (Normal ?x)) with (ret (St := St) x).
  now rewrite bind_ret.
Qed.

Variable r : Response.
Variable text : string.
Hypothesis Hok : rs_ok r = true.
Hypothesis Htext : rs_text r = inr text.

Lemma schema_sendAttempt perTry request s' d (w : World St) :
  (forall init t, global_fetch pf request init (env w) t = (Normal r, s', d)) ->
  sendAttempt (global_fetch pf) (Some fo) emptyOptions perTry request None w
  = Some (Normal (Some r, undefinedThrown),
          {| env := s'; now := (now w + d)%nat;
             trace := (trace w ++ [EvFetch request])%list |}).
Proof.
  intros Hfetch. rewrite Hfo. unfold sendAttempt, try_catch.
  cbn [read onRequest emptyOptions opt toFetchOptions emptyResfetchOptions
       ro_onRequest option_map callHook].
  rewrite !bind_ret. unfold bind at 1, emit.
  unfold bind, call. cbn [env now trace]. rewrite Hfetch. reflexivity.
Qed.

Lemma schema_settle options request out s'' d' (w : World St) :
  read (reject options) = read (reject (fallbackOptions pf)) ->
  read (parseResponse options) = read (parseResponse (fallbackOptions pf)) ->
  sch (parsedText pf text) (env w) (now w)
  = (Normal {| vr_issues := None; vr_value := out |}, s'', d') ->
  settle pf (Some fo) emptyOptions options
         {| ls_request := request; ls_response := Some r; ls_error := undefinedThrown |} w
  = Some (Normal out, {| env := s''; now := (now w + d')%nat; trace := trace w |}).
Proof.
  intros Hrej Hp Hsch. rewrite Hfo. unfold settle, try_catch.
  cbn [ls_error ls_response ls_request truthyThrown undefinedThrown truthy].
  rewrite Hrej, Hp.
  cbn [read reject parseResponse fallbackOptions option_map callRead
       onResponse onSuccess onError emptyOptions opt toFetchOptions emptyResfetchOptions
       ro_onResponse ro_onSuccess ro_onError callHook schema].
  rewrite Hresponse. cbn [slotOf read].
  rewrite (bind_Normal _ _ _ _ _ (call_pureExt _ w)).
  rewrite Hok. cbn [negb]. rewrite !bind_ret.
  rewrite (default_parse pf r text Htext).
  rewrite (bind_Normal _ _ _ _ _ (call_pureExt _ w)).
  unfold validate. rewrite bind_assoc.
  rewrite (bind_Normal _ _ _ _ _ (call_eq _ _ _ _ _ Hsch)).
  cbn [vr_issues vr_value]. rewrite !bind_ret. reflexivity.
Qed.

End SchemaOfCall.

(** X25.  A call on the default client whose options carry only a schema
    with a method and a response validator: the request is sent with the
    method of the schema, normalized, and when the transport answers with
    an ok response whose parsed body the validator accepts, the call
    resolves to a success holding the output of the validator, not the
    parsed body. *)
Theorem call_schema_gives_method_and_data
        {St : Type} (pf : Platform St) (url : string) (def : FetchSchema St)
        (m : string) (sch : StandardSchema St) (fuel : nat) (w : World St)
        (r : Response) (s' : St) (d : nat) (text : string)
        (out : Value) (s'' : St) (d' : nat) :
  fs_method def = Some m ->
  fs_response def = Some sch ->
  (exists keys, URL_searchParams_keys pf url = Normal keys) ->
  URLSearchParams_toString pf [] = "" ->
  Request_check pf {| rq_url := Request_url pf url; rq_method := normalizeMethod m;
                      rq_headers := ∅; rq_body := VUndefined;
                      rq_signal := bareSignal pf |} = None ->
  (forall init t,
      global_fetch pf {| rq_url := Request_url pf url; rq_method := normalizeMethod m;
                         rq_headers := ∅; rq_body := VUndefined;
                         rq_signal := bareSignal pf |} init (env w) t
      = (Normal r, s', d)) ->
  rs_ok r = true ->
  rs_text r = inr text ->
  sch (parsedText pf text) s' (now w + d)%nat
  = (Normal {| vr_issues := None; vr_value := out |}, s'', d') ->
  (0 < fuel)%nat ->
  resfetch pf fuel url (Some (set_ro_schema emptyResfetchOptions (Present def))) w
  = Some (Normal (ok out),
          {| env := s''; now := (now w + d + d')%nat;
             trace := (trace w ++
                       [EvFetch {| rq_url := Request_url pf url;
                                   rq_method := normalizeMethod m;
                                   rq_headers := ∅; rq_body := VUndefined;
                                   rq_signal := bareSignal pf |}])%list |}).
Proof.
  intros Hmethod Hresponse Hkeys Hqs Hcheck Hfetch Hok Htext Hsch Hfuel.
  destruct fuel as [|fuel]; [lia|].
  unfold resfetch, createResfetch, fetcher, fetcherTry, enhancedFetch, try_catch.
  cbn [schemaDef globalSchemaDef mbind option_bind default from_option id
       set_ro_schema ro_schema read ro_body ro_query ro_params emptyResfetchOptions].
  assert (Hv : forall s0, validateKey pf s0 (Absent : Slot Value) = ret (St := St) Absent).
  { intros [s0|]; reflexivity. }
  rewrite !Hv, !bind_ret.
  cbn [readValue replacePathParams isPlainObject negb].
  change (liftC (Normal url)) with (ret (St := St) url). rewrite bind_ret.
  unfold enhance.
  rewrite !bind_assoc.
  rewrite (bind_Normal _ _ _ _ _ (call_pureExt _ w)).
  rewrite !bind_assoc.
  pose (fo := toFetchOptions def
                (set_ro_schema emptyResfetchOptions (Present def)) Absent Absent).
  assert (Hfo : fo = toFetchOptions def emptyResfetchOptions Absent Absent) by reflexivity.
  change (toFetchOptions def _ Absent Absent) with fo.
  rewrite (bind_Normal _ _ _ _ _ (default_prepareOptions pf fo w eq_refl eq_refl)).
  change (readValue (body fo)) with VUndefined.
  rewrite bind_assoc. cbn [retryLoop].
  rewrite !bind_assoc.
  rewrite (bind_Normal _ _ _ _ _
             (schema_openAttempt pf url def m Hmethod Hkeys Hqs Hcheck fo Hfo w)).
  cbn [fst snd].
  rewrite !bind_assoc.
  rewrite (bind_Normal _ _ _ _ _
             (schema_sendAttempt pf def fo Hfo r _ _ s' d w Hfetch)).
  cbn [fst snd].
  rewrite !bind_assoc.
  rewrite (bind_Normal _ _ _ _ _
             (decideRetry_default_ok St (Some fo) emptyOptions
                (set_signal (prepared pf emptyOptions (Some fo) VUndefined ∅)
                            (slotOf (bareSignal pf)))
                0 _ r undefinedThrown _ eq_refl Hok)).
  rewrite bind_ret.
  unfold bind.
  rewrite (schema_settle pf def sch Hresponse fo Hfo r text Hok Htext
             (prepared pf emptyOptions (Some fo) VUndefined ∅) _ out s'' d'
             {| env := s'; now := (now w + d)%nat;
                trace := (trace w ++ [EvFetch _])%list |} eq_refl eq_refl Hsch).
  reflexivity.
Qed.

Lemma call_schema_gives_method_and_data_witness :
  resfetch (Demo.platform []) 1 "https://a.com"
           (Some (set_ro_schema emptyResfetchOptions
                    (Present {| fs_method := Some "post";
                                fs_response := Some (Demo.tagging "checked");
                                fs_body := None; fs_query := None; fs_params := None |})))
           Demo.start
  = Some (Normal (ok (VArr [VStr "checked"; VNull])),
          {| env := 1%nat; now := (0 + 1 + 0)%nat;
             trace := [EvFetch {| rq_url := "https://a.com/"; rq_method := "POST";
                                  rq_headers := ∅; rq_body := VUndefined;
                                  rq_signal := Some neverSignal |}] |}).
Proof.
  apply (call_schema_gives_method_and_data (Demo.platform []) "https://a.com"
           {| fs_method := Some "post"; fs_response := Some (Demo.tagging "checked");
              fs_body := None; fs_query := None; fs_params := None |}
           "post" (Demo.tagging "checked") 1 Demo.start (Demo.response 200 "null")
           1%nat 1%nat "null" (VArr [VStr "checked"; VNull]) 1%nat O).
  - reflexivity.
  - reflexivity.
  - exists []. reflexivity.
  - reflexivity.
  - reflexivity.
  - intros init t. reflexivity.
  - reflexivity.
  - reflexivity.
  - reflexivity.
  - lia.
Defined.

(** ** utils: replacePathParams on well-behaved input *)

Lemma string_includes_cons c d s :
  string_includes c (String d s) = false ->
  Ascii.eqb c d = false /\ string_includes c s = false.
Proof. cbn [string_includes]. now intros [H1 H2]%orb_false_elim. Qed.

Lemma prefix_colon_mismatch key c s :
  Ascii.eqb ":" c = false -> String.prefix (":" ++ key) (String c s) = false.
Proof.
  intros H.
  change (String.prefix (":" ++ key) (String c s))
    with (if ascii_dec ":" c then String.prefix key s else false).
  destruct (ascii_dec ":" c) as [<-|_]; [|reflexivity].
  now rewrite Ascii.eqb_refl in H.
Qed.

Lemma prefix_app lit post : String.prefix lit (lit ++ post) = true.
Proof.
  induction lit as [|c lit IH]; [now destruct post|].
  change (String.prefix (String c lit) (String c lit ++ post))
    with (if ascii_dec c c then String.prefix lit (lit ++ post) else false).
  now destruct (ascii_dec c c).
Qed.

Lemma append_cons x (a b : string) : (String x a ++ b = String x (a ++ b))%string.
Proof. reflexivity. Qed.

Lemma append_assoc (a b c : string) : ((a ++ b) ++ c = a ++ (b ++ c))%string.
Proof. induction a as [|x a IH]; [reflexivity|]. now rewrite !append_cons, IH. Qed.

Lemma append_empty_r (a : string) : (a ++ "" = a)%string.
Proof. induction a as [|x a IH]; [reflexivity|]. now rewrite append_cons, IH. Qed.

Lemma string_drop_app lit post : string_drop (String.length lit) (lit ++ post) = post.
Proof.
  induction lit as [|c lit IH]; [reflexivity|].
  rewrite append_cons. exact IH.
Qed.

(** Scanning a text without colons finds no token. *)
Lemma replaceFrom_without_colon key replacement s :
  string_includes ":" s = false ->
  forall before, replaceFrom (":" ++ key) replacement O before s = s.
Proof.
  induction s as [|c s IH]; intros H before; [reflexivity|].
  apply string_includes_cons in H as [Hc Hs].
  cbn [replaceFrom]. unfold matchAt. rewrite (prefix_colon_mismatch key c s Hc).
  now rewrite IH.
Qed.

(** The characters of a match are consumed without being scanned. *)
Lemma replaceFrom_skip lit replacement t post :
  forall before,
    replaceFrom lit replacement (String.length t) before (t ++ post)
    = replaceFrom lit replacement O (before ++ t) post.
Proof.
  induction t as [|c t IH]; intros before.
  - now rewrite append_empty_r.
  - rewrite append_cons. cbn [String.length replaceFrom]. rewrite IH.
    now rewrite append_assoc.
Qed.

(** A replacement without [$] is inserted as it is. *)
Lemma getSubstitution_plain matched before after replacement :
  string_includes "$" replacement = false ->
  getSubstitution matched before after replacement = replacement.
Proof.
  induction replacement as [|c rest IH]; intros H; [reflexivity|].
  apply string_includes_cons in H as [Hc Hrest].
  cbn [getSubstitution]. rewrite Ascii.eqb_sym in Hc. rewrite Hc. now rewrite IH.
Qed.

(** At a token that is followed by a word boundary, the match is replaced
    and the scan continues after it. *)
Lemma replaceFrom_at_token c lit replacement post before :
  wordBoundary (string_last " " (String c lit)) (string_head post) = true ->
  replaceFrom (String c lit) replacement O before (String c lit ++ post)
  = (getSubstitution (String c lit) before post replacement
     ++ replaceFrom (String c lit) replacement O (before ++ String c lit) post)%string.
Proof.
  intros Hb. rewrite append_cons. cbn [replaceFrom]. unfold matchAt.
  rewrite <- append_cons. rewrite prefix_app, string_drop_app, Hb.
  f_equal. cbn [String.length]. rewrite Nat.sub_1_r. cbn [Nat.pred].
  rewrite replaceFrom_skip. f_equal. now rewrite append_assoc.
Qed.

Lemma replaceLiteralAll_one_token key replacement pre post :
  string_includes ":" pre = false ->
  string_includes ":" post = false ->
  wordBoundary (string_last " " (":" ++ key)) (string_head post) = true ->
  string_includes "$" replacement = false ->
  replaceLiteralAll (":" ++ key) replacement (pre ++ (":" ++ key) ++ post)
  = (pre ++ replacement ++ post)%string.
Proof.
  intros Hpre Hpost Hb Hr. unfold replaceLiteralAll.
  enough (H : forall before,
             replaceFrom (":" ++ key) replacement O before (pre ++ (":" ++ key) ++ post)
             = (pre ++ replacement ++ post)%string) by apply H.
  induction pre as [|c pre IH]; intros before.
  - change ("" ++ (":" ++ key) ++ post)%string with (String ":" key ++ post)%string.
    change (":" ++ key)%string with (String ":" key) in *.
    rewrite (replaceFrom_at_token _ _ _ _ _ Hb).
    rewrite (getSubstitution_plain _ _ _ _ Hr).
    change (String ":" key) with (":" ++ key)%string.
    now rewrite (replaceFrom_without_colon key _ post Hpost).
  - apply string_includes_cons in Hpre as [Hc Hpre].
    rewrite (append_cons c pre). cbn [replaceFrom]. unfold matchAt.
    rewrite (prefix_colon_mismatch key c _ Hc). now rewrite (IH Hpre).
Qed.

(** X14.  A path without colons is left as it is by every parameter
    object whose keys are free of pattern syntax, and nothing is thrown. *)
Theorem replacePathParams_without_tokens
        {St : Type} (pf : Platform St) (path : string) (entries : list (string * Value)) :
  string_includes ":" path = false ->
  forallb (fun kv => isLiteralKey (fst kv)) entries = true ->
  replacePathParams pf path (VObj entries) = Normal path.
Proof.
  intros Hpath. unfold replacePathParams.
  destruct (negb (isPlainObject (VObj entries))); [reflexivity|]. cbn [spreadProps].
  induction entries as [|[k v] entries IH]; intros H; [reflexivity|].
  cbn [forallb fst] in H. apply andb_prop in H as [Hk Hrest].
  cbn [fold_left bindC fst snd]. unfold replaceKey. rewrite Hk.
  unfold replaceLiteralAll. rewrite (replaceFrom_without_colon k _ path Hpath).
  destruct (isNullish v); now apply IH.
Qed.

Lemma replacePathParams_without_tokens_witness :
  replacePathParams (Demo.platform []) "/users/all"
                    (VObj [("id", VNum 7); ("tab", VStr "a$&b")])
  = Normal "/users/all".
Proof.
  apply (replacePathParams_without_tokens (Demo.platform []) "/users/all"
           [("id", VNum 7); ("tab", VStr "a$&b")]); reflexivity.
Defined.

(** X15.  A token [:key] that stands once in the path, followed by a word
    boundary, is replaced by [String(value)] when the value is a string, a
    boolean or a safe integer whose text holds no [$], and the key is not
    [constructor]; the rest of the path is unchanged. *)
Theorem replacePathParams_substitutes
        {St : Type} (pf : Platform St) (pre post key : string) (v : Value) :
  isLiteralKey key = true ->
  key <> "constructor" ->
  string_includes ":" pre = false ->
  string_includes ":" post = false ->
  wordBoundary (string_last " " (":" ++ key)) (string_head post) = true ->
  isPrintable v = true ->
  string_includes "$" (String_ v) = false ->
  replacePathParams pf (pre ++ (":" ++ key) ++ post) (VObj [(key, v)])
  = Normal (pre ++ String_ v ++ post)%string.
Proof.
  intros Hkey Hc Hpre Hpost Hb Hv Hs. unfold replacePathParams.
  assert (Hplain : isPlainObject (VObj [(key, v)]) = true).
  { cbn [isPlainObject constructorIsObject]. unfold ownProp. cbn [List.find fst].
    destruct (String.eqb_spec "constructor" key) as [E|_]; [now subst|reflexivity]. }
  rewrite Hplain. cbn [negb spreadProps fold_left bindC fst snd].
  assert (Hn : isNullish v = false) by (destruct v; try discriminate Hv; reflexivity).
  rewrite Hn. unfold replaceKey. rewrite Hkey.
  now rewrite replaceLiteralAll_one_token.
Qed.

Lemma replacePathParams_substitutes_witness :
  replacePathParams (Demo.platform []) "/users/:id/posts" (VObj [("id", VNum 42)])
  = Normal "/users/42/posts".
Proof.
  apply (replacePathParams_substitutes (Demo.platform []) "/users/" "/posts" "id"
           (VNum 42)); first [reflexivity | discriminate].
Defined.

Lemma plain_without_nullish (entries : list (string * Value)) :
  isPlainObject (VObj entries) = true ->
  isPlainObject (VObj (List.filter (fun kv => negb (isNullish (snd kv))) entries)) = true.
Proof.
  cbn [isPlainObject constructorIsObject]. unfold ownProp.
  induction entries as [|[k v] entries IH]; [reflexivity|].
  cbn [List.find List.filter fst snd].
  destruct (String.eqb "constructor" k) eqn:E.
  - cbn [fmap option_fmap option_map snd]. intros H.
    destruct v; try discriminate H.
    cbn [isNullish negb List.find fst]. rewrite E. exact H.
  - intros H. destruct (negb (isNullish v)); [|now apply IH].
    cbn [List.find fst]. rewrite E. now apply IH.
Qed.

(** X16.  In a plain object, parameters whose value is [null] or
    [undefined] are skipped one by one: the path comes out as it does for
    the object without them, the other parameters being substituted in the
    same order. *)
Theorem replacePathParams_skips_nullish
        {St : Type} (pf : Platform St) (path : string)
        (entries : list (string * Value)) :
  isPlainObject (VObj entries) = true ->
  replacePathParams pf path (VObj entries)
  = replacePathParams pf path
      (VObj (List.filter (fun kv => negb (isNullish (snd kv))) entries)).
Proof.
  intros Hplain. unfold replacePathParams.
  rewrite Hplain, (plain_without_nullish entries Hplain).
  cbn [negb spreadProps]. clear Hplain.
  generalize (Normal path : Completion string).
  induction entries as [|[k v] entries IH]; intros acc; cbn [List.filter fold_left].
  - reflexivity.
  - cbn [snd fst]. destruct (isNullish v) eqn:Hv; cbn [negb fold_left snd fst].
    + rewrite <- IH. f_equal. destruct acc; reflexivity.
    + rewrite Hv. apply IH.
Qed.

Lemma replacePathParams_skips_nullish_witness :
  replacePathParams (Demo.platform []) "/u/:id/:tab"
                    (VObj [("tab", VNull); ("id", VNum 7)])
  = replacePathParams (Demo.platform []) "/u/:id/:tab" (VObj [("id", VNum 7)]).
Proof.
  apply (replacePathParams_skips_nullish (Demo.platform []) "/u/:id/:tab"
           [("tab", VNull); ("id", VNum 7)]).
  reflexivity.
Defined.

(** ** utils: mergeHeaders *)

Lemma mergeHeaders_Throw (l : list (option HeadersInit)) e :
  fold_left
    (fun acc init =>
       bindC acc (fun res =>
       bindC (Headers_ init) (fun h => Normal (map_fold mergeEntry res h))))
    l (Throw e) = Throw e.
Proof. induction l as [|x l IH]; cbn; [reflexivity|exact IH]. Qed.

Lemma mergeHeaders_snoc inits last :
  mergeHeaders (inits ++ [last])
  = bindC (mergeHeaders inits) (fun res =>
    bindC (Headers_ last) (fun h => Normal (map_fold mergeEntry res h))).
Proof. unfold mergeHeaders. now rewrite fold_left_app. Qed.

(** X17.  In [mergeHeaders], the last list of headers wins key by key: an
    entry with the value ['null'] or ['undefined'] removes the key,
    whatever the earlier lists say, any other entry sets it, and the keys
    it does not name keep what the earlier lists gave them. *)
Theorem mergeHeaders_last_wins
        (inits : list (option HeadersInit)) (last : option HeadersInit)
        (res h : gmap string string) :
  mergeHeaders inits = Normal res ->
  Headers_ last = Normal h ->
  exists merged,
    mergeHeaders (inits ++ [last]) = Normal merged /\
    forall k,
      merged !! k = match h !! k with
                    | Some v => if deletes v then None else Some v
                    | None => res !! k
                    end.
Proof.
  intros Hres Hh. rewrite mergeHeaders_snoc, Hres, Hh. cbn [bindC].
  eexists. split; [reflexivity|]. intros k. apply merge_round_lookup.
Qed.

Lemma mergeHeaders_last_wins_witness :
  exists merged,
    mergeHeaders ([Some (HeadersList [("Content-Type", VStr "application/json");
                                     ("X-Trace", VStr "on")])]
                  ++ [Some (HeadersList [("content-type", VStr "null");
                                         ("Accept", VStr "text/html")])])
    = Normal merged /\
    forall k,
      merged !! k
      = match ({[ "content-type" := "null"; "accept" := "text/html" ]}
                 : gmap string string) !! k with
        | Some v => if deletes v then None else Some v
        | None => ({[ "content-type" := "application/json"; "x-trace" := "on" ]}
                     : gmap string string) !! k
        end.
Proof.
  apply (mergeHeaders_last_wins
           [Some (HeadersList [("Content-Type", VStr "application/json");
                               ("X-Trace", VStr "on")])]
           (Some (HeadersList [("content-type", VStr "null");
                               ("Accept", VStr "text/html")]))).
  - vm_compute. reflexivity.
  - vm_compute. reflexivity.
Defined.

Lemma mergeHeaders_inv (inits : list (option HeadersInit)) res :
  mergeHeaders inits = Normal res ->
  (forall init, In init inits -> exists h, Headers_ init = Normal h) /\
  forall k v, res !! k = Some v -> deletes v = false.
Proof.
  revert res. induction inits as [|last inits IH] using rev_ind; intros merged H.
  - injection H as <-. split; [intros init []|].
    intros k v Hk. rewrite lookup_empty in Hk. discriminate Hk.
  - rewrite mergeHeaders_snoc in H.
    destruct (mergeHeaders inits) as [res|e]; cbn [bindC] in H; [|discriminate H].
    destruct (Headers_ last) as [h|e] eqn:Hlast; cbn [bindC] in H; [|discriminate H].
    injection H as <-. destruct (IH res eq_refl) as [Hall Hvals]. split.
    + intros init [Hin|[<-|[]]]%in_app_or; [now apply Hall|eauto].
    + intros k v Hk. rewrite merge_round_lookup in Hk.
      destruct (h !! k) as [v'|].
      * destruct (deletes v') eqn:Hd; [discriminate Hk|]. now injection Hk as <-.
      * now apply (Hvals k).
Qed.

(** X18.  [mergeHeaders] returns a record when every list of headers is
    accepted by [Headers], and no value of this record is ['null'] or
    ['undefined']; it throws as soon as one list is rejected. *)
Theorem mergeHeaders_result (inits : list (option HeadersInit)) :
  ((forall init, In init inits -> exists h, Headers_ init = Normal h) ->
   exists res, mergeHeaders inits = Normal res /\
               forall k v, res !! k = Some v -> deletes v = false) /\
  (forall init e, In init inits -> Headers_ init = Throw e ->
                  exists e', mergeHeaders inits = Throw e').
Proof.
  split.
  - intros Hall.
    assert (H : exists res, mergeHeaders inits = Normal res).
    { induction inits as [|last inits IH] using rev_ind; [now exists ∅|].
      rewrite mergeHeaders_snoc.
      destruct IH as (res & ->).
      { intros init Hin. apply Hall, in_or_app. now left. }
      destruct (Hall last) as (h & ->); [apply in_or_app; right; now left|].
      cbn [bindC]. eauto. }
    destruct H as (res & H). exists res. split; [exact H|].
    exact (proj2 (mergeHeaders_inv inits res H)).
  - intros init e Hin Hthrow.
    destruct (mergeHeaders inits) as [res|e'] eqn:H; [|eauto].
    destruct (proj1 (mergeHeaders_inv inits res H) init Hin) as (h & Hh).
    rewrite Hh in Hthrow. discriminate Hthrow.
Qed.

Lemma mergeHeaders_result_witness :
  (exists res,
      mergeHeaders [Some (HeadersList [("X-Trace", VStr "null")]); None] = Normal res /\
      forall k v, res !! k = Some v -> deletes v = false) /\
  (exists e', mergeHeaders [None; Some (HeadersList [("bad name", VStr "x")])] = Throw e').
Proof.
  split.
  - apply (proj1 (mergeHeaders_result
                    [Some (HeadersList [("X-Trace", VStr "null")]); None])).
    intros init [<-|[<-|[]]]; eexists; vm_compute; reflexivity.
  - apply (proj2 (mergeHeaders_result
                    [None; Some (HeadersList [("bad name", VStr "x")])])
                 (Some (HeadersList [("bad name", VStr "x")]))
                 (typeError "Invalid header")).
    + right. left. reflexivity.
    + vm_compute. reflexivity.
Defined.

(** ** utils: withTimeout *)

Lemma AbortSignal_any_one t0 c : AbortSignal_any t0 [c] = c.
Proof.
  unfold AbortSignal_any. cbn [find]. destruct (aborted t0 c); [reflexivity|].
  cbn [fold_left]. unfold earlier. cbn [sig_fires neverSignal]. reflexivity.
Qed.

(** X19.  Without a timeout ([timeout] missing or [0]), and on a host
    without [AbortSignal.any] whatever the timeout, [withTimeout] gives a
    signal that follows the caller's alone: it fires when the caller's
    signal does, with the same reason, and never when there is no caller's
    signal; on a host without [AbortSignal.any] it is the caller's signal
    itself. *)
Theorem withTimeout_follows_caller
        {St : Type} (pf : Platform St) (caller : option AbortSignal) (tmo : option Z)
        (w : World St) :
  AbortSignal_has_any pf = false \/ tmo = None \/ tmo = Some 0 ->
  exists sig,
    withTimeout pf caller tmo w = Some (Normal sig, w) /\
    firesAt sig = firesAt caller /\
    (forall c, caller = Some c ->
               exists s, sig = Some s /\ sig_reason s = sig_reason c) /\
    (AbortSignal_has_any pf = false -> sig = caller).
Proof.
  intros H. unfold withTimeout.
  destruct (AbortSignal_has_any pf) eqn:Hany.
  - assert (Htsig : match tmo with
                    | Some ms =>
                        if ms =? 0 then ret (St := St) None
                        else if ms <? 0
                             then throw (typeError
                                    "Value is outside the 'unsigned long long' value range")
                             else ret (Some (AbortSignal_timeout (now w) ms))
                    | None => ret None
                    end = ret None).
    { destruct H as [H|[->| ->]]; [discriminate H|reflexivity|reflexivity]. }
    unfold bind at 1, clock. rewrite Htsig, bind_ret. unfold ret.
    destruct caller as [c|].
    + change (filterSignals [Some c; None]) with [c]. rewrite AbortSignal_any_one.
      exists (Some c). split; [reflexivity|]. split; [reflexivity|].
      split; [|discriminate]. intros ? [= <-]. eauto.
    + change (filterSignals [None; None]) with (@nil AbortSignal).
      exists (Some (AbortSignal_any (now w) [])). split; [reflexivity|].
      split; [reflexivity|]. split; [|discriminate]. intros c Hc. discriminate Hc.
  - exists caller. unfold ret. split; [reflexivity|]. split; [reflexivity|].
    split; [|reflexivity]. intros c ->. eauto.
Qed.

Lemma withTimeout_follows_caller_witness :
  exists sig,
    withTimeout (Demo.platform [])
                (Some {| sig_fires := Some 5%nat; sig_reason := ExnValue (VStr "stop") |})
                (Some 0) Demo.start
    = Some (Normal sig, Demo.start) /\
    firesAt sig = Some 5%nat /\
    (forall c, Some {| sig_fires := Some 5%nat; sig_reason := ExnValue (VStr "stop") |}
               = Some c ->
               exists s, sig = Some s /\ sig_reason s = sig_reason c) /\
    (AbortSignal_has_any (Demo.platform []) = false ->
     sig = Some {| sig_fires := Some 5%nat; sig_reason := ExnValue (VStr "stop") |}).
Proof.
  apply (withTimeout_follows_caller (Demo.platform [])
           (Some {| sig_fires := Some 5%nat; sig_reason := ExnValue (VStr "stop") |})
           (Some 0) Demo.start).
  right. right. reflexivity.
Defined.

(** ** utils: resolveUrl *)

Lemma omit_all_shadowed (obj : Value) (keys : list string) :
  (forall kv, In kv (spreadProps obj) -> In (fst kv) keys) ->
  omit obj keys = [].
Proof.
  unfold omit. induction (spreadProps obj) as [|kv l IH]; intros H; [reflexivity|].
  rewrite filter_cons. destruct (decide _) as [Hd|_].
  - exfalso. assert (Hin : In (fst kv) keys) by (apply H; now left).
    assert (Hex : existsb (String.eqb (fst kv)) keys = true).
    { apply existsb_exists. exists (fst kv). split; [exact Hin|apply String.eqb_refl]. }
    rewrite Hex in Hd. discriminate Hd.
  - apply IH. intros kv' Hin. apply H. now right.
Qed.

(** X20.  Default query parameters whose names all occur in the query of
    the input URL are dropped: the URL is resolved as if there were no
    default parameters. *)
Theorem resolveUrl_shadowed_defaults
        {St : Type} (pf : Platform St) (base : option string) (input : string)
        (defaultOptsParams fetcherOptsParams : Value)
        (serializeParams : option (Value -> Ext St string))
        (keys : list string) (w : World St) :
  URL_searchParams_keys pf input = Normal keys ->
  (forall kv, In kv (spreadProps defaultOptsParams) -> In (fst kv) keys) ->
  resolveUrl pf base input defaultOptsParams fetcherOptsParams serializeParams w
  = resolveUrl pf base input VUndefined fetcherOptsParams serializeParams w.
Proof.
  intros Hkeys Hall. unfold resolveUrl. rewrite Hkeys.
  change (liftC (Normal keys)) with (ret (St := St) keys). rewrite !bind_ret.
  rewrite (omit_all_shadowed defaultOptsParams keys Hall).
  reflexivity.
Qed.

Lemma resolveUrl_shadowed_defaults_witness :
  resolveUrl (Demo.platformWithQuery ["page"]) (Some "https://a.com") "/items?page=2"
             (VObj [("page", VNum 1)]) (VObj [("sort", VStr "asc")])
             (read (serializeParams (fallbackOptions (Demo.platformWithQuery ["page"]))))
             Demo.start
  = resolveUrl (Demo.platformWithQuery ["page"]) (Some "https://a.com") "/items?page=2"
               VUndefined (VObj [("sort", VStr "asc")])
               (read (serializeParams (fallbackOptions (Demo.platformWithQuery ["page"]))))
               Demo.start.
Proof.
  apply (resolveUrl_shadowed_defaults (Demo.platformWithQuery ["page"])
           (Some "https://a.com") "/items?page=2" (VObj [("page", VNum 1)])
           (VObj [("sort", VStr "asc")]) _ ["page"] Demo.start).
  - reflexivity.
  - intros kv [<-|[]]. left. reflexivity.
Defined.

Lemma string_last_snoc d (b : string) c : string_last d (b ++ String c "") = c.
Proof.
  revert d. induction b as [|x b IH]; intros d; [reflexivity|].
  change (String x b ++ String c "")%string with (String x (b ++ String c "")).
  cbn [string_last]. apply IH.
Qed.

Lemma substring_prefix (b t : string) : substring 0 (String.length b) (b ++ t) = b.
Proof.
  induction b as [|x b IH]; [now destruct t|].
  change (String x b ++ t)%string with (String x (b ++ t)).
  cbn [String.length substring]. now rewrite IH.
Qed.

Lemma length_snoc (b : string) c :
  String.length (b ++ String c "") = S (String.length b).
Proof.
  induction b as [|x b IH]; [reflexivity|].
  change (String x b ++ String c "")%string with (String x (b ++ String c "")).
  cbn [String.length]. now rewrite IH.
Qed.

Lemma stripTrailingSlash_slash (b : string) : stripTrailingSlash (b ++ "/") = b.
Proof.
  unfold stripTrailingSlash. rewrite string_last_snoc, length_snoc.
  cbn [Nat.sub]. rewrite Nat.sub_0_r. apply substring_prefix.
Qed.

Lemma stripTrailingSlash_other (b : string) :
  string_last " " b <> "/"%char -> stripTrailingSlash b = b.
Proof.
  unfold stripTrailingSlash. intros H.
  destruct (string_last " " b) as [[] [] [] [] [] [] [] []]; try reflexivity.
  now destruct H.
Qed.

Lemma eqb_snoc_empty (b : string) c : String.eqb (b ++ String c "") "" = false.
Proof. now destruct b. Qed.

(** X21.  One slash at the end of the base URL makes no difference to the
    URL a non-empty input resolves to. *)
Theorem resolveUrl_trailing_slash
        {St : Type} (pf : Platform St) (base input : string)
        (defaultOptsParams fetcherOptsParams : Value)
        (serializeParams : option (Value -> Ext St string)) (w : World St) :
  base <> "" ->
  string_last " " base <> "/"%char ->
  input <> "" ->
  resolveUrl pf (Some (base ++ "/")) input defaultOptsParams fetcherOptsParams
             serializeParams w
  = resolveUrl pf (Some base) input defaultOptsParams fetcherOptsParams serializeParams w.
Proof.
  intros Hbase Hlast Hinput. unfold resolveUrl.
  apply bind_ext. intros keys w1. apply bind_ext. intros qs w2.
  cbn [default from_option id].
  rewrite stripTrailingSlash_slash, (stripTrailingSlash_other base Hlast).
  rewrite eqb_snoc_empty.
  assert (Hb : String.eqb base "" = false) by now apply String.eqb_neq.
  assert (Hi : String.eqb input "" = false) by now apply String.eqb_neq.
  rewrite Hb, Hi. reflexivity.
Qed.

Lemma resolveUrl_trailing_slash_witness :
  resolveUrl (Demo.platform []) (Some ("https://a.com/api" ++ "/")) "users"
             VUndefined (VObj [("page", VNum 2)])
             (read (serializeParams (fallbackOptions (Demo.platform [])))) Demo.start
  = resolveUrl (Demo.platform []) (Some "https://a.com/api") "users"
               VUndefined (VObj [("page", VNum 2)])
               (read (serializeParams (fallbackOptions (Demo.platform [])))) Demo.start.
Proof.
  apply (resolveUrl_trailing_slash (Demo.platform []) "https://a.com/api" "users").
  - discriminate.
  - discriminate.
  - discriminate.
Defined.

(** ** fallback-options: the default parser *)

(** X22.  The default response parser throws only when reading the body
    text of the response fails, with the error of that failure: a text
    that is not JSON never makes it throw. *)
Theorem fallback_parse_throws_only_on_text
        {St : Type} (pf : Platform St) (res : option Response) (e : Thrown) :
  (exists f, read (parseResponse (fallbackOptions pf)) = Some f /\
             forall request s t, f res request s t = (parseResponseText pf res, s, O)) /\
  (parseResponseText pf res = Throw e <->
   exists r x, res = Some r /\ rs_text r = inl x /\ e = TExn x).
Proof.
  split; [eexists; split; reflexivity|].
  unfold parseResponseText. split.
  - destruct res as [r|]; [|discriminate].
    destruct (rs_text r) as [x|text] eqn:E.
    + intros [= <-]. now exists r, x.
    + destruct (JSON_parse pf text); discriminate.
  - intros (r & x & -> & Hx & ->). now rewrite Hx.
Qed.

Lemma fallback_parse_throws_only_on_text_witness :
  parseResponseText (Demo.platform [])
    (Some {| rs_status := 200; rs_statusText := "OK";
             rs_text := inl (ExnError "TypeError" "body stream already read") |})
  = Throw (TExn (ExnError "TypeError" "body stream already read")).
Proof.
  apply (proj2 (fallback_parse_throws_only_on_text (Demo.platform []) _ _)).
  eexists _, _. repeat split.
Defined.
